(** * MechAnim: kinematics solver and evolutionary path-fitting optimizer

    A shallow embedding of [src/types.ts], [src/utils/kinematics.ts],
    [src/utils/optimizer.ts], of the optimizer driver [runOptimization] and
    the animation step of the application, and of the pointer handlers of
    [src/components/Canvas.tsx], followed by the properties that were
    checked against it: those of the specification first, then further
    properties of the code.

    Numbers.  A JavaScript [number] is modelled by a real number: the
    arithmetic of the program is read over [R], without rounding and without
    overflow.  The two special values the program produces by its own logic
    rather than by rounding, the literal [Infinity] and the quotient [0/0] of
    an average over an empty array, are kept: see [JsNumber].  Optional fields
    ([anchorX?: number]) are [option] values, [None] standing for
    [undefined]. *)

From Stdlib Require Import String Reals Lra Lia ZArith Bool List.
Import ListNotations.
Open Scope R_scope.

(** ** JavaScript operators used by the sources *)

Module Js.

(** [a < b] and [a > b] on numbers. *)
Definition ltb (a b : R) : bool := if Rlt_dec a b then true else false.
Definition gtb (a b : R) : bool := ltb b a.
Definition geb (a b : R) : bool := if Rle_dec b a then true else false.

(** [a === b] on numbers. *)
Definition eqb (a b : R) : bool := if Req_dec_T a b then true else false.

(** [o ?? d]: the default is taken for [undefined] only. *)
Definition nullish {A : Type} (o : option A) (d : A) : A :=
  match o with Some v => v | None => d end.

(** Truthiness of a number: every number but [0] is truthy. *)
Definition truthy (v : R) : bool := negb (eqb v 0).

(** [v || d] on a number. *)
Definition orNum (v d : R) : R := if truthy v then v else d.

(** [o || d] on an optional number: [undefined] and [0] take the default. *)
Definition orElse (o : option R) (d : R) : R :=
  match o with Some v => orNum v d | None => d end.

(** Truthiness of an optional number, as in [if (conf.rodLength) ...]. *)
Definition present (o : option R) : bool :=
  match o with Some v => truthy v | None => false end.

(** [Math.atan2(y, x)]. *)
Definition atan2 (b a : R) : R :=
  if ltb 0 a then atan (b / a)
  else if ltb a 0 then (if geb b 0 then atan (b / a) + PI else atan (b / a) - PI)
  else if ltb 0 b then PI / 2
  else if ltb b 0 then - (PI / 2)
  else 0.

(** [Math.hypot(a, b)]. *)
Definition hypot (a b : R) : R := sqrt (a * a + b * b).

(** [arr[i]] for a number [i] that is an integer: [undefined] outside the
    array. *)
Definition index {A : Type} (l : list A) (i : Z) : option A :=
  if (i <? 0)%Z then None else nth_error l (Z.to_nat i).

(** [Math.floor]. *)
Definition floor (v : R) : Z := Zfloor v.

(** [Math.trunc]. *)
Definition trunc (v : R) : Z :=
  if ltb v 0 then (- Zfloor (- v))%Z else Zfloor v.

(** [a % b] for a divisor that is not [0]: what is left of [a] once the
    whole multiples of [b] are taken off, with the sign of [a]. *)
Definition rem (a b : R) : R := a - b * IZR (trunc (a / b)).

End Js.

Notation "o ?? d" := (Js.nullish o d) (at level 45, left associativity).

(** ** [src/types.ts] *)

Inductive MechanismType : Type :=
  | crank | fourbar | piston | yoke | quick_return | fivebar.

Definition MechanismType_eqb (a b : MechanismType) : bool :=
  match a, b with
  | crank, crank | fourbar, fourbar | piston, piston
  | yoke, yoke | quick_return, quick_return | fivebar, fivebar => true
  | _, _ => false
  end.

Record Point : Type := mkPoint { x : R; y : R }.

(** An identifier is either a literal string or the base-36 rendering of a
    random draw, [Math.random().toString(36).substr(2, 9)], which is kept as
    the draw it was made from. *)
Inductive Ident : Type :=
  | Named (s : string)
  | Base36 (draw : R).

(** The [type] field holds [None] when the program stored [undefined] in it
    (an array read out of range); the TypeScript type excludes that value. *)
Record MechanismConfig : Type := mkConfig {
  id : Ident;
  type : option MechanismType;
  visible : bool;
  color : string;
  anchorX : option R;
  anchorY : option R;
  groundAngle : option R;
  crankLength : R;
  groundLength : R;
  couplerLength : R;
  rockerLength : R;
  sliderOffset : R;
  couplerPointDist : R;
  couplerPointAngle : R;
  speed1 : option R;
  speed2 : option R;
  gearRatio : option R;
  rodLength : option R;
  phase : option R;
  showOutputGear : option bool;
  outputGearRadius : option R
}.

Record JointState : Type := mkJointState {
  p1 : Point;
  p2 : Point;
  j1 : Point;
  j2 : Point;
  aux : option Point;
  effector : Point;
  isValid : bool
}.

(** [config.type === t]. *)
Definition typeIs (c : MechanismConfig) (t : MechanismType) : bool :=
  match type c with Some u => MechanismType_eqb u t | None => false end.

(** ** [src/utils/kinematics.ts] *)

Module Kinematics.

Definition toRad (deg : R) : R := (deg * PI) / 180.

Definition EPSILON : R := 0.1.

(** Distance between the two centers, the [d] of [getCircleIntersection]. *)
Definition centerDistance (c0 c1 : Point) : R :=
  let dx := x c1 - x c0 in
  let dy := y c1 - y c0 in
  sqrt (dx * dx + dy * dy).

Definition getCircleIntersection
    (c0 : Point) (r0 : R) (c1 : Point) (r1 : R) (flip : bool) : option Point :=
  let dx := x c1 - x c0 in
  let dy := y c1 - y c0 in
  let d := sqrt (dx * dx + dy * dy) in
  if Js.gtb d (r0 + r1 + EPSILON)
     || Js.ltb d (Rabs (r0 - r1) - EPSILON)
     || Js.eqb d 0
  then None
  else
    let a := (r0 * r0 - r1 * r1 + d * d) / (2 * d) in
    let h := sqrt (Rmax 0 (r0 * r0 - a * a)) in
    let x2 := x c0 + (dx * a) / d in
    let y2 := y c0 + (dy * a) / d in
    if flip
    then Some (mkPoint (x2 - (h * dy) / d) (y2 + (h * dx) / d))
    else Some (mkPoint (x2 + (h * dy) / d) (y2 - (h * dx) / d)).

(** The crank tip [J1] and the anchor [P1], computed before the dispatch. *)
Definition anchorOf (config : MechanismConfig) : Point :=
  mkPoint (anchorX config ?? 0) (anchorY config ?? 0).

Definition crankTip (config : MechanismConfig) (crankAngleRad : R) : Point :=
  let p1 := anchorOf config in
  let s1 := speed1 config ?? 1 in
  let angle1 := crankAngleRad * s1 in
  mkPoint (x p1 + crankLength config * cos angle1)
          (y p1 + crankLength config * sin angle1).

Definition calculateLinkage (config : MechanismConfig) (crankAngleRad : R)
  : JointState :=
  let p1 := anchorOf config in
  let j1 := crankTip config crankAngleRad in
  match type config with
  | Some crank =>
      mkJointState p1 p1 j1 j1 None j1 true
  | Some fourbar =>
      let gAngle := toRad (groundAngle config ?? 0) in
      let p2 := mkPoint (x p1 + groundLength config * cos gAngle)
                        (y p1 + groundLength config * sin gAngle) in
      match getCircleIntersection j1 (couplerLength config)
                                  p2 (rockerLength config) false with
      | None => mkJointState p1 p2 j1 p1 None p1 false
      | Some j2 =>
          let couplerAngle := Js.atan2 (y j2 - y j1) (x j2 - x j1) in
          let effectorAngle := couplerAngle + toRad (couplerPointAngle config) in
          let effector :=
            mkPoint (x j1 + couplerPointDist config * cos effectorAngle)
                    (y j1 + couplerPointDist config * sin effectorAngle) in
          mkJointState p1 p2 j1 j2 None effector true
      end
  | Some fivebar =>
      let gAngle := toRad (groundAngle config ?? 0) in
      let p2 := mkPoint (x p1 + groundLength config * cos gAngle)
                        (y p1 + groundLength config * sin gAngle) in
      let s2 := speed2 config ?? (gearRatio config ?? 1) in
      let ph := phase config ?? 0 in
      let angle2 := (crankAngleRad * s2) + ph in
      let aux := mkPoint (x p2 + rockerLength config * cos angle2)
                         (y p2 + rockerLength config * sin angle2) in
      let r1 := couplerLength config in
      let r2 := Js.orElse (rodLength config) 100 in
      match getCircleIntersection j1 r1 aux r2 false with
      | None => mkJointState p1 p2 j1 p1 (Some aux) p1 false
      | Some j2 =>
          let dx := x j2 - x j1 in
          let dy := y j2 - y j1 in
          let angle := Js.atan2 dy dx in
          let extension := couplerPointDist config in
          let effector := mkPoint (x j2 + extension * cos angle)
                                  (y j2 + extension * sin angle) in
          mkJointState p1 p2 j1 j2 (Some aux) effector true
      end
  | Some piston =>
      let trackAngle := toRad (groundAngle config ?? 0) in
      let offset := Js.orNum (sliderOffset config) 0 in
      let dx := x j1 - x p1 in
      let dy := y j1 - y p1 in
      let localJ1x := dx * cos (- trackAngle) - dy * sin (- trackAngle) in
      let localJ1y := dx * sin (- trackAngle) + dy * cos (- trackAngle) in
      let localTrackY := offset in
      let dy_link := localTrackY - localJ1y in
      if Js.gtb (Rabs dy_link) (couplerLength config)
      then
        let p2x := x p1 + localJ1x * cos trackAngle - localTrackY * sin trackAngle in
        let p2y := y p1 + localJ1x * sin trackAngle + localTrackY * cos trackAngle in
        mkJointState p1 (mkPoint p2x p2y) j1 p1 None p1 false
      else
        let dx_link :=
          sqrt (couplerLength config * couplerLength config - dy_link * dy_link) in
        let localJ2x := localJ1x + dx_link in
        let localJ2y := localTrackY in
        let j2 :=
          mkPoint (x p1 + localJ2x * cos trackAngle - localJ2y * sin trackAngle)
                  (y p1 + localJ2x * sin trackAngle + localJ2y * cos trackAngle) in
        let couplerAngle := Js.atan2 (y j2 - y j1) (x j2 - x j1) in
        let effectorAngle := couplerAngle + toRad (couplerPointAngle config) in
        let effector :=
          mkPoint (x j1 + couplerPointDist config * cos effectorAngle)
                  (y j1 + couplerPointDist config * sin effectorAngle) in
        mkJointState p1 j2 j1 j2 None effector true
  | Some yoke =>
      let trackAngle := toRad (groundAngle config ?? 0) in
      let offset := Js.orNum (sliderOffset config) 0 in
      let dx := x j1 - x p1 in
      let dy := y j1 - y p1 in
      let localJ1x := dx * cos (- trackAngle) - dy * sin (- trackAngle) in
      let localJ2x := localJ1x in
      let localJ2y := offset in
      let j2 :=
        mkPoint (x p1 + localJ2x * cos trackAngle - localJ2y * sin trackAngle)
                (y p1 + localJ2x * sin trackAngle + localJ2y * cos trackAngle) in
      let effector :=
        mkPoint (x j2 + couplerPointDist config * cos (toRad (couplerPointAngle config)))
                (y j2 + couplerPointDist config * sin (toRad (couplerPointAngle config))) in
      mkJointState p1 j2 j1 j2 None effector true
  | Some quick_return =>
      let gAngle := toRad (groundAngle config ?? 0) in
      let localP2x := groundLength config in
      let localP2y := sliderOffset config in
      let p2 := mkPoint (x p1 + localP2x * cos gAngle - localP2y * sin gAngle)
                        (y p1 + localP2x * sin gAngle + localP2y * cos gAngle) in
      let armAngle := Js.atan2 (y j1 - y p2) (x j1 - x p2) in
      let j2 := mkPoint (x p2 + rockerLength config * cos armAngle)
                        (y p2 + rockerLength config * sin armAngle) in
      let effAngle := armAngle + toRad (couplerPointAngle config) in
      let effector := mkPoint (x j2 + couplerPointDist config * cos effAngle)
                              (y j2 + couplerPointDist config * sin effAngle) in
      mkJointState p1 p2 j1 j2 None effector true
  | None =>
      mkJointState p1 p1 j1 p1 None p1 false
  end.

(** The loop of [generateCurvePoints]: sample [i] is taken at the angle
    [(i / resolution) * 2 * PI]; the accumulator holds the points pushed so
    far and [validCount]. *)
Fixpoint sampleLoop (config : MechanismConfig) (resolution : nat)
    (samples : list nat) (points : list Point) (validCount : nat)
  : list Point * nat :=
  match samples with
  | [] => (points, validCount)
  | i :: rest =>
      let angle := (INR i / INR resolution) * 2 * PI in
      let state := calculateLinkage config angle in
      if isValid state
      then sampleLoop config resolution rest (points ++ [effector state]) (S validCount)
      else sampleLoop config resolution rest points validCount
  end.

Record Curve : Type := mkCurve { points : list Point; percentValid : R }.

Definition curveLoops (config : MechanismConfig) : nat :=
  if typeIs config fivebar then 8%nat else 1%nat.

Definition generateCurvePoints (config : MechanismConfig) (resolution : nat)
  : Curve :=
  let loops := curveLoops config in
  let res := (resolution * loops)%nat in
  let '(points, validCount) := sampleLoop config resolution (seq 0 res) [] 0%nat in
  mkCurve points (INR validCount / INR res).

End Kinematics.

(** ** Numbers with the special values of JavaScript

    Used where the program itself starts from [Infinity] or divides by the
    length of an array that may be empty. *)

Inductive JsNumber : Type :=
  | Fin (v : R)
  | PosInf
  | NegInf
  | NaN.

Module Num.

(** [a < b]; every comparison with [NaN] is false. *)
Definition ltb (a b : JsNumber) : bool :=
  match a, b with
  | Fin u, Fin v => Js.ltb u v
  | Fin _, PosInf | NegInf, Fin _ | NegInf, PosInf => true
  | _, _ => false
  end.

Definition add (a b : JsNumber) : JsNumber :=
  match a, b with
  | Fin u, Fin v => Fin (u + v)
  | NaN, _ | _, NaN => NaN
  | PosInf, NegInf | NegInf, PosInf => NaN
  | PosInf, _ | _, PosInf => PosInf
  | NegInf, _ | _, NegInf => NegInf
  end.

Definition sub (a b : JsNumber) : JsNumber :=
  match a, b with
  | Fin u, Fin v => Fin (u - v)
  | NaN, _ | _, NaN => NaN
  | PosInf, PosInf | NegInf, NegInf => NaN
  | PosInf, _ | _, NegInf => PosInf
  | NegInf, _ | _, PosInf => NegInf
  end.

(** [a / n] for the length [n] of an array. *)
Definition divLength (a : JsNumber) (n : nat) : JsNumber :=
  match a, n with
  | NaN, _ => NaN
  | PosInf, _ => PosInf
  | NegInf, _ => NegInf
  | Fin u, O => if Js.ltb 0 u then PosInf else if Js.ltb u 0 then NegInf else NaN
  | Fin u, S _ => Fin (u / INR n)
  end.

(** [a <= b] as a proposition; it fails whenever [NaN] is involved. *)
Definition le (a b : JsNumber) : Prop :=
  match a, b with
  | Fin u, Fin v => u <= v
  | NaN, _ | _, NaN => False
  | NegInf, _ | _, PosInf => True
  | _, _ => False
  end.

End Num.

(** ** Configuration updates, [conf.field = value] *)

Definition set_id (v : Ident) (c : MechanismConfig) : MechanismConfig :=
  mkConfig v (type c) (visible c) (color c) (anchorX c) (anchorY c)
    (groundAngle c) (crankLength c) (groundLength c) (couplerLength c)
    (rockerLength c) (sliderOffset c) (couplerPointDist c) (couplerPointAngle c)
    (speed1 c) (speed2 c) (gearRatio c) (rodLength c) (phase c)
    (showOutputGear c) (outputGearRadius c).

Definition set_type (v : option MechanismType) (c : MechanismConfig) : MechanismConfig :=
  mkConfig (id c) v (visible c) (color c) (anchorX c) (anchorY c)
    (groundAngle c) (crankLength c) (groundLength c) (couplerLength c)
    (rockerLength c) (sliderOffset c) (couplerPointDist c) (couplerPointAngle c)
    (speed1 c) (speed2 c) (gearRatio c) (rodLength c) (phase c)
    (showOutputGear c) (outputGearRadius c).

Definition set_color (v : string) (c : MechanismConfig) : MechanismConfig :=
  mkConfig (id c) (type c) (visible c) v (anchorX c) (anchorY c)
    (groundAngle c) (crankLength c) (groundLength c) (couplerLength c)
    (rockerLength c) (sliderOffset c) (couplerPointDist c) (couplerPointAngle c)
    (speed1 c) (speed2 c) (gearRatio c) (rodLength c) (phase c)
    (showOutputGear c) (outputGearRadius c).

Definition set_anchorX (v : option R) (c : MechanismConfig) : MechanismConfig :=
  mkConfig (id c) (type c) (visible c) (color c) v (anchorY c)
    (groundAngle c) (crankLength c) (groundLength c) (couplerLength c)
    (rockerLength c) (sliderOffset c) (couplerPointDist c) (couplerPointAngle c)
    (speed1 c) (speed2 c) (gearRatio c) (rodLength c) (phase c)
    (showOutputGear c) (outputGearRadius c).

Definition set_anchorY (v : option R) (c : MechanismConfig) : MechanismConfig :=
  mkConfig (id c) (type c) (visible c) (color c) (anchorX c) v
    (groundAngle c) (crankLength c) (groundLength c) (couplerLength c)
    (rockerLength c) (sliderOffset c) (couplerPointDist c) (couplerPointAngle c)
    (speed1 c) (speed2 c) (gearRatio c) (rodLength c) (phase c)
    (showOutputGear c) (outputGearRadius c).

Definition set_groundAngle (v : option R) (c : MechanismConfig) : MechanismConfig :=
  mkConfig (id c) (type c) (visible c) (color c) (anchorX c) (anchorY c)
    v (crankLength c) (groundLength c) (couplerLength c)
    (rockerLength c) (sliderOffset c) (couplerPointDist c) (couplerPointAngle c)
    (speed1 c) (speed2 c) (gearRatio c) (rodLength c) (phase c)
    (showOutputGear c) (outputGearRadius c).

Definition set_crankLength (v : R) (c : MechanismConfig) : MechanismConfig :=
  mkConfig (id c) (type c) (visible c) (color c) (anchorX c) (anchorY c)
    (groundAngle c) v (groundLength c) (couplerLength c)
    (rockerLength c) (sliderOffset c) (couplerPointDist c) (couplerPointAngle c)
    (speed1 c) (speed2 c) (gearRatio c) (rodLength c) (phase c)
    (showOutputGear c) (outputGearRadius c).

Definition set_groundLength (v : R) (c : MechanismConfig) : MechanismConfig :=
  mkConfig (id c) (type c) (visible c) (color c) (anchorX c) (anchorY c)
    (groundAngle c) (crankLength c) v (couplerLength c)
    (rockerLength c) (sliderOffset c) (couplerPointDist c) (couplerPointAngle c)
    (speed1 c) (speed2 c) (gearRatio c) (rodLength c) (phase c)
    (showOutputGear c) (outputGearRadius c).

Definition set_couplerLength (v : R) (c : MechanismConfig) : MechanismConfig :=
  mkConfig (id c) (type c) (visible c) (color c) (anchorX c) (anchorY c)
    (groundAngle c) (crankLength c) (groundLength c) v
    (rockerLength c) (sliderOffset c) (couplerPointDist c) (couplerPointAngle c)
    (speed1 c) (speed2 c) (gearRatio c) (rodLength c) (phase c)
    (showOutputGear c) (outputGearRadius c).

Definition set_rockerLength (v : R) (c : MechanismConfig) : MechanismConfig :=
  mkConfig (id c) (type c) (visible c) (color c) (anchorX c) (anchorY c)
    (groundAngle c) (crankLength c) (groundLength c) (couplerLength c)
    v (sliderOffset c) (couplerPointDist c) (couplerPointAngle c)
    (speed1 c) (speed2 c) (gearRatio c) (rodLength c) (phase c)
    (showOutputGear c) (outputGearRadius c).

Definition set_sliderOffset (v : R) (c : MechanismConfig) : MechanismConfig :=
  mkConfig (id c) (type c) (visible c) (color c) (anchorX c) (anchorY c)
    (groundAngle c) (crankLength c) (groundLength c) (couplerLength c)
    (rockerLength c) v (couplerPointDist c) (couplerPointAngle c)
    (speed1 c) (speed2 c) (gearRatio c) (rodLength c) (phase c)
    (showOutputGear c) (outputGearRadius c).

Definition set_couplerPointDist (v : R) (c : MechanismConfig) : MechanismConfig :=
  mkConfig (id c) (type c) (visible c) (color c) (anchorX c) (anchorY c)
    (groundAngle c) (crankLength c) (groundLength c) (couplerLength c)
    (rockerLength c) (sliderOffset c) v (couplerPointAngle c)
    (speed1 c) (speed2 c) (gearRatio c) (rodLength c) (phase c)
    (showOutputGear c) (outputGearRadius c).

Definition set_couplerPointAngle (v : R) (c : MechanismConfig) : MechanismConfig :=
  mkConfig (id c) (type c) (visible c) (color c) (anchorX c) (anchorY c)
    (groundAngle c) (crankLength c) (groundLength c) (couplerLength c)
    (rockerLength c) (sliderOffset c) (couplerPointDist c) v
    (speed1 c) (speed2 c) (gearRatio c) (rodLength c) (phase c)
    (showOutputGear c) (outputGearRadius c).

Definition set_speed1 (v : option R) (c : MechanismConfig) : MechanismConfig :=
  mkConfig (id c) (type c) (visible c) (color c) (anchorX c) (anchorY c)
    (groundAngle c) (crankLength c) (groundLength c) (couplerLength c)
    (rockerLength c) (sliderOffset c) (couplerPointDist c) (couplerPointAngle c)
    v (speed2 c) (gearRatio c) (rodLength c) (phase c)
    (showOutputGear c) (outputGearRadius c).

Definition set_speed2 (v : option R) (c : MechanismConfig) : MechanismConfig :=
  mkConfig (id c) (type c) (visible c) (color c) (anchorX c) (anchorY c)
    (groundAngle c) (crankLength c) (groundLength c) (couplerLength c)
    (rockerLength c) (sliderOffset c) (couplerPointDist c) (couplerPointAngle c)
    (speed1 c) v (gearRatio c) (rodLength c) (phase c)
    (showOutputGear c) (outputGearRadius c).

Definition set_rodLength (v : option R) (c : MechanismConfig) : MechanismConfig :=
  mkConfig (id c) (type c) (visible c) (color c) (anchorX c) (anchorY c)
    (groundAngle c) (crankLength c) (groundLength c) (couplerLength c)
    (rockerLength c) (sliderOffset c) (couplerPointDist c) (couplerPointAngle c)
    (speed1 c) (speed2 c) (gearRatio c) v (phase c)
    (showOutputGear c) (outputGearRadius c).

Definition set_phase (v : option R) (c : MechanismConfig) : MechanismConfig :=
  mkConfig (id c) (type c) (visible c) (color c) (anchorX c) (anchorY c)
    (groundAngle c) (crankLength c) (groundLength c) (couplerLength c)
    (rockerLength c) (sliderOffset c) (couplerPointDist c) (couplerPointAngle c)
    (speed1 c) (speed2 c) (gearRatio c) (rodLength c) v
    (showOutputGear c) (outputGearRadius c).

Definition set_outputGearRadius (v : option R) (c : MechanismConfig) : MechanismConfig :=
  mkConfig (id c) (type c) (visible c) (color c) (anchorX c) (anchorY c)
    (groundAngle c) (crankLength c) (groundLength c) (couplerLength c)
    (rockerLength c) (sliderOffset c) (couplerPointDist c) (couplerPointAngle c)
    (speed1 c) (speed2 c) (gearRatio c) (rodLength c) (phase c)
    (showOutputGear c) v.

(** ** The ambient sources: [Math.random()] and [Date.now()]

    The program reads both from its environment.  The world holds everything
    they will answer, in order; reading one consumes its first answer. *)

Record World : Type := mkWorld {
  randoms : nat -> R;
  clock : nat -> R
}.

Definition M (A : Type) : Type := World -> A * World.

Definition ret {A : Type} (a : A) : M A := fun w => (a, w).

Definition bind {A B : Type} (m : M A) (k : A -> M B) : M B :=
  fun w => let (a, w') := m w in k a w'.

Notation "v <- m ;; k" := (bind m (fun v => k))
  (at level 61, m at next level, right associativity).

(** [Math.random()]. *)
Definition random : M R :=
  fun w => (randoms w 0%nat, mkWorld (fun n => randoms w (S n)) (clock w)).

(** [Date.now()]. *)
Definition dateNow : M R :=
  fun w => (clock w 0%nat, mkWorld (randoms w) (fun n => clock w (S n))).

(** Every answer of [Math.random()] lies in [[0, 1)]. *)
Definition unitDraws (w : World) : Prop := forall n, 0 <= randoms w n < 1.

(** ** [src/utils/optimizer.ts] *)

Module Optimizer.

Import Kinematics.

Definition MECHANISM_TYPES : list MechanismType :=
  [fourbar; piston; yoke; quick_return; fivebar].

Record Bounds : Type := mkBounds { w : R; h : R; cx : R; cy : R }.

(** The [forEach] of [getBounds], once the four accumulators are finite. *)
Fixpoint boundsLoop (points : list Point) (minX maxX minY maxY : R)
  : R * R * R * R :=
  match points with
  | [] => (minX, maxX, minY, maxY)
  | p :: rest =>
      let minX := if Js.ltb (x p) minX then x p else minX in
      let maxX := if Js.gtb (x p) maxX then x p else maxX in
      let minY := if Js.ltb (y p) minY then y p else minY in
      let maxY := if Js.gtb (y p) maxY then y p else maxY in
      boundsLoop rest minX maxX minY maxY
  end.

(** The accumulators start at [Infinity] and [-Infinity], so the first point
    sets all four.  On the empty array the result has no finite field
    ([w = h = -Infinity], [cx = cy = NaN]); every caller checks the length
    first, and the model answers [None] there. *)
Definition getBounds (points : list Point) : option Bounds :=
  match points with
  | [] => None
  | p :: rest =>
      let '(minX, maxX, minY, maxY) := boundsLoop rest (x p) (x p) (y p) (y p) in
      Some (mkBounds (maxX - minX) (maxY - minY)
                     ((minX + maxX) / 2) ((minY + maxY) / 2))
  end.

(** The inner loop of the chamfer distance: the least squared distance from
    [p] to a point of [others], starting from [minD]. *)
Fixpoint nearestLoop (p : Point) (others : list Point) (minD : JsNumber)
  : JsNumber :=
  match others with
  | [] => minD
  | q :: rest =>
      let d := (x p - x q) ^ 2 + (y p - y q) ^ 2 in
      nearestLoop p rest (if Num.ltb (Fin d) minD then Fin d else minD)
  end.

(** The outer loop: [error += minD] for every point of [from]. *)
Fixpoint errorLoop (from others : list Point) (error : JsNumber) : JsNumber :=
  match from with
  | [] => error
  | p :: rest => errorLoop rest others (Num.add error (nearestLoop p others PosInf))
  end.

Definition evaluateFitness (config : MechanismConfig) (targetPath : list Point)
  : JsNumber :=
  let resolution := if typeIs config fivebar then 120%nat else 60%nat in
  let curve := generateCurvePoints config resolution in
  let generatedPath := points curve in
  if Js.ltb (percentValid curve) 1
  then Fin (1e9 + (1.0 - percentValid curve) * 1e9)
  else if (length generatedPath <? 10)%nat
  then Fin 1e9
  else
    let forwardError :=
      Num.divLength (errorLoop generatedPath targetPath (Fin 0))
                    (length generatedPath) in
    let backwardError :=
      Num.divLength (errorLoop targetPath generatedPath (Fin 0))
                    (length targetPath) in
    let closurePenalty :=
      if typeIs config fivebar
      then match generatedPath with
           | [] => 0
           | start :: _ =>
               let end_ := last generatedPath start in
               let gap := (x start - x end_) ^ 2 + (y start - y end_) ^ 2 in
               if Js.gtb gap 50 then gap * 20 else 0
           end
      else 0 in
    Num.add (Num.add forwardError backwardError) (Fin closurePenalty).

(** [enforceFiveBarConstraints] updates its argument in place and returns it;
    the callers pass an object nobody else holds, so the model returns the
    updated configuration. *)
Definition enforceFiveBarConstraints (conf : MechanismConfig) : MechanismConfig :=
  if negb (typeIs conf fivebar) then conf
  else
    let maxSeparation :=
      Rabs (groundLength conf) + Rabs (crankLength conf) + Rabs (rockerLength conf) in
    let currentTotalArm :=
      Rabs (couplerLength conf) + Rabs (Js.orElse (rodLength conf) 100) in
    let minTotalArm := maxSeparation * 1.15 in
    let conf :=
      if Js.ltb currentTotalArm minTotalArm
      then
        let diff := minTotalArm - currentTotalArm in
        let conf := set_couplerLength (couplerLength conf + diff / 2) conf in
        set_rodLength (Some (Js.orElse (rodLength conf) 100 + diff / 2)) conf
      else conf in
    let armDiff := Rabs (couplerLength conf - Js.orElse (rodLength conf) 100) in
    let minSeparation :=
      Rmax 0 (Rabs (groundLength conf) - Rabs (crankLength conf)
              - Rabs (rockerLength conf)) in
    if Js.gtb armDiff minSeparation
    then
      let avg := (couplerLength conf + Js.orElse (rodLength conf) 100) / 2 in
      let conf := set_couplerLength ((couplerLength conf + avg) / 2) conf in
      set_rodLength (Some ((Js.orElse (rodLength conf) 100 + avg) / 2)) conf
    else conf.

(** [t !== excludedType] and [t !== config.type]. *)
Definition differsFrom (o : option MechanismType) (t : MechanismType) : bool :=
  match o with Some u => negb (MechanismType_eqb t u) | None => true end.

(** [types[Math.floor(Math.random() * types.length)]]. *)
Definition pickType (types : list MechanismType) : M (option MechanismType) :=
  u <- random ;;
  ret (Js.index types (Js.floor (u * INR (length types)))).

(** The [availableTypes] of [generateSmartConfig]. *)
Definition availableTypes (forcedType excludedType : option MechanismType)
  : list MechanismType :=
  match forcedType with
  | Some t => [t]
  | None =>
      match excludedType with
      | Some _ => filter (differsFrom excludedType) MECHANISM_TYPES
      | None => MECHANISM_TYPES
      end
  end.

Definition generateSmartConfig (targetPath : option (list Point))
    (forcedType excludedType : option MechanismType) : M MechanismConfig :=
  let '(cx, cy, scale) :=
    match targetPath with
    | Some path =>
        match getBounds path with
        | Some bounds => (cx bounds, cy bounds, Rmax (w bounds) (h bounds))
        | None => (0, 0, 100)
        end
    | None => (0, 0, 100)
    end in
  let s (factor : R) : M R := u <- random ;; ret (scale * factor * (0.5 + u)) in
  ty <- pickType (availableTypes forcedType excludedType) ;;
  ux <- random ;;
  uy <- random ;;
  uid <- random ;;
  uga <- random ;;
  ground <- s 0.8 ;;
  crankLen <- s 0.3 ;;
  coupler <- s 1.0 ;;
  rocker <- s 0.8 ;;
  pointDist <- s 0.5 ;;
  ucpa <- random ;;
  rod <- s 1.0 ;;
  uph <- random ;;
  let config :=
    mkConfig (Base36 uid) ty true "#3b82f6"%string
      (Some (cx + (ux - 0.5) * scale * 3.0))
      (Some (cy + (uy - 0.5) * scale * 3.0))
      (Some (uga * 360))
      crankLen ground coupler rocker
      0 pointDist (ucpa * 360)
      (Some 1) (Some 1) None (Some rod) (Some (uph * PI * 2))
      None None in
  match ty with
  | Some yoke =>
      u <- random ;;
      v <- s 0.5 ;;
      ret (set_sliderOffset ((u - 0.5) * v) config)
  | Some piston =>
      u <- random ;;
      v <- s 0.5 ;;
      let config := set_sliderOffset ((u - 0.5) * v) config in
      m <- s 0.5 ;;
      ret (set_couplerLength
             (Rabs (sliderOffset config) + crankLength config + m) config)
  | Some quick_return =>
      u <- random ;;
      v <- s 1.0 ;;
      let config := set_sliderOffset ((u - 0.5) * v) config in
      g <- s 0.5 ;;
      let config := set_groundLength (Rmax g (crankLength config + 10)) config in
      r <- s 1.5 ;;
      ret (set_rockerLength r config)
  | Some fivebar =>
      let config := set_speed1 (Some 1) config in
      ud <- random ;;
      let dir := if Js.gtb ud 0.5 then 1 else -1 in
      udev <- random ;;
      let deviation := (udev - 0.5) * 0.2 in
      let config :=
        set_speed2 (Some ((speed1 config ?? 1) * dir + deviation)) config in
      g <- s 0.6 ;;
      let config := set_groundLength g config in
      c <- s 0.3 ;;
      let config := set_crankLength c config in
      r <- s 0.3 ;;
      let config := set_rockerLength r config in
      let gearMidX := (anchorX config ?? 0) + (cos 0 * groundLength config) / 2 in
      let gearMidY := (anchorY config ?? 0) + (sin 0 * groundLength config) / 2 in
      let distToTarget := Js.hypot (cx - gearMidX) (cy - gearMidY) in
      ua <- random ;;
      let avgArmLen := distToTarget * (1.0 + ua * 0.4) in
      let config := set_couplerLength avgArmLen config in
      let config := set_rodLength (Some avgArmLen) config in
      ue <- random ;;
      v <- s 0.5 ;;
      let config := set_couplerPointDist (ue * v) config in
      ret (enforceFiveBarConstraints config)
  | _ => ret config
  end.

(** [if (Math.random() < p) conf = update(conf)], the update being free to
    draw again. *)
Definition withChance (p : R) (update : MechanismConfig -> M MechanismConfig)
    (conf : MechanismConfig) : M MechanismConfig :=
  u <- random ;;
  if Js.ltb u p then update conf else ret conf.

(** [if (o) o *= factor] on an optional field. *)
Definition scaleIfPresent (o : option R) (factor : R) : option R :=
  if Js.present o then option_map (fun v => v * factor) o else o.

(** The statements of [mutateConfig] from the clamps on (lines 256 to 264 of
    the source). *)
Definition clampLengths (newConfig : MechanismConfig) : MechanismConfig :=
  let newConfig :=
    set_groundLength (Rmax 5 (Rabs (groundLength newConfig))) newConfig in
  let newConfig :=
    set_crankLength (Rmax 5 (Rabs (crankLength newConfig))) newConfig in
  let newConfig :=
    set_couplerLength (Rmax 5 (Rabs (couplerLength newConfig))) newConfig in
  let newConfig :=
    set_rockerLength (Rmax 5 (Rabs (rockerLength newConfig))) newConfig in
  let newConfig :=
    if Js.present (rodLength newConfig)
    then set_rodLength
           (option_map (fun v => Rmax 5 (Rabs v)) (rodLength newConfig)) newConfig
    else newConfig in
  if typeIs newConfig fivebar
  then enforceFiveBarConstraints newConfig
  else newConfig.

(** [mutateConfig].  The input is copied first ([{ ...config }]), so the
    model threads the copy.  The non-null assertions [anchorX!], [anchorY!]
    and [groundAngle!] are taken at their word: a field that is absent stays
    absent (JavaScript would store [NaN], which no real number stands for);
    the draw is consumed all the same.  The model is therefore the program
    on the mechanisms that have the three fields; what is proved about the
    position of a mutant, or about the score of one, is stated for those
    ([Spec.placed]). *)
Definition mutateConfig (config : MechanismConfig) (temperature : R)
    (fixedType : bool) (excludedType : option MechanismType)
  : M MechanismConfig :=
  let newConfig := config in
  let mutate (val : R) : M R :=
    u <- random ;;
    let change := val * 0.2 * temperature * (u - 0.5) * 2 in
    ret (val + change) in
  let mutateAbs (val : R) (amount : R) : M R :=
    u <- random ;;
    ret (val + (u - 0.5) * amount * temperature) in
  let mutateAbsOpt (val : option R) (amount : R) : M (option R) :=
    u <- random ;;
    ret (option_map (fun v => v + (u - 0.5) * amount * temperature) val) in
  (* Structure Mutation *)
  newConfig <-
    (if negb fixedType && Js.gtb temperature 0.3
     then
       u <- random ;;
       if Js.ltb u 0.15
       then
         let types := MECHANISM_TYPES in
         let types :=
           match excludedType with
           | Some _ => filter (differsFrom excludedType) types
           | None => types
           end in
         let types := filter (differsFrom (type config)) types in
         if (0 <? length types)%nat
         then
           ty <- pickType types ;;
           let newConfig := set_type ty newConfig in
           if typeIs newConfig fivebar
           then
             let newConfig := set_speed1 (Some 1) newConfig in
             ud <- random ;;
             let dir := if Js.gtb ud 0.5 then 1 else -1 in
             let newConfig := set_speed2 (Some dir) newConfig in
             ret (set_rodLength (Some (couplerLength newConfig)) newConfig)
           else ret newConfig
         else ret newConfig
       else ret newConfig
     else ret newConfig) ;;
  (* Global Scale Mutation *)
  newConfig <-
    withChance 0.15 (fun newConfig =>
      u <- random ;;
      let scaleFactor := 1.0 + (u - 0.5) * 0.5 * temperature in
      let newConfig :=
        set_groundLength (groundLength newConfig * scaleFactor) newConfig in
      let newConfig :=
        set_crankLength (crankLength newConfig * scaleFactor) newConfig in
      let newConfig :=
        set_couplerLength (couplerLength newConfig * scaleFactor) newConfig in
      let newConfig :=
        set_rockerLength (rockerLength newConfig * scaleFactor) newConfig in
      let newConfig :=
        set_rodLength (scaleIfPresent (rodLength newConfig) scaleFactor) newConfig in
      let newConfig :=
        if Js.truthy (sliderOffset newConfig)
        then set_sliderOffset (sliderOffset newConfig * scaleFactor) newConfig
        else newConfig in
      let newConfig :=
        if Js.truthy (couplerPointDist newConfig)
        then set_couplerPointDist (couplerPointDist newConfig * scaleFactor) newConfig
        else newConfig in
      ret (set_outputGearRadius
             (scaleIfPresent (outputGearRadius newConfig) scaleFactor) newConfig))
      newConfig ;;
  (* Position & Orientation *)
  newConfig <-
    withChance 0.7 (fun newConfig =>
      v <- mutateAbsOpt (anchorX newConfig) 150 ;;
      ret (set_anchorX v newConfig)) newConfig ;;
  newConfig <-
    withChance 0.7 (fun newConfig =>
      v <- mutateAbsOpt (anchorY newConfig) 150 ;;
      ret (set_anchorY v newConfig)) newConfig ;;
  newConfig <-
    withChance 0.7 (fun newConfig =>
      v <- mutateAbsOpt (groundAngle newConfig) 60 ;;
      ret (set_groundAngle v newConfig)) newConfig ;;
  (* Dimension Mutation *)
  newConfig <-
    withChance 0.7 (fun newConfig =>
      v <- mutate (groundLength newConfig) ;;
      ret (set_groundLength v newConfig)) newConfig ;;
  newConfig <-
    withChance 0.7 (fun newConfig =>
      v <- mutate (couplerLength newConfig) ;;
      ret (set_couplerLength v newConfig)) newConfig ;;
  newConfig <-
    withChance 0.7 (fun newConfig =>
      v <- mutate (rockerLength newConfig) ;;
      ret (set_rockerLength v newConfig)) newConfig ;;
  newConfig <-
    withChance 0.7 (fun newConfig =>
      v <- mutate (couplerPointDist newConfig) ;;
      ret (set_couplerPointDist v newConfig)) newConfig ;;
  newConfig <-
    withChance 0.7 (fun newConfig =>
      v <- mutate (crankLength newConfig) ;;
      ret (set_crankLength v newConfig)) newConfig ;;
  (* 5-Bar Specific Mutation *)
  newConfig <-
    (if typeIs newConfig fivebar
     then
       newConfig <-
         withChance 0.7 (fun newConfig =>
           v <- mutate (Js.orElse (rodLength newConfig) 100) ;;
           ret (set_rodLength (Some v) newConfig)) newConfig ;;
       newConfig <-
         withChance 0.6 (fun newConfig =>
           u <- random ;;
           ret (set_phase
                  (Some (Js.orElse (phase newConfig) 0
                         + (u - 0.5) * PI * 0.5 * temperature)) newConfig))
           newConfig ;;
       withChance 0.3 (fun newConfig =>
         let currentDiff :=
           Js.orElse (speed2 newConfig) 1 - Js.orElse (speed1 newConfig) 1 in
         let dir := if Js.geb currentDiff 0 then 1 else -1 in
         u <- random ;;
         let jitter := (u - 0.5) * 0.05 in
         let newSpeed2 := Js.orElse (speed2 newConfig) 1 + jitter in
         let s1 := Js.orElse (speed1 newConfig) 1 in
         let isCounter :=
           (Js.gtb s1 0 && Js.ltb newSpeed2 0)
           || (Js.ltb s1 0 && Js.gtb newSpeed2 0) in
         let targetBase := if isCounter then - s1 else s1 in
         let newSpeed2 :=
           if Js.gtb (Rabs (newSpeed2 - targetBase)) 0.1
           then targetBase + (if Js.gtb newSpeed2 targetBase then 0.1 else -0.1)
           else newSpeed2 in
         ret (set_speed2 (Some newSpeed2) newConfig)) newConfig
     else ret newConfig) ;;
  newConfig <-
    withChance 0.7 (fun newConfig =>
      v <- mutateAbs (sliderOffset newConfig) 30 ;;
      ret (set_sliderOffset v newConfig)) newConfig ;;
  newConfig <-
    withChance 0.7 (fun newConfig =>
      v <- mutateAbs (couplerPointAngle newConfig) 60 ;;
      ret (set_couplerPointAngle v newConfig)) newConfig ;;
  ret (clampLengths newConfig).

End Optimizer.

(** ** The optimizer driver, [runOptimization]

    The React state it reads ([userPath], [selectedId], [config.mechanisms],
    [optDuration]) is passed in; the configuration it shows through
    [setConfig] is kept in the loop state. *)

Module App.

Import Optimizer.

Record OptimizationOptions : Type := mkOptions {
  forcedType : option MechanismType;
  excludeCurrent : bool;
  seedMechanism : option MechanismConfig
}.

Record Scored : Type := mkScored { mech : MechanismConfig; score : JsNumber }.

Definition PRE_COMPUTE_SIZE : nat := 2000.
Definition POPULATION_SIZE : nat := 100.
Definition DEFAULT_GENERATIONS : nat := 100.

(** [arr.sort((a, b) => a.score - b.score)].  The sort of JavaScript is
    stable, and a comparator answer that is [NaN] counts as [0]; for a
    consistent comparator the result is the one of a stable insertion. *)
Fixpoint insertByScore (s : Scored) (sorted : list Scored) : list Scored :=
  match sorted with
  | [] => [s]
  | t :: rest =>
      if Num.ltb (Num.sub (score s) (score t)) (Fin 0)
      then s :: t :: rest
      else t :: insertByScore s rest
  end.

Definition sortByScore (l : list Scored) : list Scored :=
  fold_left (fun sorted s => insertByScore s sorted) l [].

Definition scoreAll (userPath : list Point) (l : list MechanismConfig)
  : list Scored :=
  map (fun m => mkScored m (evaluateFitness m userPath)) l.

(** [n] times [arr.push(make())]. *)
Fixpoint pushMany (n : nat) (make : M MechanismConfig)
    (arr : list MechanismConfig) : M (list MechanismConfig) :=
  match n with
  | O => ret arr
  | S n' => c <- make ;; pushMany n' make (arr ++ [c])
  end.

(** One of the 500 placements of the seed mechanism. *)
Definition placeSeed (seedMechanism : MechanismConfig) (bounds : Bounds)
    (pathSize : R) : M MechanismConfig :=
  uid <- random ;;
  let cand := set_id (Base36 uid) seedMechanism in
  ux <- random ;;
  let cand := set_anchorX (Some (cx bounds + (ux - 0.5) * pathSize * 4.0)) cand in
  uy <- random ;;
  let cand := set_anchorY (Some (cy bounds + (uy - 0.5) * pathSize * 4.0)) cand in
  ug <- random ;;
  let cand := set_groundAngle (Some (ug * 360)) cand in
  let currentSize :=
    crankLength cand + couplerLength cand + Js.orNum (rockerLength cand) 0 in
  ut <- random ;;
  let targetSize := pathSize * (0.5 + ut * 2.0) in
  let scaleRatio := targetSize / Rmax 10 currentSize in
  let cand := set_groundLength (groundLength cand * scaleRatio) cand in
  let cand := set_crankLength (crankLength cand * scaleRatio) cand in
  let cand := set_couplerLength (couplerLength cand * scaleRatio) cand in
  let cand := set_rockerLength (rockerLength cand * scaleRatio) cand in
  let cand := set_rodLength (scaleIfPresent (rodLength cand) scaleRatio) cand in
  let cand :=
    if Js.truthy (sliderOffset cand)
    then set_sliderOffset (sliderOffset cand * scaleRatio) cand
    else cand in
  let cand := set_couplerPointDist (couplerPointDist cand * scaleRatio) cand in
  let cand :=
    set_outputGearRadius (scaleIfPresent (outputGearRadius cand) scaleRatio) cand in
  let cand :=
    if typeIs cand fivebar
    then
      let minArm :=
        (groundLength cand + crankLength cand + rockerLength cand) * 0.6 in
      let cand := set_couplerLength (Rmax (couplerLength cand) minArm) cand in
      set_rodLength (Some (Rmax (Js.orElse (rodLength cand) 100) minArm)) cand
    else cand in
  ret cand.

(** The Monte-Carlo search before the loop: the population it hands over. *)
Definition seedPopulation (userPath : list Point) (options : OptimizationOptions)
    (seedMech : MechanismConfig) : M (list MechanismConfig) :=
  let excludedType := if excludeCurrent options then type seedMech else None in
  let isTypeMismatch :=
    match forcedType options with
    | Some t => negb (typeIs seedMech t)
    | None => false
    end in
  let fresh := generateSmartConfig (Some userPath) (forcedType options) excludedType in
  initialCandidates <-
    match seedMechanism options with
    | Some seed =>
        let bounds :=
          match getBounds userPath with
          | Some b => b
          | None => mkBounds 200 200 0 0
          end in
        let pathSize := Js.orNum (Rmax (w bounds) (h bounds)) 200 in
        pushMany 500 (placeSeed seed bounds pathSize) []
    | None =>
        if negb (excludeCurrent options) && negb isTypeMismatch
        then
          pushMany 20
            (mutateConfig seedMech 0.5
               (match forcedType options with Some _ => true | None => false end)
               None)
            [seedMech]
        else ret []
    end ;;
  initialCandidates <- pushMany PRE_COMPUTE_SIZE fresh initialCandidates ;;
  let scoredCandidates := scoreAll userPath initialCandidates in
  let validCandidates :=
    filter (fun s => Num.ltb (score s) (Fin 1e8)) scoredCandidates in
  let poolSource :=
    if (0 <? length validCandidates)%nat then validCandidates else scoredCandidates in
  let poolSource := sortByScore poolSource in
  let population := map mech (firstn POPULATION_SIZE poolSource) in
  pushMany (POPULATION_SIZE - length population) fresh population.

(** What the evolutionary loop reads but never writes. *)
Record Search : Type := mkSearch {
  userPath : list Point;
  forced : option MechanismType;
  excludedType : option MechanismType;
  seedMech : MechanismConfig;
  startTime : R;
  timeLimit : R
}.

Definition isTimeBound (env : Search) : bool := Js.gtb (timeLimit env) 0.

(** The variables of the loop; [shown] is the mechanism last handed to
    [setConfig]. *)
Record LoopState : Type := mkLoopState {
  population : list MechanismConfig;
  globalBest : MechanismConfig;
  globalBestScore : JsNumber;
  generation : nat;
  shown : MechanismConfig
}.

(** How one pass through [while (true)] ends: the loop is left by [break],
    the body runs to its end, or a read of [undefined.mech] throws. *)
Inductive Pass : Type :=
  | Break
  | Next (st : LoopState)
  | Throws.

(** [while (nextGen.length < POPULATION_SIZE)], every pass of which pushes
    one member; [missing] is the number of passes left.  [Math.pow(progress,
    0.5)] is [sqrt progress] for a progress that is not negative: in
    generation-count mode always, in time-bound mode as long as the clock
    has not stepped back behind the start of the run (JavaScript then gives
    [NaN], a temperature the model does not have). *)
Fixpoint refill (env : Search) (survivors : list Scored) (generation : nat)
    (missing : nat) (nextGen : list MechanismConfig)
  : M (option (list MechanismConfig)) :=
  match missing with
  | O => ret (Some nextGen)
  | S missing' =>
      u <- random ;;
      if Js.ltb u 0.10
      then
        c <- generateSmartConfig (Some (userPath env)) (forced env) (excludedType env) ;;
        refill env survivors generation missing' (nextGen ++ [c])
      else
        up <- random ;;
        match Js.index survivors (Js.floor (up * INR (length survivors))) with
        | None => ret None
        | Some parent =>
            progress <-
              (if isTimeBound env
               then now <- dateNow ;; ret ((now - startTime env) / timeLimit env)
               else ret (INR generation / INR DEFAULT_GENERATIONS)) ;;
            (* Math.pow(progress, 0.5), for a progress that is not negative *)
            let temperature := Rmax 0.05 (1.0 - sqrt progress) in
            c <- mutateConfig (mech parent) temperature
                   (match forced env with Some _ => true | None => false end)
                   (excludedType env) ;;
            refill env survivors generation missing' (nextGen ++ [c])
        end
  end.

(** The body of the loop, after the exit test. *)
Definition generationBody (env : Search) (st : LoopState) : M Pass :=
  let scored := sortByScore (scoreAll (userPath env) (population st)) in
  match scored with
  | [] => ret Throws
  | best :: _ =>
      let bestOfGen := mech best in
      let bestGenScore := score best in
      let '(globalBestScore, globalBest) :=
        if Num.ltb bestGenScore (globalBestScore st)
        then (bestGenScore, bestOfGen)
        else (globalBestScore st, globalBest st) in
      let shown := set_color (color (seedMech env))
                     (set_id (id (seedMech env)) bestOfGen) in
      if (length scored <? 15)%nat
      then ret Throws
      else
        let nextGen := map mech (firstn 15 scored) in
        let survivors := firstn (POPULATION_SIZE / 2) scored in
        filled <- refill env survivors (generation st)
                    (POPULATION_SIZE - length nextGen) nextGen ;;
        match filled with
        | None => ret Throws
        | Some nextGen =>
            ret (Next (mkLoopState nextGen globalBest globalBestScore
                         (S (generation st)) shown))
        end
  end.

(** One pass: the exit test, then the body. *)
Definition pass (env : Search) (st : LoopState) : M Pass :=
  leave <-
    (if isTimeBound env
     then now <- dateNow ;; ret (Js.geb (now - startTime env) (timeLimit env))
     else ret (DEFAULT_GENERATIONS <=? generation st)%nat) ;;
  if leave then ret Break else generationBody env st.

(** The state after [k] complete generations, when the loop gets that far. *)
Fixpoint generations (env : Search) (k : nat) (st : LoopState)
  : M (option LoopState) :=
  match k with
  | O => ret (Some st)
  | S k' =>
      r <- pass env st ;;
      match r with
      | Next st' => generations env k' st'
      | _ => ret None
      end
  end.

(** How the whole loop ends, given enough passes. *)
Inductive Outcome : Type :=
  | Done (final : LoopState)
  | Threw
  | StillRunning (st : LoopState).

Fixpoint evolve (env : Search) (fuel : nat) (st : LoopState) : M Outcome :=
  match fuel with
  | O => ret (StillRunning st)
  | S fuel' =>
      r <- pass env st ;;
      match r with
      | Break => ret (Done st)
      | Throws => ret Threw
      | Next st' => evolve env fuel' st'
      end
  end.

(** The statements between the seeding and the loop: [globalBest] starts as
    [population[0]]; scoring [undefined] throws. *)
Definition startEvolution (path : list Point) (options : OptimizationOptions)
    (seed : MechanismConfig) (optDuration : R)
    (population : list MechanismConfig) : M (option (Search * LoopState)) :=
  match population with
  | [] => ret None
  | globalBest :: _ =>
      let globalBestScore := evaluateFitness globalBest path in
      start <- dateNow ;;
      let env :=
        mkSearch path (forcedType options)
          (if excludeCurrent options then type seed else None)
          seed start (optDuration * 1000) in
      ret (Some (env, mkLoopState population globalBest globalBestScore 0%nat seed))
  end.

(** What [runOptimization] leaves behind. *)
Inductive Run : Type :=
  | Alert (message : string)
  | NotFound
  | Ended (result : Outcome).

(** [m.id === selectedId]; two random identifiers are compared by the draws
    they were made from. *)
Definition sameIdent (a b : Ident) : bool :=
  match a, b with
  | Named s, Named t => String.eqb s t
  | Base36 u, Base36 v => Js.eqb u v
  | _, _ => false
  end.

Definition runOptimization (mechanisms : list MechanismConfig)
    (selectedId : option Ident) (path : list Point) (optDuration : R)
    (options : OptimizationOptions) (fuel : nat) : M Run :=
  if (length path <? 3)%nat
  then ret (Alert "Please draw a path first!")
  else
    match selectedId with
    | None | Some (Named EmptyString) =>
        ret (Alert "Please select a part to optimize.")
    | Some selected =>
        match find (fun m => sameIdent (id m) selected) mechanisms with
        | None => ret NotFound
        | Some seed =>
            seeded <- seedPopulation path options seed ;;
            started <- startEvolution path options seed optDuration seeded ;;
            match started with
            | None => ret (Ended Threw)
            | Some (env, st) =>
                result <- evolve env fuel st ;;
                ret (Ended
                       (match result with
                        | Done final =>
                            Done (mkLoopState (population final) (globalBest final)
                                    (globalBestScore final) (generation final)
                                    (set_color (color seed)
                                       (set_id (id seed) (globalBest final))))
                        | other => other
                        end))
            end
        end
    end.

(** The step of the animation loop, [animate]: the drive angle advances by
    [speed * 0.05] a frame and is wrapped at eight turns. *)
Definition animate (speed : R) (isPlaying isDrawMode isOptimizing : bool)
    (angle : R) : R :=
  if isPlaying && negb isDrawMode && negb isOptimizing
  then Js.rem (angle + speed * 0.05) (PI * 16)
  else angle.

End App.

(** ** The canvas, [src/components/Canvas.tsx]

    The pointer handlers of the canvas.  The state they read and write, the
    component's own ([viewOffset], [zoom], [isPanning], [isDrawing],
    [dragTarget]) and the one it gets from the application
    ([config.mechanisms], [angle], [isPlaying], [isDrawMode], [userPath]),
    is one record; a handler maps the state it was rendered with to the
    state after its updates.  The position of the pointer arrives in the
    coordinates of the view box, [svgP], as the browser computes it from the
    event: [pt.matrixTransform(svg.getScreenCTM().inverse())], the canvas
    being mounted. *)

Module Canvas.

Import Kinematics.

Definition INITIAL_OFFSET_X : R := 400.
Definition INITIAL_OFFSET_Y : R := 300.

Inductive Handle : Type := P1 | P2 | J1 | J2 | Effector | Aux.

(** The target of a drag; [handle] is its field [type]. *)
Record DragTarget : Type := mkDragTarget { mechId : Ident; handle : Handle }.

Record State : Type := mkState {
  mechanisms : list MechanismConfig;
  angle : R;
  isPlaying : bool;
  isDrawMode : bool;
  userPath : list Point;
  viewOffset : Point;
  zoom : R;
  isPanning : bool;
  isDrawing : bool;
  dragTarget : option DragTarget
}.

(** A mouse event; a touch event has no movement and no shift key, which
    the handlers read as [0] and [false]. *)
Record Pointer : Type := mkPointer {
  svgP : Point;
  movementX : R;
  movementY : R;
  shiftKey : bool
}.

Definition setMechanisms (v : list MechanismConfig) (s : State) : State :=
  mkState v (angle s) (isPlaying s) (isDrawMode s) (userPath s) (viewOffset s)
    (zoom s) (isPanning s) (isDrawing s) (dragTarget s).

Definition setAngle (v : R) (s : State) : State :=
  mkState (mechanisms s) v (isPlaying s) (isDrawMode s) (userPath s)
    (viewOffset s) (zoom s) (isPanning s) (isDrawing s) (dragTarget s).

Definition setUserPath (v : list Point) (s : State) : State :=
  mkState (mechanisms s) (angle s) (isPlaying s) (isDrawMode s) v (viewOffset s)
    (zoom s) (isPanning s) (isDrawing s) (dragTarget s).

Definition setViewOffset (v : Point) (s : State) : State :=
  mkState (mechanisms s) (angle s) (isPlaying s) (isDrawMode s) (userPath s) v
    (zoom s) (isPanning s) (isDrawing s) (dragTarget s).

Definition setZoom (v : R) (s : State) : State :=
  mkState (mechanisms s) (angle s) (isPlaying s) (isDrawMode s) (userPath s)
    (viewOffset s) v (isPanning s) (isDrawing s) (dragTarget s).

Definition getWorldPoint (s : State) (svgP : Point) : Point :=
  let Tx := INITIAL_OFFSET_X + x (viewOffset s) in
  let Ty := INITIAL_OFFSET_Y + y (viewOffset s) in
  mkPoint ((x svgP - Tx) / zoom s) ((Ty - y svgP) / zoom s).

(** [updateMechanism(id, updates)]: the partial configuration [updates] is
    the function that writes its fields. *)
Definition updateMechanism (ident : Ident)
    (updates : MechanismConfig -> MechanismConfig) (s : State) : State :=
  setMechanisms
    (map (fun m => if App.sameIdent (id m) ident then updates m else m)
         (mechanisms s)) s.

Definition handleWheel (s : State) (svgP : Point) (deltaY : R) : State :=
  let zoomSensitivity := 0.001 in
  let MIN_ZOOM := 0.1 in
  let MAX_ZOOM := 10 in
  let delta := - deltaY in
  let scaleFactor := 1 + delta * zoomSensitivity in
  let newZoom := Rmin MAX_ZOOM (Rmax MIN_ZOOM (zoom s * scaleFactor)) in
  let Tx := INITIAL_OFFSET_X + x (viewOffset s) in
  let Ty := INITIAL_OFFSET_Y + y (viewOffset s) in
  let wx := (x svgP - Tx) / zoom s in
  let wy := (Ty - y svgP) / zoom s in
  let newTx := x svgP - wx * newZoom in
  let newTy := y svgP + wy * newZoom in
  setViewOffset (mkPoint (newTx - INITIAL_OFFSET_X) (newTy - INITIAL_OFFSET_Y))
    (setZoom newZoom s).

(** The two helpers of [handleMouseMove]. *)
Definition dist (a b : Point) : R := Js.hypot (x a - x b) (y a - y b).

Definition toDeg (rad : R) : R := (rad * 180) / PI.

(** The branch of [handleMouseMove] that drags a handle of the mechanism
    [m] to the point [p]. *)
Definition drag (m : MechanismConfig) (target : Handle) (p : Point) (s : State)
  : State :=
  let state := calculateLinkage m (angle s) in
  match target with
  | P1 =>
      updateMechanism (id m)
        (fun c => set_anchorY (Some (y p)) (set_anchorX (Some (x p)) c)) s
  | P2 =>
      let dx := x p - x (p1 state) in
      let dy := y p - y (p1 state) in
      let newAngle := toDeg (Js.atan2 dy dx) in
      if typeIs m fourbar || typeIs m fivebar
      then
        let newGround := Js.hypot dx dy in
        updateMechanism (id m)
          (fun c => set_groundAngle (Some newAngle) (set_groundLength newGround c)) s
      else
        updateMechanism (id m) (set_groundAngle (Some newAngle)) s
  | J1 =>
      let newCrank := dist (p1 state) p in
      let newAngle := Js.atan2 (y p - y (p1 state)) (x p - x (p1 state)) in
      setAngle newAngle (updateMechanism (id m) (set_crankLength newCrank) s)
  | Aux =>
      let newRadius := dist (p2 state) p in
      updateMechanism (id m) (set_rockerLength newRadius) s
  | J2 =>
      if typeIs m fourbar
      then
        let newRocker := dist (p2 state) p in
        let newCoupler := dist (j1 state) p in
        updateMechanism (id m)
          (fun c => set_couplerLength newCoupler (set_rockerLength newRocker c)) s
      else if typeIs m piston
      then
        let newCoupler := dist (j1 state) p in
        updateMechanism (id m) (set_couplerLength newCoupler) s
      else if typeIs m yoke
      then
        let limit := crankLength m - 2 in
        let dY := y p - y (p1 state) in
        let safeY := Rmax (- limit) (Rmin limit dY) in
        updateMechanism (id m) (set_sliderOffset safeY) s
      else if typeIs m fivebar
      then
        let newCoupler := dist (j1 state) p in
        let newRod :=
          match aux state with Some a => dist a p | None => 100 end in
        updateMechanism (id m)
          (fun c => set_rodLength (Some newRod) (set_couplerLength newCoupler c)) s
      else s
  | Effector =>
      if negb (typeIs m crank)
      then
        if typeIs m fivebar
        then
          let newExtension := dist (j2 state) p in
          updateMechanism (id m) (set_couplerPointDist newExtension) s
        else
          let barAngle :=
            Js.atan2 (y (j2 state) - y (j1 state)) (x (j2 state) - x (j1 state)) in
          let mouseAngle :=
            Js.atan2 (y p - y (j1 state)) (x p - x (j1 state)) in
          let newDist := dist (j1 state) p in
          let newAngleDiff := toDeg (mouseAngle - barAngle) in
          updateMechanism (id m)
            (fun c => set_couplerPointAngle newAngleDiff
                        (set_couplerPointDist newDist c)) s
      else s
  end.

(** [userPath[userPath.length - 1]]. *)
Definition lastPoint (path : list Point) : option Point :=
  Js.index path (Z.of_nat (length path) - 1).

(** The drawing branch of [handleMouseMove]: with the shift key the point
    is first aligned with the last one, then it is appended when it is the
    first or more than 5 away from the last. *)
Definition draw (p : Point) (shift : bool) (path : list Point) : list Point :=
  let p :=
    if shift && (0 <? length path)%nat
    then
      match lastPoint path with
      | Some last =>
          let dx := Rabs (x p - x last) in
          let dy := Rabs (y p - y last) in
          if Js.gtb dx dy then mkPoint (x p) (y last) else mkPoint (x last) (y p)
      | None => p
      end
    else p in
  match lastPoint path with
  | None => path ++ [p]
  | Some last =>
      if Js.gtb (Js.hypot (x p - x last) (y p - y last)) 5
      then path ++ [p]
      else path
  end.

Definition handleMouseMove (s : State) (e : Pointer) : State :=
  if isPanning s
  then
    setViewOffset (mkPoint (x (viewOffset s) + movementX e)
                           (y (viewOffset s) + movementY e)) s
  else
    let p := getWorldPoint s (svgP e) in
    (* [None]: the handler returned, the mechanism being dragged is gone *)
    let dragged : option State :=
      match dragTarget s with
      | Some target =>
          if negb (isPlaying s)
          then
            match find (fun mech => App.sameIdent (id mech) (mechId target))
                       (mechanisms s) with
            | Some m => Some (drag m (handle target) p s)
            | None => None
            end
          else Some s
      | None => Some s
      end in
    match dragged with
    | None => s
    | Some s' =>
        if isDrawMode s && isDrawing s
        then setUserPath (draw p (shiftKey e) (userPath s)) s'
        else s'
    end.

End Canvas.

(** ** What the properties are stated with

    The notions of the specification, its properties as it states them, and
    the concrete inputs the proofs evaluate the program at. *)

Module Spec.

Import Kinematics Optimizer App.

(** The coordinate of the crank tip perpendicular to the track, in the frame
    whose origin is the anchor and whose first axis is the track direction at
    [groundAngle]: the scalar product of [J1 - P1] with the unit normal
    [(- sin t, cos t)] of the track. *)
Definition localJ1y (config : MechanismConfig) (crankAngleRad : R) : R :=
  let t := toRad (groundAngle config ?? 0) in
  let p := anchorOf config in
  let j := crankTip config crankAngleRad in
  (x j - x p) * (- sin t) + (y j - y p) * cos t.

(** Euclidean distance between two points. *)
Definition dist (a b : Point) : R :=
  sqrt ((x b - x a) ^ 2 + (y b - y a) ^ 2).

(** The three reasons for which [getCircleIntersection] answers [null]. *)
Definition rejected (d r0 r1 : R) : Prop :=
  d > r0 + r1 + 0.1 \/ d < Rabs (r0 - r1) - 0.1 \/ d = 0.

(** Presets of the application ([src/App.tsx]), used as concrete inputs. *)
Definition presetGeared : MechanismConfig :=
  mkConfig (Named "p_geared") (Some fivebar) true "#eab308" None None None
    60 120 180 40 0 100 0 (Some 1) (Some 1.5) None (Some 100) None None None.

Definition presetCrankRocker : MechanismConfig :=
  mkConfig (Named "p1") (Some fourbar) true "#3b82f6" None None None
    50 180 180 120 0 80 45 None None None None None None None.

Definition presetPiston : MechanismConfig :=
  mkConfig (Named "p2") (Some piston) true "#10b981" None None None
    60 0 160 0 40 0 0 None None None None None None None.

Definition presetYoke : MechanismConfig :=
  mkConfig (Named "p3") (Some yoke) true "#f59e0b" None None None
    50 0 0 0 0 50 0 None None None None None None None.

(** "Non-negative length fields": the four link lengths, and the rod length
    when the configuration has one. *)
Definition nonNegativeLengths (conf : MechanismConfig) : Prop :=
  0 <= crankLength conf /\ 0 <= groundLength conf
  /\ 0 <= couplerLength conf /\ 0 <= rockerLength conf
  /\ (forall rod, rodLength conf = Some rod -> 0 <= rod).

(** [couplerLength + rodLength >= 1.15 * (groundLength + crankLength +
    rockerLength)], read on the fields of the configuration. *)
Definition armsReach (conf : MechanismConfig) : Prop :=
  exists rod, rodLength conf = Some rod
    /\ couplerLength conf + rod
        >= 1.15 * (groundLength conf + crankLength conf + rockerLength conf).

(** The same with the rod length the program works with,
    [rodLength || 100]. *)
Definition effectiveArmsReach (conf : MechanismConfig) : Prop :=
  couplerLength conf + Js.orElse (rodLength conf) 100
  >= 1.15 * (groundLength conf + crankLength conf + rockerLength conf).

(** C1 as the specification states it, at one configuration. *)
Definition repairedArmsReach (conf : MechanismConfig) : Prop :=
  typeIs conf fivebar = true -> nonNegativeLengths conf ->
  armsReach (enforceFiveBarConstraints conf).

(** A five-bar whose rod length is [0]: ground link 100, coupler 50. *)
Definition zeroRodFiveBar : MechanismConfig :=
  mkConfig (Named "zero-rod") (Some fivebar) true "#eab308" None None None
    0 100 50 0 0 0 0 (Some 1) (Some 1) None (Some 0) None None None.



(** A world in which every draw is [0.9]: no mutation of [mutateConfig]
    fires. *)
Definition stillWorld : World := mkWorld (fun _ => 0.9) (fun _ => 0).

(** The last sentence of C3: called with no forced and no excluded type,
    the generator returns a crank for some draws. *)
Definition crankCanBeDrawn : Prop :=
  exists (targetPath : option (list Point)) (world : World),
    unitDraws world
    /\ type (fst (generateSmartConfig targetPath None None world)) = Some crank.

(** The draw [u] falls into the [k]-th of [n] equal parts of [[0, 1)]. *)
Definition inPart (k n : nat) (u : R) : Prop :=
  INR k / INR n <= u < (INR k + 1) / INR n.

(** The returned point lies on both circles up to the tolerance. *)
Definition onBothCircles (c0 : Point) (r0 : R) (c1 : Point) (r1 : R)
    (p : Point) : Prop :=
  Rabs (dist c0 p - r0) <= 0.1 /\ Rabs (dist c1 p - r1) <= 0.1.

(** Two circles whose centers are [d] apart touch in one point. *)
Definition tangent (d r0 r1 : R) : Prop :=
  d = r0 + r1 \/ d = Rabs (r0 - r1).

(** C8 as the specification states it, for one pair of circles. *)
Definition flipSymmetric (c0 : Point) (r0 : R) (c1 : Point) (r1 : R) : Prop :=
  0 <= r0 -> 0 <= r1 ->
  forall p q,
    getCircleIntersection c0 r0 c1 r1 false = Some p ->
    getCircleIntersection c0 r0 c1 r1 true = Some q ->
    onBothCircles c0 r0 c1 r1 p /\ onBothCircles c0 r0 c1 r1 q
    /\ (~ tangent (centerDistance c0 c1) r0 r1 -> p <> q).

(** C6 as the specification states it, for one configuration and angle. *)
Definition fourBarWithinTolerance (config : MechanismConfig)
    (crankAngleRad : R) : Prop :=
  type config = Some fourbar ->
  let s := calculateLinkage config crankAngleRad in
  isValid s = true ->
  Rabs (dist (j1 s) (j2 s) - couplerLength config) <= 0.1
  /\ Rabs (dist (p2 s) (j2 s) - rockerLength config) <= 0.1.

(** A four-bar whose rocker circle lies inside the coupler circle, within
    the tolerance: crank 1, ground link 2, coupler 10, rocker 8.95. *)
Definition nestedFourBar : MechanismConfig :=
  mkConfig (Named "nested") (Some fourbar) true "#3b82f6" None None None
    1 2 10 8.95 0 0 0 None None None None None None None.

(** The first half of C4 as the specification states it: the score is a
    number, and at least 0. *)
Definition fitnessNonNegative (config : MechanismConfig)
    (targetPath : list Point) : Prop :=
  Num.le (Fin 0) (evaluateFitness config targetPath).

(** The crank of the specification's first test: anchor at the origin,
    crank length 50. *)
Definition plainCrank : MechanismConfig :=
  mkConfig (Named "crank") (Some crank) true "#3b82f6" (Some 0) (Some 0) None
    50 0 0 0 0 0 0 None None None None None None None.

(** The valid fraction [evaluateFitness] reads. *)
Definition validFraction (config : MechanismConfig) : R :=
  percentValid
    (generateCurvePoints config
       (if typeIs config fivebar then 120%nat else 60%nat)).

(** The tracked global-best score at the head of the loop and after each
    of the first [k] generations, as far as the loop runs. *)
Fixpoint bestScores (env : Search) (k : nat) (st : LoopState)
  : M (list JsNumber) :=
  match k with
  | O => ret [globalBestScore st]
  | S k' =>
      r <- pass env st ;;
      match r with
      | Next st' =>
          rest <- bestScores env k' st' ;;
          ret (globalBestScore st :: rest)
      | _ => ret [globalBestScore st]
      end
  end.

(** Every element is at most the one before it. *)
Fixpoint nonIncreasing (l : list JsNumber) : Prop :=
  match l with
  | a :: (b :: _) as rest => Num.le b a /\ nonIncreasing rest
  | _ => True
  end.

(** A target path of three points. *)
Definition cornerPath : list Point :=
  [mkPoint 0 0; mkPoint 100 0; mkPoint 100 100].

(** The [a] of [getCircleIntersection]: the distance from the first
    center to the foot of the common chord, for centers [d] apart. *)
Definition chordFoot (d r0 r1 : R) : R :=
  (r0 * r0 - r1 * r1 + d * d) / (2 * d).

(** Its [h]: half the length of the common chord, clamped at 0. *)
Definition halfChord (d r0 r1 : R) : R :=
  sqrt (Rmax 0 (r0 * r0 - chordFoot d r0 r1 * chordFoot d r0 r1)).

(** A computation that leaves every later draw in [[0, 1)]. *)
Definition keepsUnit {A : Type} (m : M A) : Prop :=
  forall w, unitDraws w -> unitDraws (snd (m w)).

(** The two coordinates of a point in the frame of the track: the origin
    is the anchor, the first axis points along the track, at [groundAngle],
    and the second across it. *)
Definition alongTrack (config : MechanismConfig) (q : Point) : R :=
  let t := toRad (groundAngle config ?? 0) in
  let p := anchorOf config in
  (x q - x p) * cos t + (y q - y p) * sin t.

Definition acrossTrack (config : MechanismConfig) (q : Point) : R :=
  let t := toRad (groundAngle config ?? 0) in
  let p := anchorOf config in
  (x q - x p) * (- sin t) + (y q - y p) * cos t.

(** A quick-return: crank 50, pivot 120 along the ground line, arm 200. *)
Definition plainQuickReturn : MechanismConfig :=
  mkConfig (Named "quick-return") (Some quick_return) true "#3b82f6" None None None
    50 120 0 200 0 60 0 None None None None None None None.

(** Which side of the directed line from [a] to [b] the point [q] is on:
    positive on the left, negative on the right, [0] on the line. *)
Definition sideOf (a b q : Point) : R :=
  (x b - x a) * (y q - y a) - (y b - y a) * (x q - x a).

(** A point, and a state, moved by the vector [t]. *)
Definition moveBy (t q : Point) : Point := mkPoint (x q + x t) (y q + y t).

Definition moveState (t : Point) (s : JointState) : JointState :=
  mkJointState (moveBy t (p1 s)) (moveBy t (p2 s)) (moveBy t (j1 s))
    (moveBy t (j2 s)) (option_map (moveBy t) (aux s)) (moveBy t (effector s))
    (isValid s).

(** The configuration with its anchor moved by [t]. *)
Definition moveAnchor (t : Point) (c : MechanismConfig) : MechanismConfig :=
  set_anchorY (Some ((anchorY c ?? 0) + y t))
    (set_anchorX (Some ((anchorX c ?? 0) + x t)) c).

(** The states [generateCurvePoints] visits, in order: sample [i] is taken
    at the drive angle [(i / resolution) * 2 * PI]. *)
Definition sampledStates (config : MechanismConfig) (resolution : nat)
  : list JointState :=
  map (fun i => calculateLinkage config (INR i / INR resolution * 2 * PI))
      (seq 0 (resolution * curveLoops config)).

(** Run on draws that all lie in [[0, 1)], the computation answers with a
    value that satisfies [Q], and leaves such draws behind. *)
Definition yields {A : Type} (m : M A) (Q : A -> Prop) : Prop :=
  forall w, unitDraws w -> Q (fst (m w)) /\ unitDraws (snd (m w)).

(** What the generator promises about a candidate: no negative size; a
    piston whose coupler covers the offset of the track and the crank; a
    quick-return whose pivot is at least 10 beyond the crank circle; a
    five-bar whose gears turn at nearly the same rate, in the same or in
    opposite directions, and whose arms reach. *)
Definition soundCandidate (c : MechanismConfig) : Prop :=
  0 <= crankLength c /\ 0 <= groundLength c /\ 0 <= couplerLength c
  /\ 0 <= rockerLength c /\ 0 <= couplerPointDist c
  /\ (type c = Some piston ->
      Rabs (sliderOffset c) + crankLength c <= couplerLength c)
  /\ (type c = Some quick_return -> crankLength c + 10 <= groundLength c)
  /\ (type c = Some fivebar ->
      effectiveArmsReach c /\ speed1 c = Some 1
      /\ exists s2, speed2 c = Some s2 /\ 0.9 <= Rabs s2 <= 1.1).

(** Two configurations of the same mechanism: same variant, same identifier,
    same presentation. *)
Definition sameIdentity (c r : MechanismConfig) : Prop :=
  type r = type c /\ id r = id c /\ color r = color c /\ visible r = visible c.

(** The variants a mutation of [config] may end with: the one it had, or
    one of [MECHANISM_TYPES] that is neither the excluded nor the current
    one. *)
Definition variantAfterMutation (config : MechanismConfig)
    (excludedType : option MechanismType) (r : MechanismConfig) : Prop :=
  type r = type config
  \/ exists t, type r = Some t /\ In t MECHANISM_TYPES
       /\ excludedType <> Some t /\ type config <> Some t.

(** The scores of the list are in non-decreasing order. *)
Fixpoint sortedScores (l : list Scored) : Prop :=
  match l with
  | a :: (b :: _) as rest => Num.le (score a) (score b) /\ sortedScores rest
  | _ => True
  end.

(** Every score of the list is a finite number. *)
Definition finiteScores (l : list Scored) : Prop :=
  forall s, In s l -> exists v, score s = Fin v.

(** The tracked best score is the score of the tracked best mechanism. *)
Definition bestIsScored (env : Search) (st : LoopState) : Prop :=
  globalBestScore st = evaluateFitness (globalBest st) (userPath env).

(** The candidates the seeding scores: the placements of the seed
    mechanism or the selected mechanism and its 20 mutations, when there are
    any, followed by the 2000 fresh ones. *)
Definition seedCandidates (userPath : list Point) (options : OptimizationOptions)
    (seedMech : MechanismConfig) : M (list MechanismConfig) :=
  let excludedType := if excludeCurrent options then type seedMech else None in
  let isTypeMismatch :=
    match forcedType options with
    | Some t => negb (typeIs seedMech t)
    | None => false
    end in
  let fresh := generateSmartConfig (Some userPath) (forcedType options) excludedType in
  initialCandidates <-
    match seedMechanism options with
    | Some seed =>
        let bounds :=
          match getBounds userPath with
          | Some b => b
          | None => mkBounds 200 200 0 0
          end in
        let pathSize := Js.orNum (Rmax (w bounds) (h bounds)) 200 in
        pushMany 500 (placeSeed seed bounds pathSize) []
    | None =>
        if negb (excludeCurrent options) && negb isTypeMismatch
        then
          pushMany 20
            (mutateConfig seedMech 0.5
               (match forcedType options with Some _ => true | None => false end)
               None)
            [seedMech]
        else ret []
    end ;;
  pushMany PRE_COMPUTE_SIZE fresh initialCandidates.

(** A canvas at rest, zoom 1 and no offset, on which the handle [h] of the
    mechanism [m] has been grabbed; and a pointer at a point of the view
    box. *)
Definition grabbedCanvas (m : MechanismConfig) (h : Canvas.Handle) : Canvas.State :=
  Canvas.mkState [m] 0 false false [] (mkPoint 0 0) 1 false false
    (Some (Canvas.mkDragTarget (id m) h)).

Definition pointerAt (px py : R) : Canvas.Pointer :=
  Canvas.mkPointer (mkPoint px py) 0 0 false.

(** Consecutive points of the path are more than 5 apart. *)
Fixpoint spaced (path : list Point) : Prop :=
  match path with
  | a :: (b :: _) as rest => 5 < dist a b /\ spaced rest
  | _ => True
  end.

(** A mechanism that has a position and an orientation of its own: the
    fields [anchorX], [anchorY] and [groundAngle] are there.  The presets
    of the application have none of the three; dragging the anchor on the
    canvas sets the first two and dragging the ground pivot the third, and
    the generator and the placement of a seed set all three. *)
Definition placed (c : MechanismConfig) : bool :=
  match anchorX c, anchorY c, groundAngle c with
  | Some _, Some _, Some _ => true
  | _, _, _ => false
  end.

(** The mechanism [c] with its anchor at [(ax, ay)] and its ground line at
    [ga] degrees. *)
Definition placeAt (ax ay ga : R) (c : MechanismConfig) : MechanismConfig :=
  set_groundAngle (Some ga) (set_anchorY (Some ay) (set_anchorX (Some ax) c)).

(** Whatever the draws, the computation answers with a value that
    satisfies [Q]. *)
Definition always {A : Type} (m : M A) (Q : A -> Prop) : Prop :=
  forall w, Q (fst (m w)).

(** A world whose draws run through [0, 0.1, ..., 0.9] again and again: the
    mutations of [mutateConfig] fire on some draws and not on others. *)
Definition cyclingWorld : World :=
  mkWorld (fun n => INR (n mod 10) / 10) (fun _ => 0).

(** Every mechanism of the list has a position and an orientation. *)
Definition allPlaced (l : list MechanismConfig) : Prop :=
  Forall (fun c => placed c = true) l.

(** What the loop keeps once it holds: the population and the tracked best
    are placed. *)
Definition placedState (st : LoopState) : Prop :=
  allPlaced (population st) /\ placed (globalBest st) = true.

End Spec.

(** * Properties *)

Import Kinematics Optimizer App Spec.

(** ** Comparisons *)

Lemma ltb_true_iff (a b : R) : Js.ltb a b = true <-> a < b.
Proof. unfold Js.ltb; destruct (Rlt_dec a b); split; (congruence || tauto). Qed.

Lemma ltb_false_iff (a b : R) : Js.ltb a b = false <-> b <= a.
Proof.
  unfold Js.ltb; destruct (Rlt_dec a b); split; intros; try congruence; lra.
Qed.

Lemma gtb_true_iff (a b : R) : Js.gtb a b = true <-> a > b.
Proof. unfold Js.gtb; rewrite ltb_true_iff; lra. Qed.

Lemma gtb_false_iff (a b : R) : Js.gtb a b = false <-> a <= b.
Proof. unfold Js.gtb; rewrite ltb_false_iff; lra. Qed.

Lemma geb_true_iff (a b : R) : Js.geb a b = true <-> b <= a.
Proof. unfold Js.geb; destruct (Rle_dec b a); split; (congruence || tauto). Qed.

Lemma eqb_true_iff (a b : R) : Js.eqb a b = true <-> a = b.
Proof. unfold Js.eqb; destruct (Req_dec_T a b); split; (congruence || tauto). Qed.

Lemma eqb_false_iff (a b : R) : Js.eqb a b = false <-> a <> b.
Proof. unfold Js.eqb; destruct (Req_dec_T a b); split; (congruence || tauto). Qed.

Lemma orNum_zero (v : R) : Js.orNum v 0 = v.
Proof.
  unfold Js.orNum, Js.truthy, Js.eqb; destruct (Req_dec_T v 0); simpl; congruence.
Qed.

Lemma orNum_nonzero (v d : R) : v <> 0 -> Js.orNum v d = v.
Proof.
  intros Hv; unfold Js.orNum, Js.truthy, Js.eqb.
  destruct (Req_dec_T v 0); simpl; congruence.
Qed.

Lemma orNum_default (v d : R) : v = 0 -> Js.orNum v d = d.
Proof.
  intros Hv; unfold Js.orNum, Js.truthy, Js.eqb.
  destruct (Req_dec_T v 0); simpl; congruence.
Qed.

(** ** The circle intersection *)

Lemma centerDistance_nonneg (c0 c1 : Point) : 0 <= centerDistance c0 c1.
Proof. unfold centerDistance; apply sqrt_pos. Qed.

Lemma centerDistance_zero_iff (c0 c1 : Point) :
  centerDistance c0 c1 = 0 <-> c0 = c1.
Proof.
  unfold centerDistance; cbv zeta; split.
  - intros H.
    destruct c0 as [a0 b0], c1 as [a1 b1]; simpl in *.
    pose proof (Rle_0_sqr (a1 - a0)) as Ha.
    pose proof (Rle_0_sqr (b1 - b0)) as Hb. unfold Rsqr in Ha, Hb.
    apply sqrt_eq_0 in H; [ | lra ].
    assert (Ea : (a1 - a0) * (a1 - a0) = 0) by lra.
    assert (Eb : (b1 - b0) * (b1 - b0) = 0) by lra.
    apply Rmult_integral in Ea. apply Rmult_integral in Eb.
    f_equal; lra.
  - intros ->. replace (_ + _) with 0 by ring. apply sqrt_0.
Qed.

Lemma reject_test_iff (d r0 r1 : R) :
  Js.gtb d (r0 + r1 + EPSILON) || Js.ltb d (Rabs (r0 - r1) - EPSILON) || Js.eqb d 0
  = true <-> rejected d r0 r1.
Proof.
  unfold rejected, EPSILON.
  rewrite !orb_true_iff, gtb_true_iff, ltb_true_iff, eqb_true_iff. tauto.
Qed.

Lemma getCircleIntersection_none_rejected
    (c0 : Point) (r0 : R) (c1 : Point) (r1 : R) (flip : bool) :
  getCircleIntersection c0 r0 c1 r1 flip = None
  <-> rejected (centerDistance c0 c1) r0 r1.
Proof.
  unfold getCircleIntersection. fold (centerDistance c0 c1).
  rewrite <- reject_test_iff.
  destruct (Js.gtb (centerDistance c0 c1) (r0 + r1 + EPSILON)
            || Js.ltb (centerDistance c0 c1) (Rabs (r0 - r1) - EPSILON)
            || Js.eqb (centerDistance c0 c1) 0).
  - tauto.
  - destruct flip; split; intros; discriminate.
Qed.

(** C7. [getCircleIntersection] answers [null] exactly when the distance [d]
    between the centers exceeds [r0 + r1 + 0.1], or is below
    [|r0 - r1| - 0.1], or is [0] (the centers coincide); in every other case
    it answers a point, whatever [flip] is. *)
Theorem getCircleIntersection_none_iff
    (c0 : Point) (r0 : R) (c1 : Point) (r1 : R) (flip : bool) :
  let d := centerDistance c0 c1 in
  (getCircleIntersection c0 r0 c1 r1 flip = None
   <-> d > r0 + r1 + 0.1 \/ d < Rabs (r0 - r1) - 0.1 \/ d = 0)
  /\ (~ (d > r0 + r1 + 0.1 \/ d < Rabs (r0 - r1) - 0.1 \/ d = 0)
      -> exists p, getCircleIntersection c0 r0 c1 r1 flip = Some p)
  /\ (d = 0 <-> c0 = c1).
Proof.
  intros d.
  pose proof (getCircleIntersection_none_rejected c0 r0 c1 r1 flip) as Hcases.
  fold d in Hcases. unfold rejected in Hcases.
  split; [ exact Hcases | split ].
  - intros Hn.
    destruct (getCircleIntersection c0 r0 c1 r1 flip) as [p | ] eqn:E.
    + now exists p.
    + exfalso. apply Hn. now apply Hcases.
  - apply centerDistance_zero_iff.
Qed.

(** ** The linkage solver *)

(** C10. A crank, a Scotch yoke and a quick-return have no failure branch:
    at every drive angle, and for every value of every field,
    [calculateLinkage] reports [isValid = true]. *)
Theorem crank_yoke_quick_return_always_valid
    (config : MechanismConfig) (crankAngleRad : R) :
  type config = Some crank \/ type config = Some yoke
  \/ type config = Some quick_return ->
  isValid (calculateLinkage config crankAngleRad) = true.
Proof.
  intros [H | [H | H]]; unfold calculateLinkage; rewrite H; reflexivity.
Qed.

Lemma crank_yoke_quick_return_always_valid_witness :
  isValid (calculateLinkage presetYoke 0) = true.
Proof.
  apply (crank_yoke_quick_return_always_valid presetYoke 0).
  right; left; reflexivity.
Defined.

(** The local ordinate the piston branch computes is the one of the
    specification. *)
Lemma piston_local_ordinate (config : MechanismConfig) (crankAngleRad : R) :
  let t := toRad (groundAngle config ?? 0) in
  let p := anchorOf config in
  let j := crankTip config crankAngleRad in
  (x j - x p) * sin (- t) + (y j - y p) * cos (- t)
  = localJ1y config crankAngleRad.
Proof.
  intros t p j. unfold localJ1y. fold t p j.
  rewrite sin_neg, cos_neg. reflexivity.
Qed.

(** C5. For a piston, [isValid = false] exactly when
    [|sliderOffset - localJ1y| > couplerLength], [localJ1y] being the
    ordinate of the crank tip in the frame of the track. *)
Theorem piston_invalid_iff (config : MechanismConfig) (crankAngleRad : R) :
  type config = Some piston ->
  (isValid (calculateLinkage config crankAngleRad) = false
   <-> Rabs (sliderOffset config - localJ1y config crankAngleRad)
       > couplerLength config).
Proof.
  intros H. unfold calculateLinkage. rewrite H. cbv zeta.
  rewrite orNum_zero, piston_local_ordinate.
  destruct (Js.gtb (Rabs (sliderOffset config - localJ1y config crankAngleRad))
                   (couplerLength config)) eqn:E; simpl.
  - apply gtb_true_iff in E. tauto.
  - apply gtb_false_iff in E. split; [ discriminate | lra ].
Qed.

Lemma piston_invalid_iff_witness :
  isValid (calculateLinkage presetPiston 0) = false
  <-> Rabs (sliderOffset presetPiston - localJ1y presetPiston 0)
      > couplerLength presetPiston.
Proof.
  apply (piston_invalid_iff presetPiston 0). reflexivity.
Defined.

(** ** The constraint repairer *)

(** Reading the fields of an updated configuration. *)
Ltac fields :=
  cbn [id type visible color anchorX anchorY groundAngle crankLength
       groundLength couplerLength rockerLength sliderOffset couplerPointDist
       couplerPointAngle speed1 speed2 gearRatio rodLength phase
       showOutputGear outputGearRadius
       set_id set_type set_color set_anchorX set_anchorY set_groundAngle
       set_crankLength set_groundLength set_couplerLength set_rockerLength
       set_sliderOffset set_couplerPointDist set_couplerPointAngle set_speed1
       set_speed2 set_rodLength set_phase set_outputGearRadius
       typeIs MechanismType_eqb negb option_map Js.orElse Js.present].

(** Settling a comparison whose two sides are known numbers. *)
Ltac settle :=
  match goal with
  | |- context [Js.ltb ?a ?b] =>
      first [ rewrite (proj2 (ltb_true_iff a b)) by lra
            | rewrite (proj2 (ltb_false_iff a b)) by lra ]
  | |- context [Js.gtb ?a ?b] =>
      first [ rewrite (proj2 (gtb_true_iff a b)) by lra
            | rewrite (proj2 (gtb_false_iff a b)) by lra ]
  | |- context [Rabs ?a] =>
      first [ rewrite (Rabs_pos_eq a) by lra
            | rewrite (Rabs_left1 a) by lra ]
  | |- context [Rmax ?a ?b] =>
      first [ rewrite (Rmax_left a b) by lra
            | rewrite (Rmax_right a b) by lra ]
  | |- context [Js.orNum ?a ?b] =>
      first [ rewrite (orNum_nonzero a b) by lra
            | rewrite (orNum_default a b) by lra ]
  end.

Lemma enforce_zeroRod : enforceFiveBarConstraints zeroRodFiveBar = zeroRodFiveBar.
Proof.
  unfold enforceFiveBarConstraints, zeroRodFiveBar. fields.
  repeat (settle; fields). reflexivity.
Qed.

(** C1 as stated fails at a five-bar whose rod length is [0]: the repairer
    counts the rod as [100], finds nothing to repair and returns the
    configuration unchanged, with [50 + 0 < 1.15 * 100]. *)
Lemma repairedArmsReach_fails_at_zero_rod : ~ repairedArmsReach zeroRodFiveBar.
Proof.
  intros H.
  destruct H as (rod & Hrod & Hsum).
  - reflexivity.
  - unfold nonNegativeLengths, zeroRodFiveBar; fields.
    repeat split; try lra. intros rod E; injection E as <-; lra.
  - rewrite enforce_zeroRod in Hrod, Hsum.
    unfold zeroRodFiveBar in Hrod, Hsum; cbn in Hrod, Hsum.
    injection Hrod as <-. lra.
Qed.

(** The repairer changes the coupler and the rod only. *)
Lemma enforce_preserves (conf : MechanismConfig) :
  let r := enforceFiveBarConstraints conf in
  type r = type conf /\ groundLength r = groundLength conf
  /\ crankLength r = crankLength conf /\ rockerLength r = rockerLength conf
  /\ couplerPointDist r = couplerPointDist conf.
Proof.
  unfold enforceFiveBarConstraints.
  destruct (negb (typeIs conf fivebar)); [ tauto | ].
  cbv zeta.
  repeat match goal with
         | |- context [if ?b then _ else _] => destruct b
         end; fields; tauto.
Qed.

(** The rod length the program works with is non-negative when the field
    is. *)
Lemma orElse_nonneg (rod : option R) :
  (forall u, rod = Some u -> 0 <= u) -> 0 <= Js.orElse rod 100.
Proof.
  intros H. destruct rod as [u | ]; simpl; [ | lra ].
  specialize (H u eq_refl). unfold Js.orNum.
  destruct (Js.truthy u); lra.
Qed.

(** C1, amended.  For a five-bar with non-negative lengths the repaired
    configuration satisfies the margin for the rod length the program works
    with, [rodLength || 100]; hence for the field [rodLength] itself
    whenever it is present and not [0]. *)
Theorem enforceFiveBarConstraints_arms_reach (conf : MechanismConfig) :
  typeIs conf fivebar = true -> nonNegativeLengths conf ->
  let r := enforceFiveBarConstraints conf in
  effectiveArmsReach r
  /\ (forall rod, rodLength r = Some rod -> rod <> 0 -> armsReach r).
Proof.
  intros Ht (Hc & Hg & Hk & Hr & Hrod) r.
  assert (Heff : effectiveArmsReach r).
  { subst r. unfold effectiveArmsReach, enforceFiveBarConstraints.
    rewrite Ht. cbn [negb]. cbv zeta.
    apply orElse_nonneg in Hrod.
    destruct conf as [i t v c ax ay ga cl gl kl rl so cd ca s1 s2 gr rod ph sg og].
    cbn [crankLength groundLength couplerLength rockerLength rodLength]
      in Hc, Hg, Hk, Hr, Hrod.
    clear Ht. cbn [crankLength groundLength couplerLength rockerLength rodLength].
    set (rho := Js.orElse rod 100) in *.
    rewrite (Rabs_pos_eq gl), (Rabs_pos_eq cl), (Rabs_pos_eq rl),
      (Rabs_pos_eq kl), (Rabs_pos_eq rho) by assumption.
    destruct (Js.ltb (kl + rho) ((gl + cl + rl) * 1.15)) eqn:E1.
    - apply ltb_true_iff in E1.
      cbn [crankLength groundLength couplerLength rockerLength rodLength
           set_couplerLength set_rodLength Js.orElse].
      fold rho.
      rewrite !(orNum_nonzero (rho + ((gl + cl + rl) * 1.15 - (kl + rho)) / 2))
        by lra.
      match goal with |- context [Js.gtb ?a ?b] => destruct (Js.gtb a b) end.
      + cbn [crankLength groundLength couplerLength rockerLength rodLength
             set_couplerLength set_rodLength Js.orElse].
        match goal with
        | |- context [Js.orNum ?a 100] =>
            rewrite (orNum_nonzero a) by lra
        end.
        lra.
      + cbn [crankLength groundLength couplerLength rockerLength rodLength
             set_couplerLength set_rodLength Js.orElse].
        rewrite orNum_nonzero by lra. lra.
    - apply ltb_false_iff in E1. fold rho.
      match goal with |- context [Js.gtb ?a ?b] => destruct (Js.gtb a b) end.
      + cbn [crankLength groundLength couplerLength rockerLength rodLength
             set_couplerLength set_rodLength Js.orElse].
        fold rho.
        assert (Hpos : 0 < (rho + (kl + rho) / 2) / 2 \/ rho = 0 /\ kl = 0)
          by (destruct (Req_dec_T rho 0); [ | left; lra ];
              destruct (Req_dec_T kl 0); [ right; tauto | left; lra ]).
        destruct Hpos as [Hpos | [-> ->]].
        * rewrite orNum_nonzero by lra. lra.
        * replace ((0 + (0 + 0) / 2) / 2) with 0 by lra.
          rewrite orNum_default by reflexivity. lra.
      + cbn [crankLength groundLength couplerLength rockerLength rodLength].
        fold rho. lra. }
  split; [ exact Heff | ].
  intros rod E Hnz. exists rod. split; [ exact E | ].
  unfold effectiveArmsReach in Heff. rewrite E in Heff. simpl in Heff.
  rewrite orNum_nonzero in Heff by exact Hnz. exact Heff.
Qed.

Lemma enforceFiveBarConstraints_arms_reach_witness :
  let r := enforceFiveBarConstraints presetGeared in
  effectiveArmsReach r
  /\ (forall rod, rodLength r = Some rod -> rod <> 0 -> armsReach r).
Proof.
  apply (enforceFiveBarConstraints_arms_reach presetGeared).
  - reflexivity.
  - unfold nonNegativeLengths, presetGeared; fields.
    repeat split; try lra. intros rod E; injection E as <-; lra.
Defined.

(** ** The mutation operator *)

Lemma bind_eval {A B : Type} (m : M A) (k : A -> M B) (w w' : World) (a : A) :
  m w = (a, w') -> bind m k w = k a w'.
Proof. intros E; unfold bind; rewrite E; reflexivity. Qed.

(** A property of the result that holds whatever the first part of a
    computation answers. *)
Lemma result_bind {A B : Type} (Q : B -> Prop) (m : M A) (k : A -> M B)
    (w : World) :
  (forall a w', Q (fst (k a w'))) -> Q (fst (bind m k w)).
Proof. intros H; unfold bind; destruct (m w) as [a w']; apply H. Qed.








(** ** The candidate generator *)

Lemma pickType_eval (types : list MechanismType) (world : World) :
  pickType types world
  = (Js.index types (Js.floor (randoms world 0%nat * INR (length types))),
     mkWorld (fun n => randoms world (S n)) (clock world)).
Proof. reflexivity. Qed.

(** The variant of the generated configuration is the one picked by the
    first draw: no later statement writes the [type] field. *)
Lemma generateSmartConfig_type_is_pick (targetPath : option (list Point))
    (forcedType excludedType : option MechanismType) (world : World) :
  type (fst (generateSmartConfig targetPath forcedType excludedType world))
  = Js.index (availableTypes forcedType excludedType)
      (Js.floor (randoms world 0%nat
                 * INR (length (availableTypes forcedType excludedType)))).
Proof.
  unfold generateSmartConfig.
  set (start := match targetPath with
                | Some path =>
                    match getBounds path with
                    | Some bounds =>
                        (cx bounds, cy bounds, Rmax (w bounds) (h bounds))
                    | None => (0, 0, 100)
                    end
                | None => (0, 0, 100)
                end).
  destruct start as [[cx0 cy0] scale]. lazy head zeta beta iota.
  rewrite (bind_eval _ _ _ _ _ (pickType_eval _ _)).
  set (ty := Js.index _ _). generalize (mkWorld (fun n => randoms world (S n)) (clock world)).
  intros world1.
  do 12 (apply (result_bind (fun c => type c = ty)); intros ? ?).
  destruct ty as [[ | | | | | ] | ];
    repeat (apply (result_bind (fun c => type c = _)); intros ? ?);
    cbn [ret fst]; try reflexivity.
  match goal with
  | |- type (enforceFiveBarConstraints ?c) = _ =>
      rewrite (proj1 (enforce_preserves c))
  end.
  reflexivity.
Qed.

Lemma index_In {A : Type} (l : list A) (i : Z) (a : A) :
  Js.index l i = Some a -> In a l.
Proof.
  unfold Js.index. destruct (i <? 0)%Z; [ discriminate | ].
  apply nth_error_In.
Qed.

(** C3 as stated fails: [MECHANISM_TYPES] holds five variants, the crank is
    not one of them, so no draw makes the generator return a crank. *)
Lemma crank_is_never_drawn : ~ crankCanBeDrawn.
Proof.
  intros (targetPath & world & _ & H).
  rewrite generateSmartConfig_type_is_pick in H.
  apply index_In in H. simpl in H.
  repeat (destruct H as [H | H]; [ discriminate | ]). exact H.
Qed.

Lemma floor_in_part (k n : nat) (u : R) :
  (0 < n)%nat -> inPart k n u -> Js.floor (u * INR n) = Z.of_nat k.
Proof.
  intros Hn [Hlo Hhi]. unfold Js.floor. apply Zfloor_eq.
  rewrite <- INR_IZR_INZ.
  assert (Hpos : 0 < INR n) by (apply lt_0_INR; exact Hn).
  split.
  - apply (Rmult_le_compat_r (INR n)) in Hlo; [ | lra ].
    unfold Rdiv in Hlo. rewrite Rmult_assoc, Rinv_l, Rmult_1_r in Hlo by lra.
    exact Hlo.
  - apply (Rmult_lt_compat_r (INR n)) in Hhi; [ | lra ].
    unfold Rdiv in Hhi. rewrite Rmult_assoc, Rinv_l, Rmult_1_r in Hhi by lra.
    exact Hhi.
Qed.

Lemma index_of_nat {A : Type} (l : list A) (k : nat) :
  Js.index l (Z.of_nat k) = nth_error l k.
Proof.
  unfold Js.index.
  destruct (Z.of_nat k <? 0)%Z eqn:E; [ apply Z.ltb_lt in E; lia | ].
  now rewrite Nat2Z.id.
Qed.

(** Every draw of [[0, 1)] falls into one of the [n] parts. *)
Lemma part_exists (n : nat) (u : R) :
  (0 < n)%nat -> 0 <= u < 1 -> exists k, (k < n)%nat /\ inPart k n u.
Proof.
  intros Hn [Hlo Hhi].
  assert (Hpos : 0 < INR n) by (apply lt_0_INR; exact Hn).
  pose proof (Zfloor_bound (u * INR n)) as [Hf1 Hf2].
  assert (H0 : (0 <= Zfloor (u * INR n))%Z).
  { apply Zfloor_lub. simpl. nra. }
  assert (H1 : (Zfloor (u * INR n) < Z.of_nat n)%Z).
  { apply lt_IZR. rewrite <- INR_IZR_INZ. nra. }
  exists (Z.to_nat (Zfloor (u * INR n))). split; [ lia | ].
  unfold inPart. rewrite INR_IZR_INZ, Z2Nat.id by exact H0.
  split.
  - apply (Rmult_le_reg_r (INR n)); [ exact Hpos | ].
    unfold Rdiv. rewrite Rmult_assoc, Rinv_l, Rmult_1_r by lra. exact Hf1.
  - apply (Rmult_lt_reg_r (INR n)); [ exact Hpos | ].
    unfold Rdiv. rewrite Rmult_assoc, Rinv_l, Rmult_1_r by lra. exact Hf2.
Qed.

Lemma availableTypes_nonempty (forcedType excludedType : option MechanismType) :
  (0 < length (availableTypes forcedType excludedType))%nat.
Proof.
  destruct forcedType as [t | ]; [ simpl; lia | ].
  destruct excludedType as [[ | | | | | ] | ]; simpl; lia.
Qed.

Lemma availableTypes_NoDup (forcedType excludedType : option MechanismType) :
  NoDup (availableTypes forcedType excludedType).
Proof.
  assert (H5 : NoDup MECHANISM_TYPES).
  { unfold MECHANISM_TYPES.
    repeat (constructor; [ simpl; intuition discriminate | ]). constructor. }
  unfold availableTypes. destruct forcedType as [t | ].
  - constructor; [ simpl; tauto | constructor ].
  - destruct excludedType; [ apply NoDup_filter | ]; exact H5.
Qed.

Lemma differsFrom_true_iff (o : option MechanismType) (t : MechanismType) :
  differsFrom o t = true <-> o <> Some t.
Proof.
  destruct o as [u | ]; simpl; [ | split; [ discriminate | reflexivity ] ].
  destruct t, u; simpl; split; intros H; try reflexivity; try discriminate;
    try congruence.
Qed.

(** C3, amended.  With every draw in [[0, 1)], the variant of the generated
    configuration is the [k]-th allowed variant exactly for the draws of the
    [k]-th of the [n] equal parts of [[0, 1)], [n] being the number of
    allowed variants, which are pairwise distinct.  The allowed variants are
    the forced one alone when a type is forced; otherwise the five of
    [MECHANISM_TYPES] (4bar, piston, yoke, quick-return, 5bar: not the
    crank) but the excluded one. *)
Theorem generateSmartConfig_variant (targetPath : option (list Point))
    (forcedType excludedType : option MechanismType) (world : World) :
  unitDraws world ->
  let allowed := availableTypes forcedType excludedType in
  let n := length allowed in
  let u := randoms world 0%nat in
  let ty := type (fst (generateSmartConfig targetPath forcedType excludedType world)) in
  (forall k, (k < n)%nat -> inPart k n u -> ty = nth_error allowed k)
  /\ (exists k t, (k < n)%nat /\ inPart k n u /\ ty = Some t /\ In t allowed)
  /\ NoDup allowed
  /\ (forall t, forcedType = Some t -> allowed = [t])
  /\ (forcedType = None ->
      forall t, In t allowed
                <-> In t [fourbar; piston; yoke; quick_return; fivebar]
                    /\ excludedType <> Some t).
Proof.
  intros Hw allowed n u ty.
  pose proof (availableTypes_nonempty forcedType excludedType) as Hn.
  fold allowed n in Hn.
  assert (Hpick : forall k, (k < n)%nat -> inPart k n u -> ty = nth_error allowed k).
  { intros k Hk Hp. unfold ty. rewrite generateSmartConfig_type_is_pick.
    fold allowed n u. rewrite (floor_in_part k n u Hn Hp).
    apply index_of_nat. }
  split; [ exact Hpick | ]. split; [ | split; [ | split ] ].
  - destruct (part_exists n u Hn (Hw 0%nat)) as (k & Hk & Hp).
    destruct (nth_error allowed k) as [t | ] eqn:E.
    + exists k, t. repeat split; try assumption; try apply Hp.
      * rewrite (Hpick k Hk Hp). exact E.
      * eapply nth_error_In; exact E.
    + apply nth_error_None in E. fold n in E. lia.
  - apply availableTypes_NoDup.
  - intros t ->. reflexivity.
  - intros -> t. unfold allowed, availableTypes.
    destruct excludedType as [e | ].
    + rewrite filter_In, differsFrom_true_iff. reflexivity.
    + split; [ intros H; split; [ exact H | discriminate ] | tauto ].
Qed.

Lemma stillWorld_unitDraws : unitDraws stillWorld.
Proof. intros n; simpl; lra. Qed.

Lemma cyclingWorld_unitDraws : unitDraws cyclingWorld.
Proof.
  intros n. unfold cyclingWorld. cbn [randoms].
  pose proof (pos_INR (n mod 10)) as H0.
  assert (H1 : INR (n mod 10) < INR 10)
    by (apply lt_INR, Nat.mod_upper_bound; discriminate).
  replace (INR 10) with 10 in H1 by (simpl; lra). lra.
Qed.

Lemma generateSmartConfig_variant_witness :
  let allowed := availableTypes None (Some fourbar) in
  let n := length allowed in
  let u := randoms stillWorld 0%nat in
  let ty := type (fst (generateSmartConfig None None (Some fourbar) stillWorld)) in
  (forall k, (k < n)%nat -> inPart k n u -> ty = nth_error allowed k)
  /\ (exists k t, (k < n)%nat /\ inPart k n u /\ ty = Some t /\ In t allowed)
  /\ NoDup allowed
  /\ (forall t, @None MechanismType = Some t -> allowed = [t])
  /\ (@None MechanismType = None ->
      forall t, In t allowed
                <-> In t [fourbar; piston; yoke; quick_return; fivebar]
                    /\ Some fourbar <> Some t).
Proof.
  apply (generateSmartConfig_variant None None (Some fourbar) stillWorld).
  intros n; simpl; lra.
Defined.

(** ** Geometry of the circle intersection *)

Section Intersection.

Variables (c0 c1 : Point) (r0 r1 : R).

Local Abbreviation dx := (x c1 - x c0).
Local Abbreviation dy := (y c1 - y c0).
Local Abbreviation d := (centerDistance c0 c1).
Local Abbreviation a := (chordFoot (centerDistance c0 c1) r0 r1).
Local Abbreviation h := (halfChord (centerDistance c0 c1) r0 r1).

Lemma centerDistance_sqr : d * d = dx * dx + dy * dy.
Proof.
  unfold centerDistance. cbv zeta. apply sqrt_sqrt.
  pose proof (Rle_0_sqr dx) as Hx. pose proof (Rle_0_sqr dy) as Hy.
  unfold Rsqr in Hx, Hy. lra.
Qed.

Lemma halfChord_sqr : h * h = Rmax 0 (r0 * r0 - a * a).
Proof. unfold halfChord. apply sqrt_sqrt. apply Rmax_l. Qed.

(** The point returned, when one is. *)
Lemma getCircleIntersection_some (flip : bool) (p : Point) :
  getCircleIntersection c0 r0 c1 r1 flip = Some p ->
  ~ rejected d r0 r1
  /\ p = if flip
         then mkPoint (x c0 + (dx * a) / d - (h * dy) / d)
                      (y c0 + (dy * a) / d + (h * dx) / d)
         else mkPoint (x c0 + (dx * a) / d + (h * dy) / d)
                      (y c0 + (dy * a) / d - (h * dx) / d).
Proof.
  change (getCircleIntersection c0 r0 c1 r1 flip)
    with (if Js.gtb d (r0 + r1 + EPSILON)
             || Js.ltb d (Rabs (r0 - r1) - EPSILON) || Js.eqb d 0
          then None
          else if flip
               then Some (mkPoint (x c0 + (dx * a) / d - (h * dy) / d)
                                  (y c0 + (dy * a) / d + (h * dx) / d))
               else Some (mkPoint (x c0 + (dx * a) / d + (h * dy) / d)
                                  (y c0 + (dy * a) / d - (h * dx) / d))).
  destruct (Js.gtb d (r0 + r1 + EPSILON)
            || Js.ltb d (Rabs (r0 - r1) - EPSILON) || Js.eqb d 0) eqn:E;
    [ discriminate | ].
  intros H. split.
  - rewrite <- reject_test_iff. rewrite E. discriminate.
  - destruct flip; injection H as <-; reflexivity.
Qed.

(** Squared distances from the returned point to the two centers. *)
Lemma intersection_offsets (flip : bool) (p : Point) :
  getCircleIntersection c0 r0 c1 r1 flip = Some p ->
  (x p - x c0) ^ 2 + (y p - y c0) ^ 2 = a * a + h * h
  /\ (x p - x c1) ^ 2 + (y p - y c1) ^ 2 = (d - a) * (d - a) + h * h.
Proof.
  intros H. apply getCircleIntersection_some in H as [Hrej ->].
  assert (Hd : d <> 0) by (intros E; apply Hrej; right; right; exact E).
  pose proof centerDistance_sqr as Hsq.
  generalize dependent (centerDistance c0 c1). intros dist0 Hrej Hd Hsq.
  generalize (chordFoot dist0 r0 r1) (halfChord dist0 r0 r1). intros foot half.
  set (ux := dx / dist0). set (uy := dy / dist0).
  assert (Hx : dx = dist0 * ux) by (unfold ux; field; exact Hd).
  assert (Hy : dy = dist0 * uy) by (unfold uy; field; exact Hd).
  assert (Hu : ux * ux + uy * uy = 1).
  { unfold ux, uy.
    replace (dx / dist0 * (dx / dist0) + dy / dist0 * (dy / dist0))
      with ((dx * dx + dy * dy) / (dist0 * dist0)) by (field; exact Hd).
    rewrite <- Hsq. field. exact Hd. }
  assert (Hx1 : x c1 = x c0 + dist0 * ux) by lra.
  assert (Hy1 : y c1 = y c0 + dist0 * uy) by lra.
  replace (dx * foot / dist0) with (foot * ux) by (unfold ux; field; exact Hd).
  replace (dy * foot / dist0) with (foot * uy) by (unfold uy; field; exact Hd).
  replace (half * dy / dist0) with (half * uy) by (unfold uy; field; exact Hd).
  replace (half * dx / dist0) with (half * ux) by (unfold ux; field; exact Hd).
  rewrite Hx1, Hy1.
  destruct flip; cbn [x y]; split.
  - transitivity ((foot * foot + half * half) * (ux * ux + uy * uy)); [ ring | ].
    rewrite Hu; ring.
  - transitivity (((dist0 - foot) * (dist0 - foot) + half * half)
                  * (ux * ux + uy * uy)); [ ring | ].
    rewrite Hu; ring.
  - transitivity ((foot * foot + half * half) * (ux * ux + uy * uy)); [ ring | ].
    rewrite Hu; ring.
  - transitivity (((dist0 - foot) * (dist0 - foot) + half * half)
                  * (ux * ux + uy * uy)); [ ring | ].
    rewrite Hu; ring.
Qed.

(** Distances from the returned point to the two centers. *)
Lemma intersection_distances (flip : bool) (p : Point) :
  getCircleIntersection c0 r0 c1 r1 flip = Some p ->
  dist c0 p = sqrt (a * a + Rmax 0 (r0 * r0 - a * a))
  /\ dist c1 p = sqrt ((d - a) * (d - a) + Rmax 0 (r0 * r0 - a * a)).
Proof.
  intros H. apply intersection_offsets in H as [H0 H1].
  unfold dist. rewrite H0, H1, halfChord_sqr. split; reflexivity.
Qed.

(** The center distance of a pair that is not rejected. *)
Lemma accepted_bounds (flip : bool) (p : Point) :
  getCircleIntersection c0 r0 c1 r1 flip = Some p ->
  0 < d /\ d <= r0 + r1 + 0.1 /\ Rabs (r0 - r1) - 0.1 <= d.
Proof.
  intros H. apply getCircleIntersection_some in H as [Hrej _].
  pose proof (centerDistance_nonneg c0 c1) as Hpos.
  unfold rejected in Hrej.
  repeat split.
  - destruct (Req_dec_T d 0) as [E | E]; [ tauto | lra ].
  - destruct (Rle_dec d (r0 + r1 + 0.1)); [ assumption | exfalso ].
    apply Hrej; left; lra.
  - destruct (Rle_dec (Rabs (r0 - r1) - 0.1) d); [ assumption | exfalso ].
    apply Hrej; right; left; lra.
Qed.

(** The two results coincide exactly when the half-chord [h] vanishes. *)
Lemma results_differ_iff (p q : Point) :
  getCircleIntersection c0 r0 c1 r1 false = Some p ->
  getCircleIntersection c0 r0 c1 r1 true = Some q ->
  p <> q <-> 0 < r0 * r0 - a * a.
Proof.
  intros Hp Hq.
  destruct (accepted_bounds _ _ Hp) as (Hd & _ & _).
  apply getCircleIntersection_some in Hp as [_ ->].
  apply getCircleIntersection_some in Hq as [_ ->].
  pose proof centerDistance_sqr as Hsq.
  assert (Hh : 0 <= h) by (unfold halfChord; apply sqrt_pos).
  split.
  - intros Hne.
    destruct (Rlt_dec 0 (r0 * r0 - a * a)) as [ | Hn ]; [ assumption | exfalso ].
    apply Hne.
    assert (E : h = 0).
    { unfold halfChord. rewrite Rmax_left by lra. apply sqrt_0. }
    rewrite E. f_equal; unfold Rdiv; ring.
  - intros Hpos Heq.
    assert (E : 0 < h)
      by (unfold halfChord; apply sqrt_lt_R0; rewrite Rmax_right; lra).
    injection Heq as Ex Ey.
    assert (Ey0 : h * dy / d = 0) by lra.
    assert (Ex0 : h * dx / d = 0) by lra.
    assert (Hdy : dy = 0).
    { apply (Rmult_eq_reg_l (h / d)); [ | apply Rgt_not_eq, Rdiv_lt_0_compat; lra ].
      rewrite Rmult_0_r. rewrite <- Ey0. field. lra. }
    assert (Hdx : dx = 0).
    { apply (Rmult_eq_reg_l (h / d)); [ | apply Rgt_not_eq, Rdiv_lt_0_compat; lra ].
      rewrite Rmult_0_r. rewrite <- Ex0. field. lra. }
    rewrite Hdx, Hdy in Hsq.
    assert (d * d = 0) by lra. nra.
Qed.

End Intersection.

(** What the tolerance costs.  When the centers are at least [|r0 - r1|]
    apart and at most [r0 + r1 + 0.1], the point built from [a] and [h]
    lies within 0.1 of both circles. *)
Lemma tolerance_bounds (d r0 r1 : R) :
  0 < d -> d <= r0 + r1 + 0.1 -> Rabs (r0 - r1) <= d ->
  let a := chordFoot d r0 r1 in
  let h2 := Rmax 0 (r0 * r0 - a * a) in
  Rabs (sqrt (a * a + h2) - r0) <= 0.1
  /\ Rabs (sqrt ((d - a) * (d - a) + h2) - r1) <= 0.1.
Proof.
  intros Hd He Habs a h2. unfold chordFoot in a.
  assert (Hp : 0 <= d - r0 + r1)
    by (revert Habs; unfold Rabs; destruct (Rcase_abs (r0 - r1)); lra).
  assert (Hq : 0 <= d + r0 - r1)
    by (revert Habs; unfold Rabs; destruct (Rcase_abs (r0 - r1)); lra).
  assert (HA : 2 * d * (a - r0) = (d - r0 - r1) * (d - r0 + r1))
    by (unfold a; field; lra).
  assert (HB : 2 * d * (a + r0) = (d + r0 - r1) * (d + r0 + r1))
    by (unfold a; field; lra).
  assert (HC : 2 * d * (d - a - r1) = (d - r0 - r1) * (d + r0 - r1))
    by (unfold a; field; lra).
  assert (HD : 2 * d * (d - a + r1) = (d - r0 + r1) * (d + r0 + r1))
    by (unfold a; field; lra).
  assert (H2 : 2 * d * a = r0 * r0 - r1 * r1 + d * d)
    by (unfold a; field; lra).
  destruct (Rle_dec 0 (r0 * r0 - a * a)) as [Hh | Hh].
  - unfold h2. rewrite Rmax_right by exact Hh.
    replace (a * a + (r0 * r0 - a * a)) with (Rsqr r0) by (unfold Rsqr; ring).
    replace ((d - a) * (d - a) + (r0 * r0 - a * a)) with (Rsqr r1)
      by (unfold Rsqr; replace ((d - a) * (d - a) + (r0 * r0 - a * a))
            with (d * d - 2 * d * a + r0 * r0) by ring; rewrite H2; ring).
    rewrite !sqrt_Rsqr_abs.
    split; unfold Rabs;
      repeat match goal with
             | |- context [Rcase_abs ?v] => destruct (Rcase_abs v)
             end; lra.
  - unfold h2. rewrite Rmax_left by lra. rewrite !Rplus_0_r.
    fold (Rsqr a). fold (Rsqr (d - a)). rewrite !sqrt_Rsqr_abs.
    assert (Hprod : 0 < (a - r0) * (a + r0)) by (ring_simplify; lra).
    set (e := d - r0 - r1) in *. set (p := d - r0 + r1) in *.
    set (q := d + r0 - r1) in *. set (s := d + r0 + r1) in *.
    assert (Hpq : p + q = 2 * d) by (unfold p, q; ring).
    assert (He0 : 0 < e).
    { destruct (Rlt_dec 0 e) as [ | Hn ]; [ assumption | exfalso ].
      assert (Hs : 0 < s) by (unfold s, e in *; lra).
      assert (Hqs : 0 <= q * s) by (apply Rmult_le_pos; lra).
      assert (Hep : e * p <= 0) by nra.
      assert (H1 : a - r0 <= 0) by nra.
      assert (H3 : 0 <= a + r0) by nra.
      nra. }
    assert (Hep : 0 <= e * p) by (apply Rmult_le_pos; lra).
    assert (Hlo : 0 <= a - r0) by nra.
    assert (Hlo' : 0 < a - r0) by nra.
    assert (Hlo2 : 0 < a + r0) by nra.
    assert (Hup : a - r0 <= e) by nra.
    assert (Hs : 0 < s) by nra.
    assert (Heq : 0 <= e * q) by (apply Rmult_le_pos; lra).
    assert (Hps : 0 <= p * s) by (apply Rmult_le_pos; lra).
    assert (Hlo3 : 0 <= d - a - r1) by nra.
    assert (Hup3 : d - a - r1 <= e) by nra.
    assert (Hlo4 : 0 <= d - a + r1) by nra.
    assert (He1 : e <= 0.1) by (unfold e; lra).
    split; unfold Rabs;
      repeat match goal with
             | |- context [Rcase_abs ?v] => destruct (Rcase_abs v)
             end; lra.
Qed.

(** When the circles meet, the point lies on both. *)
Lemma exact_when_meeting (d r0 r1 : R) :
  0 < d -> Rabs (r0 - r1) <= d -> d <= r0 + r1 ->
  let a := chordFoot d r0 r1 in
  let h2 := Rmax 0 (r0 * r0 - a * a) in
  sqrt (a * a + h2) = r0 /\ sqrt ((d - a) * (d - a) + h2) = r1.
Proof.
  intros Hd Habs He a h2. unfold chordFoot in a.
  assert (Hp : 0 <= d - r0 + r1)
    by (revert Habs; unfold Rabs; destruct (Rcase_abs (r0 - r1)); lra).
  assert (Hq : 0 <= d + r0 - r1)
    by (revert Habs; unfold Rabs; destruct (Rcase_abs (r0 - r1)); lra).
  assert (HA : 2 * d * (r0 - a) = (r0 + r1 - d) * (d - r0 + r1))
    by (unfold a; field; lra).
  assert (HB : 2 * d * (a + r0) = (d + r0 - r1) * (d + r0 + r1))
    by (unfold a; field; lra).
  assert (H2 : 2 * d * a = r0 * r0 - r1 * r1 + d * d)
    by (unfold a; field; lra).
  assert (H1 : 0 <= (r0 + r1 - d) * (d - r0 + r1)) by (apply Rmult_le_pos; lra).
  assert (H3 : 0 <= (d + r0 - r1) * (d + r0 + r1)) by (apply Rmult_le_pos; lra).
  assert (Hm : 0 <= r0 - a) by nra.
  assert (Hn : 0 <= a + r0) by nra.
  assert (Hh : 0 <= r0 * r0 - a * a).
  { replace (r0 * r0 - a * a) with ((r0 - a) * (a + r0)) by ring.
    apply Rmult_le_pos; assumption. }
  unfold h2. rewrite Rmax_right by exact Hh.
  replace (a * a + (r0 * r0 - a * a)) with (Rsqr r0) by (unfold Rsqr; ring).
  replace ((d - a) * (d - a) + (r0 * r0 - a * a)) with (Rsqr r1)
    by (unfold Rsqr; replace ((d - a) * (d - a) + (r0 * r0 - a * a))
          with (d * d - 2 * d * a + r0 * r0) by ring; rewrite H2; ring).
  split; apply sqrt_Rsqr; lra.
Qed.

(** The half-chord [h] is positive exactly when the circles cross. *)
Lemma chord_positive_iff (d r0 r1 : R) :
  0 < d -> 0 <= r0 -> 0 <= r1 ->
  let a := chordFoot d r0 r1 in
  0 < r0 * r0 - a * a <-> Rabs (r0 - r1) < d < r0 + r1.
Proof.
  intros Hd H0 H1 a. unfold chordFoot in a.
  assert (HA : 2 * d * (r0 - a) = (r0 + r1 - d) * (d - r0 + r1))
    by (unfold a; field; lra).
  assert (HB : 2 * d * (a + r0) = (d + r0 - r1) * (d + r0 + r1))
    by (unfold a; field; lra).
  assert (Hfact : r0 * r0 - a * a = (r0 - a) * (a + r0)) by ring.
  rewrite Hfact. split.
  - intros Hpos.
    assert (Hq : 0 < d + r0 - r1).
    { destruct (Rlt_dec 0 (d + r0 - r1)) as [ | Hn ]; [ assumption | exfalso ].
      assert (Hqs : (d + r0 - r1) * (d + r0 + r1) <= 0) by nra.
      assert (Hs : a + r0 <= 0) by nra.
      assert (Hm : r0 - a < 0) by nra.
      assert (Hep : (r0 + r1 - d) * (d - r0 + r1) < 0) by nra.
      assert (Hp : 0 < d - r0 + r1) by lra.
      nra. }
    assert (Hs : 0 < a + r0).
    { assert (0 < (d + r0 - r1) * (d + r0 + r1))
        by (apply Rmult_lt_0_compat; lra).
      nra. }
    assert (Hm : 0 < r0 - a) by nra.
    assert (Hep : 0 < (r0 + r1 - d) * (d - r0 + r1)) by nra.
    assert (He : 0 < r0 + r1 - d).
    { destruct (Rlt_dec 0 (r0 + r1 - d)) as [ | Hn ]; [ assumption | exfalso ].
      assert (d - r0 + r1 < 0) by nra. lra. }
    assert (Hp : 0 < d - r0 + r1) by nra.
    split; [ | lra ].
    unfold Rabs; destruct (Rcase_abs (r0 - r1)); lra.
  - intros [Habs He].
    assert (Hp : 0 < d - r0 + r1)
      by (revert Habs; unfold Rabs; destruct (Rcase_abs (r0 - r1)); lra).
    assert (Hq : 0 < d + r0 - r1)
      by (revert Habs; unfold Rabs; destruct (Rcase_abs (r0 - r1)); lra).
    assert (H2 : 0 < (r0 + r1 - d) * (d - r0 + r1))
      by (apply Rmult_lt_0_compat; lra).
    assert (H3 : 0 < (d + r0 - r1) * (d + r0 + r1))
      by (apply Rmult_lt_0_compat; lra).
    apply Rmult_lt_0_compat; nra.
Qed.

Lemma dist_centerDistance (a b : Point) : dist a b = centerDistance a b.
Proof. unfold dist, centerDistance. f_equal. ring. Qed.

(** C8, amended.  For two circles of non-negative radii for which
    [getCircleIntersection] returns a point: when the centers are at least
    [|r0 - r1|] apart, both results lie within 0.1 of both circles, and on
    them when the circles meet; the two results differ exactly when the
    circles cross, [|r0 - r1| < d < r0 + r1]. *)
Theorem getCircleIntersection_flip_symmetric
    (c0 : Point) (r0 : R) (c1 : Point) (r1 : R) (p q : Point) :
  0 <= r0 -> 0 <= r1 ->
  getCircleIntersection c0 r0 c1 r1 false = Some p ->
  getCircleIntersection c0 r0 c1 r1 true = Some q ->
  let d := centerDistance c0 c1 in
  (Rabs (r0 - r1) <= d ->
   onBothCircles c0 r0 c1 r1 p /\ onBothCircles c0 r0 c1 r1 q)
  /\ (Rabs (r0 - r1) <= d <= r0 + r1 ->
      (dist c0 p = r0 /\ dist c1 p = r1) /\ (dist c0 q = r0 /\ dist c1 q = r1))
  /\ (p <> q <-> Rabs (r0 - r1) < d < r0 + r1).
Proof.
  intros H0 H1 Hp Hq d.
  destruct (accepted_bounds _ _ _ _ _ _ Hp) as (Hd & Hfar & _). fold d in Hd, Hfar.
  destruct (intersection_distances _ _ _ _ _ _ Hp) as [Ep0 Ep1].
  destruct (intersection_distances _ _ _ _ _ _ Hq) as [Eq0 Eq1].
  fold d in Ep0, Ep1, Eq0, Eq1 |- *.
  split; [ | split ].
  - intros Hnear. unfold onBothCircles. rewrite Ep0, Ep1, Eq0, Eq1.
    pose proof (tolerance_bounds d r0 r1 Hd Hfar Hnear) as Hb.
    cbv zeta in Hb. tauto.
  - intros [Hnear Hmeet]. rewrite Ep0, Ep1, Eq0, Eq1.
    pose proof (exact_when_meeting d r0 r1 Hd Hnear Hmeet) as Hb.
    cbv zeta in Hb. tauto.
  - rewrite (results_differ_iff _ _ _ _ _ _ Hp Hq). fold d.
    apply (chord_positive_iff d r0 r1 Hd H0 H1).
Qed.

Ltac settle_all :=
  unfold EPSILON;
  repeat first
    [ settle
    | match goal with
      | |- context [Js.eqb ?a ?b] =>
          first [ rewrite (proj2 (eqb_false_iff a b)) by lra
                | rewrite (proj2 (eqb_true_iff a b)) by lra ]
      end ];
  cbn [orb andb negb].

(** Circles of radii 10 and 8.95 whose centers are 1 apart: the smaller one
    lies inside the larger, 0.05 away from touching it.  The pair is
    accepted, [h] is clamped to 0, and both values of [flip] give the point
    at distance [a = 10.44875] from the first center. *)
Lemma nested_circles_result (flip : bool) :
  getCircleIntersection (mkPoint 1 0) 10 (mkPoint 2 0) 8.95 flip
  = Some (mkPoint 11.44875 0).
Proof.
  unfold getCircleIntersection. cbn [x y].
  replace ((2 - 1) * (2 - 1) + (0 - 0) * (0 - 0)) with 1 by lra.
  rewrite sqrt_1. settle_all. rewrite sqrt_0.
  destruct flip; f_equal; f_equal; lra.
Qed.

Lemma nested_circles_distance :
  dist (mkPoint 1 0) (mkPoint 11.44875 0) = 10.44875.
Proof.
  unfold dist. cbn [x y].
  replace ((11.44875 - 1) ^ 2 + (0 - 0) ^ 2) with (Rsqr 10.44875)
    by (unfold Rsqr; lra).
  apply sqrt_Rsqr. lra.
Qed.

(** C8 as stated fails for these two circles: the returned point is
    0.44875 off the first circle, and the two results are one point though
    the circles are not tangent. *)
Lemma flipSymmetric_fails_for_nested_circles :
  ~ flipSymmetric (mkPoint 1 0) 10 (mkPoint 2 0) 8.95.
Proof.
  intros H.
  destruct (H ltac:(lra) ltac:(lra) _ _
              (nested_circles_result false) (nested_circles_result true))
    as ([Hon _] & _ & _).
  rewrite nested_circles_distance in Hon.
  revert Hon. unfold Rabs. destruct (Rcase_abs (10.44875 - 10)); lra.
Qed.

(** The joints of [nestedFourBar] at drive angle 0. *)
Lemma nestedFourBar_joints :
  let s := calculateLinkage nestedFourBar 0 in
  isValid s = true /\ j1 s = mkPoint 1 0 /\ j2 s = mkPoint 11.44875 0.
Proof.
  assert (Ej : crankTip nestedFourBar 0 = mkPoint 1 0).
  { unfold crankTip, anchorOf, nestedFourBar. cbn.
    rewrite Rmult_0_l, cos_0, sin_0. f_equal; lra. }
  assert (Ep : toRad 0 = 0) by (unfold toRad; lra).
  unfold calculateLinkage. cbn [type nestedFourBar]. cbv zeta.
  rewrite Ej. cbn [groundAngle nestedFourBar Js.nullish].
  rewrite Ep, cos_0, sin_0.
  cbn [anchorOf anchorX anchorY Js.nullish x y groundLength couplerLength
       rockerLength nestedFourBar].
  replace (0 + 2 * 1) with 2 by lra. replace (0 + 2 * 0) with 0 by lra.
  rewrite nested_circles_result. cbn. auto.
Qed.

(** C6 as stated fails at [nestedFourBar], drive angle 0: the solver reports
    a valid state whose coupler joint is 10.44875 away from the crank tip,
    for a coupler of length 10. *)
Lemma fourBarWithinTolerance_fails_when_nested :
  ~ fourBarWithinTolerance nestedFourBar 0.
Proof.
  intros H. destruct nestedFourBar_joints as (Hv & E1 & E2).
  destruct (H eq_refl Hv) as [Hc _].
  rewrite E1, E2, nested_circles_distance in Hc.
  revert Hc. cbn [couplerLength nestedFourBar].
  unfold Rabs. destruct (Rcase_abs (10.44875 - 10)); lra.
Qed.

(** C6, amended.  For a four-bar that reports a valid state in which the
    crank tip and the ground pivot are at least
    [|couplerLength - rockerLength|] apart, the two reconstructed distances
    are within 0.1 of the coupler and rocker lengths; they equal them when
    that distance is also at most [couplerLength + rockerLength]. *)
Theorem fourbar_reconstructed_distances
    (config : MechanismConfig) (crankAngleRad : R) :
  type config = Some fourbar ->
  let s := calculateLinkage config crankAngleRad in
  isValid s = true ->
  Rabs (couplerLength config - rockerLength config) <= dist (j1 s) (p2 s) ->
  (Rabs (dist (j1 s) (j2 s) - couplerLength config) <= 0.1
   /\ Rabs (dist (p2 s) (j2 s) - rockerLength config) <= 0.1)
  /\ (dist (j1 s) (p2 s) <= couplerLength config + rockerLength config ->
      dist (j1 s) (j2 s) = couplerLength config
      /\ dist (p2 s) (j2 s) = rockerLength config).
Proof.
  intros Ht. unfold calculateLinkage. rewrite Ht. cbv zeta.
  set (J1 := crankTip config crankAngleRad).
  set (P2 := mkPoint _ _).
  destruct (getCircleIntersection J1 (couplerLength config) P2
              (rockerLength config) false) as [J2 | ] eqn:E;
    cbn [isValid j1 j2 p2]; [ | discriminate ].
  intros _ Hnear. rewrite (dist_centerDistance J1 P2) in *.
  destruct (accepted_bounds _ _ _ _ _ _ E) as (Hd & Hfar & _).
  destruct (intersection_distances _ _ _ _ _ _ E) as [E0 E1].
  rewrite E0, E1. split.
  - exact (tolerance_bounds _ _ _ Hd Hfar Hnear).
  - intros Hmeet. exact (exact_when_meeting _ _ _ Hd Hnear Hmeet).
Qed.

Lemma centerDistance_on_axis (u v : R) :
  u <= v -> centerDistance (mkPoint u 0) (mkPoint v 0) = v - u.
Proof.
  intros H. unfold centerDistance. cbn [x y].
  replace ((v - u) * (v - u) + (0 - 0) * (0 - 0)) with (Rsqr (v - u))
    by (unfold Rsqr; ring).
  apply sqrt_Rsqr. lra.
Qed.

(** The crank-rocker preset at drive angle 0: crank tip at [(50, 0)], ground
    pivot at [(180, 0)], and a valid state. *)
Lemma crankRocker_at_0 :
  let s := calculateLinkage presetCrankRocker 0 in
  isValid s = true /\ j1 s = mkPoint 50 0 /\ p2 s = mkPoint 180 0.
Proof.
  assert (Ej : crankTip presetCrankRocker 0 = mkPoint 50 0).
  { unfold crankTip, anchorOf, presetCrankRocker. cbn.
    rewrite Rmult_0_l, cos_0, sin_0. f_equal; lra. }
  assert (Ep : toRad 0 = 0) by (unfold toRad; lra).
  unfold calculateLinkage. cbn [type presetCrankRocker]. cbv zeta.
  rewrite Ej. cbn [groundAngle presetCrankRocker Js.nullish].
  rewrite Ep, cos_0, sin_0.
  cbn [anchorOf anchorX anchorY Js.nullish x y groundLength couplerLength
       rockerLength presetCrankRocker].
  replace (0 + 180 * 1) with 180 by lra. replace (0 + 180 * 0) with 0 by lra.
  destruct (getCircleIntersection (mkPoint 50 0) 180 (mkPoint 180 0) 120 false)
    eqn:E; cbn [isValid j1 p2]; [ auto | exfalso ].
  apply getCircleIntersection_none_rejected in E.
  rewrite centerDistance_on_axis in E by lra.
  revert E. unfold rejected, Rabs.
  destruct (Rcase_abs (180 - 120)); lra.
Qed.

Lemma fourbar_reconstructed_distances_witness :
  let s := calculateLinkage presetCrankRocker 0 in
  (Rabs (dist (j1 s) (j2 s) - couplerLength presetCrankRocker) <= 0.1
   /\ Rabs (dist (p2 s) (j2 s) - rockerLength presetCrankRocker) <= 0.1)
  /\ (dist (j1 s) (p2 s)
      <= couplerLength presetCrankRocker + rockerLength presetCrankRocker ->
      dist (j1 s) (j2 s) = couplerLength presetCrankRocker
      /\ dist (p2 s) (j2 s) = rockerLength presetCrankRocker).
Proof.
  destruct crankRocker_at_0 as (Hv & E1 & E2).
  apply (fourbar_reconstructed_distances presetCrankRocker 0).
  - reflexivity.
  - exact Hv.
  - rewrite E1, E2, dist_centerDistance, centerDistance_on_axis by lra.
    cbn [couplerLength rockerLength presetCrankRocker].
    unfold Rabs. destruct (Rcase_abs (180 - 120)); lra.
Defined.

(** Two circles of radius 5 whose centers are 6 apart cross at [(3, -4)] and
    [(3, 4)]. *)
Lemma crossing_circles_result (flip : bool) :
  getCircleIntersection (mkPoint 0 0) 5 (mkPoint 6 0) 5 flip
  = Some (mkPoint 3 (if flip then 4 else -4)).
Proof.
  unfold getCircleIntersection. cbn [x y].
  replace ((6 - 0) * (6 - 0) + (0 - 0) * (0 - 0)) with (Rsqr 6)
    by (unfold Rsqr; lra).
  rewrite sqrt_Rsqr by lra. settle_all.
  replace (5 * 5 - (5 * 5 - 5 * 5 + 6 * 6) / (2 * 6) * ((5 * 5 - 5 * 5 + 6 * 6) / (2 * 6)))
    with (Rsqr 4) by (unfold Rsqr; lra).
  rewrite sqrt_Rsqr by lra.
  destruct flip; f_equal; f_equal; lra.
Qed.

Lemma getCircleIntersection_flip_symmetric_witness :
  let c0 := mkPoint 0 0 in
  let c1 := mkPoint 6 0 in
  let p := mkPoint 3 (-4) in
  let q := mkPoint 3 4 in
  let d := centerDistance c0 c1 in
  (Rabs (5 - 5) <= d -> onBothCircles c0 5 c1 5 p /\ onBothCircles c0 5 c1 5 q)
  /\ (Rabs (5 - 5) <= d <= 5 + 5 ->
      (dist c0 p = 5 /\ dist c1 p = 5) /\ (dist c0 q = 5 /\ dist c1 q = 5))
  /\ (p <> q <-> Rabs (5 - 5) < d < 5 + 5).
Proof.
  apply (getCircleIntersection_flip_symmetric
           (mkPoint 0 0) 5 (mkPoint 6 0) 5 (mkPoint 3 (-4)) (mkPoint 3 4)).
  - lra.
  - lra.
  - exact (crossing_circles_result false).
  - exact (crossing_circles_result true).
Defined.

(** ** The curve sampler and the fitness evaluator *)

(** [validCount] counts samples: it grows by at most one per sample, and the
    points pushed are as many as it grew. *)
Lemma sampleLoop_count (config : MechanismConfig) (resolution : nat)
    (samples : list nat) (pts : list Point) (n : nat) :
  let r := sampleLoop config resolution samples pts n in
  (n <= snd r <= n + length samples)%nat
  /\ (length (fst r) + n = length pts + snd r)%nat.
Proof.
  revert pts n. induction samples as [ | i rest IH]; intros pts n; simpl.
  - lia.
  - destruct (isValid _).
    + specialize (IH (pts ++ [effector
          (calculateLinkage config (INR i / INR resolution * 2 * PI))]) (S n)).
      simpl in IH. rewrite length_app in IH. simpl in IH. lia.
    + specialize (IH pts n). simpl in IH. lia.
Qed.

(** A mechanism that is valid at every angle has every sample pushed. *)
Lemma sampleLoop_all_valid (config : MechanismConfig) (resolution : nat)
    (samples : list nat) (pts : list Point) (n : nat) :
  (forall angle, isValid (calculateLinkage config angle) = true) ->
  let r := sampleLoop config resolution samples pts n in
  snd r = (n + length samples)%nat
  /\ length (fst r) = (length pts + length samples)%nat.
Proof.
  intros Hv. revert pts n.
  induction samples as [ | i rest IH]; intros pts n; simpl.
  - lia.
  - rewrite Hv.
    specialize (IH (pts ++ [effector
        (calculateLinkage config (INR i / INR resolution * 2 * PI))]) (S n)).
    simpl in IH. rewrite length_app in IH. simpl in IH. lia.
Qed.

Lemma curveLoops_positive (config : MechanismConfig) :
  (0 < curveLoops config)%nat.
Proof. unfold curveLoops. destruct (typeIs config fivebar); lia. Qed.

(** The valid fraction is a fraction. *)
Lemma percentValid_range (config : MechanismConfig) (resolution : nat) :
  (0 < resolution)%nat ->
  0 <= percentValid (generateCurvePoints config resolution) <= 1.
Proof.
  intros Hr. unfold generateCurvePoints.
  pose proof (curveLoops_positive config) as Hl.
  set (res := (resolution * curveLoops config)%nat).
  assert (Hres : (0 < res)%nat) by (unfold res; nia).
  pose proof (sampleLoop_count config resolution (seq 0 res) [] 0) as [Hc _].
  destruct (sampleLoop config resolution (seq 0 res) [] 0) as [pts n].
  cbn [snd] in Hc. rewrite length_seq in Hc. cbn [percentValid].
  assert (Hpos : 0 < INR res) by (apply lt_0_INR; exact Hres).
  assert (Hn : 0 <= INR n) by apply pos_INR.
  assert (Hle : INR n <= INR res) by (apply le_INR; lia).
  split.
  - apply Rmult_le_pos; [ exact Hn | left; apply Rinv_0_lt_compat; exact Hpos ].
  - apply (Rmult_le_reg_r (INR res)); [ exact Hpos | ].
    unfold Rdiv. rewrite Rmult_assoc, Rinv_l, Rmult_1_r, Rmult_1_l by lra.
    exact Hle.
Qed.

Lemma validFraction_range (config : MechanismConfig) :
  0 <= validFraction config <= 1.
Proof.
  unfold validFraction. apply percentValid_range.
  destruct (typeIs config fivebar); lia.
Qed.

Lemma sqDist_nonneg (a b c d : R) : 0 <= (a - b) ^ 2 + (c - d) ^ 2.
Proof.
  pose proof (pow2_ge_0 (a - b)). pose proof (pow2_ge_0 (c - d)). lra.
Qed.

(** The chamfer loops over a target that is not empty stay finite and
    non-negative. *)
Lemma nearestLoop_finite (p : Point) (others : list Point) (m : R) :
  0 <= m -> exists v, nearestLoop p others (Fin m) = Fin v /\ 0 <= v.
Proof.
  revert m. induction others as [ | q rest IH]; intros m Hm; simpl.
  - exists m. auto.
  - destruct (Js.ltb _ m); apply IH; [ apply sqDist_nonneg | exact Hm ].
Qed.

Lemma nearestLoop_from_infinity (p : Point) (others : list Point) :
  others <> [] -> exists v, nearestLoop p others PosInf = Fin v /\ 0 <= v.
Proof.
  destruct others as [ | q rest]; [ congruence | intros _ ].
  simpl. apply nearestLoop_finite. apply sqDist_nonneg.
Qed.

Lemma errorLoop_finite (from others : list Point) (u : R) :
  others <> [] -> 0 <= u ->
  exists v, errorLoop from others (Fin u) = Fin v /\ 0 <= v.
Proof.
  intros Ho. revert u. induction from as [ | p rest IH]; intros u Hu; simpl.
  - exists u. auto.
  - destruct (nearestLoop_from_infinity p others Ho) as (m & -> & Hm).
    simpl. apply IH. lra.
Qed.

Lemma divLength_finite (u : R) (n : nat) :
  (0 < n)%nat -> 0 <= u ->
  exists v, Num.divLength (Fin u) n = Fin v /\ 0 <= v.
Proof.
  intros Hn Hu. destruct n as [ | n]; [ lia | ].
  cbn [Num.divLength]. eexists; split; [ reflexivity | ].
  apply Rmult_le_pos; [ exact Hu | ].
  left. apply Rinv_0_lt_compat. apply lt_0_INR. lia.
Qed.

(** On a target that is not empty the score is a finite number, at least
    0. *)
Lemma evaluateFitness_finite (config : MechanismConfig)
    (targetPath : list Point) :
  targetPath <> [] ->
  exists v, evaluateFitness config targetPath = Fin v /\ 0 <= v.
Proof.
  intros Hpath.
  pose proof (validFraction_range config) as Hrange.
  unfold validFraction in *. unfold evaluateFitness. cbv zeta.
  set (curve := generateCurvePoints config
                  (if typeIs config fivebar then 120%nat else 60%nat)) in *.
  destruct (Js.ltb (percentValid curve) 1).
  { eexists; split; [ reflexivity | nra ]. }
  destruct (length (points curve) <? 10)%nat eqn:Elen.
  { eexists; split; [ reflexivity | lra ]. }
  apply Nat.ltb_ge in Elen.
  assert (Hgen : points curve <> []).
  { intros E. rewrite E in Elen. simpl in Elen. lia. }
  destruct (errorLoop_finite (points curve) targetPath 0 Hpath (Rle_refl 0))
    as (f & -> & Hf).
  destruct (errorLoop_finite targetPath (points curve) 0 Hgen (Rle_refl 0))
    as (b & -> & Hb).
  destruct (divLength_finite f (length (points curve)) ltac:(lia) Hf)
    as (f' & -> & Hf').
  assert (Hlen : (0 < length targetPath)%nat)
    by (destruct targetPath; [ congruence | simpl; lia ]).
  destruct (divLength_finite b (length targetPath) Hlen Hb) as (b' & -> & Hb').
  cbn [Num.add]. eexists; split; [ reflexivity | ].
  assert (Hclosure : 0 <=
    (if typeIs config fivebar
     then match points curve with
          | [] => 0
          | start :: _ =>
              if Js.gtb
                   ((x start - x (last (points curve) start)) ^ 2
                    + (y start - y (last (points curve) start)) ^ 2) 50
              then ((x start - x (last (points curve) start)) ^ 2
                    + (y start - y (last (points curve) start)) ^ 2) * 20
              else 0
          end
     else 0)).
  { destruct (typeIs config fivebar); [ | lra ].
    destruct (points curve) as [ | start rest]; [ lra | ].
    destruct (Js.gtb _ 50) eqn:Eg; [ | lra ].
    apply gtb_true_iff in Eg. lra. }
  lra.
Qed.

(** C4, amended.  For every configuration and every target path that is
    not empty, [evaluateFitness] returns a number that is at least 0; and
    for every target path, whenever the valid fraction of the sampled curve
    is below 1 it returns exactly [1e9 + (1 - validFraction) * 1e9], which
    is at least [1e9]. *)
Theorem evaluateFitness_range (config : MechanismConfig)
    (targetPath : list Point) :
  (targetPath <> [] ->
   exists v, evaluateFitness config targetPath = Fin v /\ 0 <= v)
  /\ (validFraction config < 1 ->
      evaluateFitness config targetPath
      = Fin (1e9 + (1 - validFraction config) * 1e9)
      /\ 1e9 <= 1e9 + (1 - validFraction config) * 1e9).
Proof.
  split; [ apply evaluateFitness_finite | ].
  pose proof (validFraction_range config) as Hrange.
  unfold validFraction in *. unfold evaluateFitness. cbv zeta.
  intros Hlt. rewrite (proj2 (ltb_true_iff _ _) Hlt).
  split; [ f_equal; lra | nra ].
Qed.

(** On the empty target the backward average is [0 / 0]. *)
Lemma errorLoop_empty_target (from : list Point) :
  errorLoop from [] PosInf = PosInf
  /\ (from <> [] -> errorLoop from [] (Fin 0) = PosInf).
Proof.
  assert (H : errorLoop from [] PosInf = PosInf)
    by (induction from as [ | p rest IH]; simpl; auto).
  split; [ exact H | ].
  destruct from as [ | p rest]; [ congruence | intros _ ].
  simpl. clear H. induction rest as [ | q rest IH]; simpl; auto.
Qed.

(** The plain crank against the empty target: every sample is valid, the
    forward error is infinite, the backward error is [0 / 0]. *)
Lemma evaluateFitness_empty_target :
  evaluateFitness plainCrank [] = NaN.
Proof.
  unfold evaluateFitness. cbv zeta.
  change (typeIs plainCrank fivebar) with false. cbv iota.
  unfold generateCurvePoints.
  change (curveLoops plainCrank) with 1%nat.
  pose proof (sampleLoop_all_valid plainCrank 60 (seq 0 (60 * 1)) [] 0) as H.
  destruct (sampleLoop plainCrank 60 (seq 0 (60 * 1)) [] 0) as [pts n].
  destruct H as [Hn Hlen].
  { intros angle. reflexivity. }
  cbn [fst snd] in Hn, Hlen. rewrite length_seq in Hn, Hlen.
  cbn [length Nat.add] in Hn, Hlen. cbn [points percentValid].
  subst n.
  replace (INR (60 * 1) / INR (60 * 1)) with 1
    by (field; apply not_0_INR; discriminate).
  rewrite (proj2 (ltb_false_iff 1 1)) by lra.
  rewrite Hlen. change (60 * 1 <? 10)%nat with false. cbv iota.
  assert (Hpts : pts <> [])
    by (intros E; rewrite E in Hlen; discriminate).
  rewrite (proj2 (errorLoop_empty_target pts) Hpts).
  cbn [errorLoop length Num.divLength].
  rewrite (proj2 (ltb_false_iff 0 0)) by lra. reflexivity.
Qed.

(** C4 as stated fails on the empty target path: the score of the plain
    crank is [NaN], which is not at least 0. *)
Lemma fitness_of_empty_target_is_not_a_number :
  ~ fitnessNonNegative plainCrank [].
Proof.
  unfold fitnessNonNegative. rewrite evaluateFitness_empty_target.
  simpl. tauto.
Qed.

(** ** The evolutionary loop *)

Lemma bind_inv {A B : Type} (m : M A) (k : A -> M B) (w w' : World) (b : B) :
  bind m k w = (b, w') -> exists a w1, m w = (a, w1) /\ k a w1 = (b, w').
Proof.
  unfold bind. destruct (m w) as [a w1]. intros H. now exists a, w1.
Qed.

(** Comparing with a score that is a number. *)
Lemma score_ltb_le (a b : JsNumber) : Num.ltb a b = true -> Num.le a b.
Proof.
  destruct a, b; simpl; try discriminate; try tauto.
  intros H. apply ltb_true_iff in H. lra.
Qed.

Lemma score_ltb_number (a b : JsNumber) : Num.ltb a b = true -> a <> NaN.
Proof. destruct a; simpl; congruence. Qed.

Lemma score_le_refl (a : JsNumber) : a <> NaN -> Num.le a a.
Proof. destruct a; simpl; try tauto; try congruence. intros _; lra. Qed.

(** One generation: the global best is kept, or replaced by a score that
    is strictly below it. *)
Lemma generationBody_best (env : Search) (st st' : LoopState) (w w' : World) :
  generationBody env st w = (Next st', w') ->
  globalBestScore st' = globalBestScore st
  \/ Num.ltb (globalBestScore st') (globalBestScore st) = true.
Proof.
  unfold generationBody.
  destruct (sortByScore (scoreAll (userPath env) (population st)))
    as [ | best rest]; [ discriminate | ].
  destruct (length (best :: rest) <? 15)%nat; [ destruct (Num.ltb _ _); discriminate | ].
  destruct (Num.ltb (score best) (globalBestScore st)) eqn:E;
    intros H; apply bind_inv in H as (filled & w1 & _ & H);
    destruct filled; try discriminate;
    injection H as <- _; cbn [globalBestScore]; auto.
Qed.

Lemma pass_best (env : Search) (st st' : LoopState) (w w' : World) :
  pass env st w = (Next st', w') ->
  globalBestScore st' = globalBestScore st
  \/ Num.ltb (globalBestScore st') (globalBestScore st) = true.
Proof.
  unfold pass. intros H. apply bind_inv in H as (leave & w1 & _ & H).
  destruct leave; [ discriminate | ].
  eapply generationBody_best; exact H.
Qed.

Lemma bestScores_head (env : Search) (k : nat) (st : LoopState) (w : World) :
  exists rest, fst (bestScores env k st w) = globalBestScore st :: rest.
Proof.
  destruct k as [ | k]; simpl.
  - now exists [].
  - unfold bind. destruct (pass env st w) as [[ | st' | ] w1]; simpl;
      try (now exists []).
    destruct (bestScores env k st' w1) as [rest w2]. simpl. now exists rest.
Qed.

(** A score that is a number stays one, and never goes up, through one
    pass of the loop. *)
Lemma pass_keeps_number (env : Search) (st st' : LoopState) (w w' : World) :
  globalBestScore st <> NaN ->
  pass env st w = (Next st', w') ->
  Num.le (globalBestScore st') (globalBestScore st)
  /\ globalBestScore st' <> NaN.
Proof.
  intros H0 Hp.
  destruct (pass_best _ _ _ _ _ Hp) as [E | E].
  - rewrite E. split; [ now apply score_le_refl | exact H0 ].
  - split; [ now apply score_ltb_le | eapply score_ltb_number; exact E ].
Qed.

Lemma generations_keep_number (env : Search) (k : nat) (st st' : LoopState)
    (w w' : World) :
  globalBestScore st <> NaN ->
  generations env k st w = (Some st', w') ->
  globalBestScore st' <> NaN.
Proof.
  revert st w. induction k as [ | k IH]; intros st w Hnum H.
  - injection H as <- _. exact Hnum.
  - cbn [generations] in H. apply bind_inv in H as (r & w1 & Ep & H).
    destruct r as [ | st1 | ]; try discriminate.
    apply (IH st1 w1); [ | exact H ].
    exact (proj2 (pass_keeps_number _ _ _ _ _ Hnum Ep)).
Qed.

Lemma bestScores_non_increasing (env : Search) (k : nat) (st : LoopState)
    (w : World) :
  globalBestScore st <> NaN -> nonIncreasing (fst (bestScores env k st w)).
Proof.
  revert st w. induction k as [ | k IH]; intros st w Hnum; [ simpl; exact I | ].
  simpl. unfold bind at 1.
  destruct (pass env st w) as [[ | st' | ] w1] eqn:Ep; try (simpl; exact I).
  destruct (pass_keeps_number _ _ _ _ _ Hnum Ep) as [Hle Hnum'].
  specialize (IH st' w1 Hnum').
  destruct (bestScores_head env k st' w1) as (rest & Erest).
  unfold bind. destruct (bestScores env k st' w1) as [l w2].
  cbn [fst] in *. subst l. cbn [ret fst nonIncreasing]. split; assumption.
Qed.

(** The loop starts from a score that is a number: the target path has at
    least three points. *)
Lemma startEvolution_number (path : list Point) (options : OptimizationOptions)
    (seed : MechanismConfig) (optDuration : R)
    (population : list MechanismConfig) (w w0 : World) (env : Search)
    (st : LoopState) :
  path <> [] ->
  startEvolution path options seed optDuration population w
  = (Some (env, st), w0) ->
  globalBestScore st <> NaN /\ generation st = 0%nat
  /\ App.population st = population.
Proof.
  intros Hpath H. unfold startEvolution in H.
  destruct population as [ | best rest]; [ discriminate | ].
  apply bind_inv in H as (start & w1 & _ & H). injection H as _ <- _.
  cbn [globalBestScore generation App.population].
  destruct (evaluateFitness_finite best path Hpath) as (v & -> & _).
  split; [ discriminate | split; reflexivity ].
Qed.

(** C9. Across the evolutionary loop of the driver, started on a path of at
    least three points, the tracked global-best score never goes up: the
    scores at the head of the loop and after each generation form a
    non-increasing sequence; after every generation the score is at most the
    one before it, and it has changed only to a score strictly below. *)
Theorem global_best_never_regresses
    (path : list Point) (options : OptimizationOptions) (seed : MechanismConfig)
    (optDuration : R) (population : list MechanismConfig) (world world0 : World)
    (env : Search) (st : LoopState) (k : nat) :
  (3 <= length path)%nat ->
  startEvolution path options seed optDuration population world
  = (Some (env, st), world0) ->
  nonIncreasing (fst (bestScores env k st world0))
  /\ (forall stk wk stk1 wk1,
        generations env k st world0 = (Some stk, wk) ->
        pass env stk wk = (Next stk1, wk1) ->
        Num.le (globalBestScore stk1) (globalBestScore stk)
        /\ (globalBestScore stk1 <> globalBestScore stk ->
            Num.ltb (globalBestScore stk1) (globalBestScore stk) = true)).
Proof.
  intros Hlen Hstart.
  assert (Hpath : path <> []) by (destruct path; [ simpl in Hlen; lia | discriminate ]).
  destruct (startEvolution_number _ _ _ _ _ _ _ _ _ Hpath Hstart) as (Hnum & _ & _).
  split.
  - now apply bestScores_non_increasing.
  - intros stk wk stk1 wk1 Hk Hp.
    pose proof (generations_keep_number _ _ _ _ _ _ Hnum Hk) as Hnumk.
    split.
    + exact (proj1 (pass_keeps_number _ _ _ _ _ Hnumk Hp)).
    + intros Hne. destruct (pass_best _ _ _ _ _ Hp) as [E | E];
        [ contradiction | exact E ].
Qed.

(** ** The loop runs: draws stay in range, nothing throws *)

Lemma keeps_ret {A : Type} (a : A) : keepsUnit (ret a).
Proof. intros w H; exact H. Qed.

Lemma keeps_random : keepsUnit random.
Proof. intros w H n; simpl; apply H. Qed.

Lemma keeps_dateNow : keepsUnit dateNow.
Proof. intros w H n; simpl; apply H. Qed.

Lemma keeps_bind {A B : Type} (m : M A) (k : A -> M B) :
  keepsUnit m -> (forall a, keepsUnit (k a)) -> keepsUnit (bind m k).
Proof.
  intros Hm Hk w H. unfold bind.
  specialize (Hm w H). destruct (m w) as [a w1]. apply Hk. exact Hm.
Qed.

Lemma keeps_if {A : Type} (b : bool) (m1 m2 : M A) :
  keepsUnit m1 -> keepsUnit m2 -> keepsUnit (if b then m1 else m2).
Proof. destruct b; auto. Qed.

Lemma keeps_withChance (p : R)
    (update : MechanismConfig -> M MechanismConfig) (conf : MechanismConfig) :
  (forall c, keepsUnit (update c)) -> keepsUnit (withChance p update conf).
Proof.
  intros H. unfold withChance. apply keeps_bind; [ apply keeps_random | ].
  intros u. apply keeps_if; [ apply H | apply keeps_ret ].
Qed.

Lemma keeps_pickType (types : list MechanismType) : keepsUnit (pickType types).
Proof.
  unfold pickType. apply keeps_bind; [ apply keeps_random | ].
  intros u. apply keeps_ret.
Qed.

Ltac keeps_step :=
  lazymatch goal with
  | |- keepsUnit (ret _) => apply keeps_ret
  | |- keepsUnit random => apply keeps_random
  | |- keepsUnit dateNow => apply keeps_dateNow
  | |- keepsUnit (pickType _) => apply keeps_pickType
  | |- keepsUnit (withChance ?p ?f ?c) =>
      apply (keeps_withChance p f c); intros ?
  | |- keepsUnit (bind ?m ?k) => apply (keeps_bind m k); [ | intros ? ]
  | |- keepsUnit (if ?b then ?m1 else ?m2) => apply (keeps_if b m1 m2)
  | |- keepsUnit (match ?o with _ => _ end) => destruct o
  | |- keepsUnit (let v := ?d in @?body v) =>
      change (let v := d in keepsUnit (body v)); intro; cbv beta
  | |- keepsUnit ((fun _ => _) _) => cbv beta
  end.

Ltac keeps := repeat keeps_step.

Lemma keeps_generateSmartConfig (targetPath : option (list Point))
    (forcedType excludedType : option MechanismType) :
  keepsUnit (generateSmartConfig targetPath forcedType excludedType).
Proof.
  unfold generateSmartConfig.
  set (start := match targetPath with
                | Some path =>
                    match getBounds path with
                    | Some bounds =>
                        (cx bounds, cy bounds, Rmax (w bounds) (h bounds))
                    | None => (0, 0, 100)
                    end
                | None => (0, 0, 100)
                end).
  destruct start as [[cx0 cy0] scale]. lazy head zeta beta iota.
  keeps.
Qed.

Lemma keeps_mutateConfig (config : MechanismConfig) (temperature : R)
    (fixedType : bool) (excludedType : option MechanismType) :
  keepsUnit (mutateConfig config temperature fixedType excludedType).
Proof.
  unfold mutateConfig. lazy head zeta beta. keeps.
Qed.

Lemma pushMany_spec (n : nat) (make : M MechanismConfig)
    (arr : list MechanismConfig) (w : World) :
  keepsUnit make -> unitDraws w ->
  length (fst (pushMany n make arr w)) = (length arr + n)%nat
  /\ unitDraws (snd (pushMany n make arr w)).
Proof.
  intros Hmake. revert arr w.
  induction n as [ | n IH]; intros arr w Hw; simpl.
  - split; [ lia | exact Hw ].
  - unfold bind. specialize (Hmake w Hw).
    destruct (make w) as [c w1]. cbn [snd] in Hmake.
    destruct (IH (arr ++ [c]) w1 Hmake) as [Hlen Hu].
    rewrite length_app in Hlen. simpl in Hlen. split; [ lia | exact Hu ].
Qed.

Lemma insertByScore_length (s : Scored) (sorted : list Scored) :
  length (insertByScore s sorted) = S (length sorted).
Proof.
  induction sorted as [ | t rest IH]; simpl; [ reflexivity | ].
  destruct (Num.ltb _ _); simpl; [ reflexivity | now rewrite IH ].
Qed.

Lemma sortByScore_length (l : list Scored) :
  length (sortByScore l) = length l.
Proof.
  unfold sortByScore.
  assert (H : forall acc,
             length (fold_left (fun sorted s => insertByScore s sorted) l acc)
             = (length acc + length l)%nat).
  { induction l as [ | s rest IH]; intros acc; simpl; [ lia | ].
    rewrite IH, insertByScore_length. lia. }
  now rewrite H.
Qed.

Lemma scoreAll_length (path : list Point) (l : list MechanismConfig) :
  length (scoreAll path l) = length l.
Proof. unfold scoreAll. apply length_map. Qed.

(** A draw of [[0, 1)] indexes an array that is not empty. *)
Lemma index_unit_draw {A : Type} (l : list A) (u : R) :
  l <> [] -> 0 <= u < 1 ->
  exists a, Js.index l (Js.floor (u * INR (length l))) = Some a.
Proof.
  intros Hl Hu.
  assert (Hn : (0 < length l)%nat)
    by (destruct l; [ congruence | simpl; lia ]).
  destruct (part_exists (length l) u Hn Hu) as (k & Hk & Hp).
  rewrite (floor_in_part k (length l) u Hn Hp), index_of_nat.
  destruct (nth_error l k) as [a | ] eqn:E; [ now exists a | ].
  apply nth_error_None in E. lia.
Qed.

(** Refilling never throws when the survivors are not empty, and adds
    exactly the missing members. *)
Lemma refill_spec (env : Search) (survivors : list Scored) (gen missing : nat)
    (nextGen : list MechanismConfig) (w : World) :
  survivors <> [] -> unitDraws w ->
  exists filled w',
    refill env survivors gen missing nextGen w = (Some filled, w')
    /\ length filled = (length nextGen + missing)%nat
    /\ unitDraws w'.
Proof.
  intros Hs. revert nextGen w.
  induction missing as [ | missing IH]; intros nextGen w Hw.
  - exists nextGen, w. simpl. split; [ reflexivity | split; [ lia | exact Hw ] ].
  - cbn [refill]. unfold bind at 1.
    pose proof (keeps_random w Hw) as Hw1.
    destruct (random w) as [u w1] eqn:Eu. cbn [snd] in Hw1.
    destruct (Js.ltb u 0.10).
    + unfold bind at 1.
      pose proof (keeps_generateSmartConfig (Some (userPath env)) (forced env)
                    (excludedType env) w1 Hw1) as Hw2.
      destruct (generateSmartConfig _ _ _ w1) as [c w2]. cbn [snd] in Hw2.
      destruct (IH (nextGen ++ [c]) w2 Hw2) as (filled & w' & E & Hlen & Hu).
      exists filled, w'. rewrite length_app in Hlen. simpl in Hlen.
      split; [ exact E | split; [ lia | exact Hu ] ].
    + unfold bind at 1.
      pose proof (keeps_random w1 Hw1) as Hw2.
      assert (Hup : 0 <= fst (random w1) < 1) by (simpl; apply Hw1).
      destruct (random w1) as [up w2] eqn:Eup. cbn [fst snd] in Hup, Hw2.
      destruct (index_unit_draw survivors up Hs Hup) as (parent & ->).
      unfold bind at 1.
      set (progress := if isTimeBound env then _ else _).
      assert (Hw3 : unitDraws (snd (progress w2))).
      { subst progress. destruct (isTimeBound env).
        - refine (keeps_bind _ _ keeps_dateNow _ w2 Hw2).
          intros now. apply keeps_ret.
        - exact Hw2. }
      destruct (progress w2) as [pr w3]. cbn [snd] in Hw3.
      unfold bind at 1.
      match goal with
      | |- context [mutateConfig ?c ?t ?f ?e w3] =>
          pose proof (keeps_mutateConfig c t f e w3 Hw3) as Hw4;
          destruct (mutateConfig c t f e w3) as [c4 w4]
      end.
      cbn [snd] in Hw4.
      destruct (IH (nextGen ++ [c4]) w4 Hw4) as (filled & w' & E & Hlen & Hu).
      exists filled, w'. rewrite length_app in Hlen. simpl in Hlen.
      split; [ exact E | split; [ lia | exact Hu ] ].
Qed.

(** With a full population a generation runs to its end and hands over a
    full population. *)
Lemma generationBody_runs (env : Search) (st : LoopState) (w : World) :
  length (population st) = POPULATION_SIZE -> unitDraws w ->
  exists st' w',
    generationBody env st w = (Next st', w')
    /\ length (population st') = POPULATION_SIZE
    /\ generation st' = S (generation st)
    /\ unitDraws w'.
Proof.
  intros Hpop Hw. unfold generationBody.
  pose proof (sortByScore_length (scoreAll (userPath env) (population st)))
    as Hlen.
  rewrite scoreAll_length, Hpop in Hlen.
  destruct (sortByScore (scoreAll (userPath env) (population st)))
    as [ | best rest]; [ discriminate | ].
  set (scored := best :: rest) in *.
  rewrite Hlen. change (POPULATION_SIZE <? 15)%nat with false. cbv iota.
  assert (Hsurv : firstn (POPULATION_SIZE / 2) scored <> []).
  { intros E. apply (f_equal (@length Scored)) in E.
    rewrite length_firstn, Hlen in E. discriminate. }
  assert (Hng : length (map mech (firstn 15 scored)) = 15%nat).
  { rewrite length_map, length_firstn, Hlen. reflexivity. }
  rewrite Hng.
  destruct (refill_spec env (firstn (POPULATION_SIZE / 2) scored)
              (generation st) (POPULATION_SIZE - 15)
              (map mech (firstn 15 scored)) w Hsurv Hw)
    as (filled & w' & E & Hfilled & Hu).
  rewrite Hng in Hfilled.
  destruct (Num.ltb (score best) (globalBestScore st));
    unfold bind; rewrite E; eexists; exists w';
    (split; [ reflexivity | ]); cbn [population generation];
    (split; [ rewrite Hfilled; reflexivity | split; [ reflexivity | exact Hu ] ]).
Qed.

Lemma pass_runs (env : Search) (st : LoopState) (w : World) :
  isTimeBound env = false -> (generation st < DEFAULT_GENERATIONS)%nat ->
  length (population st) = POPULATION_SIZE -> unitDraws w ->
  exists st' w',
    pass env st w = (Next st', w')
    /\ length (population st') = POPULATION_SIZE
    /\ generation st' = S (generation st)
    /\ unitDraws w'.
Proof.
  intros Hmode Hgen Hpop Hw. unfold pass. rewrite Hmode.
  unfold bind at 1, ret at 1. cbv beta iota.
  apply Nat.leb_gt in Hgen. rewrite Hgen.
  apply generationBody_runs; assumption.
Qed.

Lemma pass_breaks (env : Search) (st : LoopState) (w : World) :
  isTimeBound env = false -> (DEFAULT_GENERATIONS <= generation st)%nat ->
  pass env st w = (Break, w).
Proof.
  intros Hmode Hgen. unfold pass. rewrite Hmode.
  unfold bind at 1, ret at 1. cbv beta iota.
  apply Nat.leb_le in Hgen. rewrite Hgen. reflexivity.
Qed.

(** In generation-count mode the loop leaves after generation 100. *)
Lemma evolve_completes (env : Search) (n : nat) (st : LoopState) (w : World) :
  isTimeBound env = false ->
  (generation st + n = DEFAULT_GENERATIONS)%nat ->
  length (population st) = POPULATION_SIZE -> unitDraws w ->
  exists final w',
    evolve env (S n) st w = (Done final, w')
    /\ generation final = DEFAULT_GENERATIONS
    /\ length (population final) = POPULATION_SIZE
    /\ unitDraws w'.
Proof.
  intros Hmode. revert st w.
  induction n as [ | n IH]; intros st w Hgen Hpop Hw.
  - exists st, w. cbn [evolve].
    rewrite (bind_eval _ _ _ _ _ (pass_breaks env st w Hmode ltac:(lia))).
    split; [ reflexivity | split; [ lia | split; assumption ] ].
  - destruct (pass_runs env st w Hmode ltac:(lia) Hpop Hw)
      as (st' & w1 & E & Hpop' & Hgen' & Hw1).
    destruct (IH st' w1 ltac:(lia) Hpop' Hw1) as (final & w' & E' & H).
    exists final, w'. split; [ | exact H ].
    change (evolve env (S (S n)) st w)
      with (bind (pass env st)
              (fun r => match r with
                        | Break => ret (Done st)
                        | Throws => ret Threw
                        | Next st' => evolve env (S n) st'
                        end) w).
    rewrite (bind_eval _ _ _ _ _ E). exact E'.
Qed.

(** While the loop runs, the sequence of scores gets one element per
    generation. *)
Lemma bestScores_length (env : Search) (k n : nat) (st : LoopState) (w : World) :
  isTimeBound env = false ->
  (generation st + n = DEFAULT_GENERATIONS)%nat -> (k <= n)%nat ->
  length (population st) = POPULATION_SIZE -> unitDraws w ->
  length (fst (bestScores env k st w)) = S k.
Proof.
  intros Hmode. revert n st w.
  induction k as [ | k IH]; intros n st w Hgen Hk Hpop Hw; [ reflexivity | ].
  destruct (pass_runs env st w Hmode ltac:(lia) Hpop Hw)
    as (st' & w1 & E & Hpop' & Hgen' & Hw1).
  cbn [bestScores]. rewrite (bind_eval _ _ _ _ _ E).
  specialize (IH (n - 1)%nat st' w1 ltac:(lia) ltac:(lia) Hpop' Hw1).
  unfold bind. destruct (bestScores env k st' w1) as [rest w2].
  cbn [fst ret length] in *. now rewrite IH.
Qed.

(** In generation-count mode the first generations run: from a full
    population, [k] generations that end at or before generation 100 are
    completed. *)
Lemma generations_run (env : Search) (k : nat) (st : LoopState) (w : World) :
  isTimeBound env = false ->
  (generation st + k <= DEFAULT_GENERATIONS)%nat ->
  length (population st) = POPULATION_SIZE -> unitDraws w ->
  exists st' w',
    generations env k st w = (Some st', w')
    /\ generation st' = (generation st + k)%nat
    /\ length (population st') = POPULATION_SIZE
    /\ unitDraws w'.
Proof.
  intros Hmode. revert st w.
  induction k as [ | k IH]; intros st w Hgen Hpop Hw.
  - exists st, w. cbn [generations ret].
    split; [ reflexivity | split; [ lia | split; assumption ] ].
  - destruct (pass_runs env st w Hmode ltac:(lia) Hpop Hw)
      as (st1 & w1 & E & Hpop1 & Hgen1 & Hw1).
    destruct (IH st1 w1 ltac:(lia) Hpop1 Hw1) as (st' & w' & E' & Hg & H).
    exists st', w'. cbn [generations].
    rewrite (bind_eval _ _ _ _ _ E). split; [ exact E' | ].
    split; [ lia | exact H ].
Qed.

Lemma keeps_placeSeed (seed : MechanismConfig) (bounds : Bounds) (pathSize : R) :
  keepsUnit (placeSeed seed bounds pathSize).
Proof. cbv delta [placeSeed]. cbv beta. keeps. Qed.

Lemma keeps_pushMany (n : nat) (make : M MechanismConfig)
    (arr : list MechanismConfig) :
  keepsUnit make -> keepsUnit (pushMany n make arr).
Proof. intros Hm w Hw. now apply pushMany_spec. Qed.

(** The seeding hands over exactly [POPULATION_SIZE] mechanisms. *)
Lemma seedPopulation_spec (path : list Point) (options : OptimizationOptions)
    (seed : MechanismConfig) (w : World) :
  unitDraws w ->
  exists pop w',
    seedPopulation path options seed w = (pop, w')
    /\ length pop = POPULATION_SIZE /\ unitDraws w'.
Proof.
  intros Hw. unfold seedPopulation. lazy head zeta beta.
  set (fresh := generateSmartConfig (Some path) (forcedType options)
                  (if excludeCurrent options then type seed else None)).
  assert (Hfresh : keepsUnit fresh) by apply keeps_generateSmartConfig.
  set (first := match seedMechanism options with Some _ => _ | None => _ end).
  assert (Hfirst : keepsUnit first).
  { subst first. destruct (seedMechanism options).
    - apply keeps_pushMany, keeps_placeSeed.
    - apply keeps_if; [ apply keeps_pushMany, keeps_mutateConfig | apply keeps_ret ]. }
  specialize (Hfirst w Hw).
  destruct (first w) as [c1 w1] eqn:E1. cbn [snd] in Hfirst.
  rewrite (bind_eval _ _ _ _ _ E1).
  pose proof (keeps_pushMany PRE_COMPUTE_SIZE fresh c1 Hfresh w1 Hfirst) as Hw2.
  destruct (pushMany PRE_COMPUTE_SIZE fresh c1 w1) as [c2 w2] eqn:E2.
  cbn [snd] in Hw2.
  rewrite (bind_eval _ _ _ _ _ E2). lazy head zeta beta.
  match goal with
  | |- context [pushMany (POPULATION_SIZE - length ?p) fresh ?p w2] =>
      destruct (pushMany_spec (POPULATION_SIZE - length p) fresh p w2 Hfresh Hw2)
        as [Hlen Hu];
      assert (Hp : (length p <= POPULATION_SIZE)%nat)
        by (rewrite length_map, length_firstn; apply Nat.le_min_l);
      destruct (pushMany (POPULATION_SIZE - length p) fresh p w2) as [pop w3]
  end.
  cbn [fst snd] in Hlen, Hu.
  exists pop, w3. split; [ reflexivity | split; [ lia | exact Hu ] ].
Qed.

(** In generation-count mode ([optDuration = 0]) [runOptimization] ends
    after exactly 100 generations and throws nowhere, for a path of at least
    3 points and a selected mechanism that exists: 101 passes of the loop
    are enough. *)
Theorem runOptimization_completes (mechanisms : list MechanismConfig)
    (selected : Ident) (seed : MechanismConfig) (path : list Point)
    (options : OptimizationOptions) (w : World) :
  (3 <= length path)%nat ->
  selected <> Named "" ->
  find (fun m => sameIdent (id m) selected) mechanisms = Some seed ->
  unitDraws w ->
  exists final w',
    runOptimization mechanisms (Some selected) path 0 options 101 w
    = (Ended (Done final), w')
    /\ generation final = DEFAULT_GENERATIONS.
Proof.
  intros Hpath Hsel Hfind Hw. unfold runOptimization.
  apply Nat.ltb_ge in Hpath. rewrite Hpath.
  assert (Hgo : forall (A : Type) (stop go : A),
             match selected with
             | Named EmptyString => stop
             | _ => go
             end = go).
  { intros A stop go. destruct selected as [[ | c s] | u];
      [ congruence | reflexivity | reflexivity ]. }
  rewrite Hgo, Hfind.
  destruct (seedPopulation_spec path options seed w Hw)
    as (pop & w1 & Eseed & Hlen & Hw1).
  rewrite (bind_eval _ _ _ _ _ Eseed).
  destruct pop as [ | best rest]; [ discriminate | ].
  unfold bind at 1. cbn [startEvolution]. unfold bind at 1.
  pose proof (keeps_dateNow w1 Hw1) as Hw2.
  destruct (dateNow w1) as [start w2]. cbn [snd] in Hw2. cbn [ret].
  set (env := mkSearch _ _ _ _ _ _). set (st := mkLoopState _ _ _ _ _).
  assert (Hmode : isTimeBound env = false).
  { unfold isTimeBound, env. cbn [timeLimit]. apply gtb_false_iff. lra. }
  destruct (evolve_completes env 100 st w2 Hmode eq_refl Hlen Hw2)
    as (final & w' & E & Hgen & _ & _).
  unfold bind. rewrite E. eexists; exists w'. split; reflexivity || exact Hgen.
Qed.

Lemma runOptimization_completes_witness :
  exists final w',
    runOptimization [presetCrankRocker] (Some (Named "p1"))
      cornerPath 0 (mkOptions None false None) 101 stillWorld
    = (Ended (Done final), w')
    /\ generation final = DEFAULT_GENERATIONS.
Proof.
  apply (runOptimization_completes [presetCrankRocker] (Named "p1")
           presetCrankRocker).
  - simpl; lia.
  - discriminate.
  - reflexivity.
  - exact stillWorld_unitDraws.
Defined.

(** The loop starts on whatever population is not empty; the limit of the
    run is [optDuration] seconds. *)
Lemma startEvolution_runs (path : list Point) (options : OptimizationOptions)
    (seed : MechanismConfig) (optDuration : R)
    (population : list MechanismConfig) (w : World) :
  population <> [] -> unitDraws w ->
  exists env st w0,
    startEvolution path options seed optDuration population w
    = (Some (env, st), w0)
    /\ timeLimit env = optDuration * 1000
    /\ App.population st = population /\ generation st = 0%nat
    /\ unitDraws w0.
Proof.
  intros Hpop Hw. destruct population as [ | best rest]; [ congruence | ].
  cbn [startEvolution]. unfold bind.
  pose proof (keeps_dateNow w Hw) as Hw0.
  destruct (dateNow w) as [start w0]. cbn [snd] in Hw0. cbn [ret].
  eexists. eexists. exists w0. split; [ reflexivity | ].
  cbn [timeLimit App.population generation]. auto.
Qed.

(** The claim on a run of the program: the seeding of a crank-rocker that
    stands at [(100, 50)], three generations, and the one after them. *)
Lemma global_best_never_regresses_witness :
  let options := mkOptions None false None in
  let seed := placeAt 100 50 30 presetCrankRocker in
  exists seeded w1 env st world0 stk wk stk1 wk1,
    seedPopulation cornerPath options seed cyclingWorld = (seeded, w1)
    /\ startEvolution cornerPath options seed 0 seeded w1
       = (Some (env, st), world0)
    /\ length (fst (bestScores env 3 st world0)) = 4%nat
    /\ nonIncreasing (fst (bestScores env 3 st world0))
    /\ generations env 3 st world0 = (Some stk, wk)
    /\ pass env stk wk = (Next stk1, wk1)
    /\ Num.le (globalBestScore stk1) (globalBestScore stk)
    /\ (globalBestScore stk1 <> globalBestScore stk ->
        Num.ltb (globalBestScore stk1) (globalBestScore stk) = true).
Proof.
  intros options seed.
  destruct (seedPopulation_spec cornerPath options seed cyclingWorld
              cyclingWorld_unitDraws) as (seeded & w1 & Eseed & Hlen & Hw1).
  assert (Hne : seeded <> []) by (intros E; rewrite E in Hlen; discriminate Hlen).
  destruct (startEvolution_runs cornerPath options seed 0 seeded w1 Hne Hw1)
    as (env & st & world0 & Estart & Hlimit & Hpop & Hgen & Hw0).
  assert (Hmode : isTimeBound env = false).
  { unfold isTimeBound. rewrite Hlimit. apply gtb_false_iff. lra. }
  rewrite <- Hpop in Hlen.
  destruct (generations_run env 3 st world0 Hmode
              ltac:(rewrite Hgen; unfold DEFAULT_GENERATIONS; lia) Hlen Hw0)
    as (stk & wk & Ek & Hgenk & Hlenk & Hwk).
  destruct (pass_runs env stk wk Hmode
              ltac:(rewrite Hgenk, Hgen; unfold DEFAULT_GENERATIONS; lia)
              Hlenk Hwk)
    as (stk1 & wk1 & Epass & _).
  destruct (global_best_never_regresses cornerPath options seed 0 seeded w1
              world0 env st 3 ltac:(simpl; lia) Estart) as [Hmono Hstep].
  exists seeded, w1, env, st, world0, stk, wk, stk1, wk1.
  split; [ exact Eseed | ]. split; [ exact Estart | ].
  split.
  { apply (bestScores_length env 3 100 st world0 Hmode);
      [ rewrite Hgen; reflexivity | lia | exact Hlen | exact Hw0 ]. }
  split; [ exact Hmono | ]. split; [ exact Ek | ]. split; [ exact Epass | ].
  exact (Hstep stk wk stk1 wk1 Ek Epass).
Defined.

(** * Further properties of the code *)

(** ** Directions and distances *)

Lemma unit_direction (t : R) : cos t * cos t + sin t * sin t = 1.
Proof.
  pose proof (sin2_cos2 t) as H. unfold Rsqr in H. lra.
Qed.

(** A point at polar offset [(r, t)] from [p] is [|r|] away from it. *)
Lemma dist_polar (p : Point) (r t : R) :
  dist p (mkPoint (x p + r * cos t) (y p + r * sin t)) = Rabs r.
Proof.
  unfold dist. cbn [x y].
  replace ((x p + r * cos t - x p) ^ 2 + (y p + r * sin t - y p) ^ 2)
    with (Rsqr r * (cos t * cos t + sin t * sin t)) by (unfold Rsqr; ring).
  rewrite unit_direction, Rmult_1_r. apply sqrt_Rsqr_abs.
Qed.

Lemma dist_sym (a b : Point) : dist a b = dist b a.
Proof.
  unfold dist. f_equal. ring.
Qed.

Lemma dist_nonneg (a b : Point) : 0 <= dist a b.
Proof.
  unfold dist. apply sqrt_pos.
Qed.

Lemma dist_triangle (a b c : Point) : dist a c <= dist a b + dist b c.
Proof.
  pose proof (triangle (x a) (y a) (x c) (y c) (x b) (y b)) as H.
  unfold dist_euc in H. unfold dist.
  replace ((x c - x a) ^ 2 + (y c - y a) ^ 2)
    with (Rsqr (x a - x c) + Rsqr (y a - y c)) by (unfold Rsqr; ring).
  replace ((x b - x a) ^ 2 + (y b - y a) ^ 2)
    with (Rsqr (x a - x b) + Rsqr (y a - y b)) by (unfold Rsqr; ring).
  replace ((x c - x b) ^ 2 + (y c - y b) ^ 2)
    with (Rsqr (x b - x c) + Rsqr (y b - y c)) by (unfold Rsqr; ring).
  exact H.
Qed.

Lemma hypot_factor (a b : R) :
  a <> 0 -> Js.hypot a b = Rabs a * sqrt (1 + Rsqr (b / a)).
Proof.
  intros Ha. unfold Js.hypot.
  rewrite <- (sqrt_Rsqr_abs a), <- sqrt_mult.
  - f_equal. unfold Rsqr. field. exact Ha.
  - apply Rle_0_sqr.
  - pose proof (Rle_0_sqr (b / a)). lra.
Qed.

Lemma hypot_nonneg (a b : R) : 0 <= Js.hypot a b.
Proof.
  unfold Js.hypot. apply sqrt_pos.
Qed.

Lemma hypot_sqr (a b : R) : Js.hypot a b * Js.hypot a b = a * a + b * b.
Proof.
  unfold Js.hypot. apply sqrt_sqrt.
  pose proof (Rle_0_sqr a). pose proof (Rle_0_sqr b). unfold Rsqr in *. lra.
Qed.

(** [Math.atan2(b, a)] is the direction of the vector [(a, b)]: scaled by
    the length of the vector, its cosine and sine give [a] and [b] back. *)
Lemma atan2_direction (b a : R) :
  Js.hypot a b * cos (Js.atan2 b a) = a
  /\ Js.hypot a b * sin (Js.atan2 b a) = b.
Proof.
  unfold Js.atan2.
  assert (Hroot : forall t, 0 < sqrt (1 + Rsqr t)).
  { intros t. apply sqrt_lt_R0. pose proof (Rle_0_sqr t). lra. }
  destruct (Js.ltb 0 a) eqn:E1; [ apply ltb_true_iff in E1 | apply ltb_false_iff in E1 ].
  - rewrite hypot_factor, cos_atan, sin_atan by lra.
    rewrite (Rabs_pos_eq a) by lra.
    pose proof (Hroot (b / a)) as Hs.
    split; field; repeat split; lra.
  - destruct (Js.ltb a 0) eqn:E2; [ apply ltb_true_iff in E2 | apply ltb_false_iff in E2 ].
    + rewrite hypot_factor by lra. rewrite (Rabs_left a) by lra.
      pose proof (Hroot (b / a)) as Hs.
      destruct (Js.geb b 0).
      * rewrite neg_cos, neg_sin, cos_atan, sin_atan. split; field; repeat split; lra.
      * replace (atan (b / a) - PI) with (- (- atan (b / a) + PI)) by ring.
        rewrite cos_neg, sin_neg, neg_cos, neg_sin, cos_neg, sin_neg,
          cos_atan, sin_atan.
        split; field; repeat split; lra.
    + assert (a = 0) by lra. subst a.
      assert (Hh : Js.hypot 0 b = Rabs b).
      { unfold Js.hypot. rewrite <- sqrt_Rsqr_abs. f_equal. unfold Rsqr. ring. }
      rewrite Hh.
      destruct (Js.ltb 0 b) eqn:E3; [ apply ltb_true_iff in E3 | apply ltb_false_iff in E3 ].
      * rewrite cos_PI2, sin_PI2, Rabs_pos_eq by lra. lra.
      * destruct (Js.ltb b 0) eqn:E4; [ apply ltb_true_iff in E4 | apply ltb_false_iff in E4 ].
        -- rewrite cos_neg, sin_neg, cos_PI2, sin_PI2, Rabs_left by lra. lra.
        -- assert (b = 0) by lra. subst b. rewrite Rabs_R0. lra.
Qed.

Lemma dist_hypot (a b : Point) : dist a b = Js.hypot (x b - x a) (y b - y a).
Proof.
  unfold dist, Js.hypot. f_equal. ring.
Qed.

(** The point at distance [dist a b] from [a], in the direction
    [Math.atan2] reads off [b - a], is [b]. *)
Lemma polar_round_trip (a b : Point) :
  let t := Js.atan2 (y b - y a) (x b - x a) in
  mkPoint (x a + dist a b * cos t) (y a + dist a b * sin t) = b.
Proof.
  intros t. subst t. rewrite dist_hypot.
  destruct (atan2_direction (y b - y a) (x b - x a)) as [-> ->].
  destruct b as [bx by_]. cbn [x y]. f_equal; ring.
Qed.

(** ** The joints of every variant *)

(** X1.  What every state has, whatever the variant and the pose: [P1] is the
    anchor; the crank pin [J1] is on the crank circle, [|crankLength|] away
    from [P1]; and a state that is not valid carries no computed joint,
    [J2] and the effector being the anchor. *)
Theorem every_state_has_its_crank (config : MechanismConfig) (crankAngleRad : R) :
  let s := calculateLinkage config crankAngleRad in
  p1 s = anchorOf config
  /\ dist (p1 s) (j1 s) = Rabs (crankLength config)
  /\ (isValid s = false -> j2 s = p1 s /\ effector s = p1 s).
Proof.
  assert (H : dist (anchorOf config) (crankTip config crankAngleRad)
              = Rabs (crankLength config)) by apply dist_polar.
  unfold calculateLinkage. cbv zeta.
  destruct (type config) as [[] | ];
    repeat match goal with
           | |- context [match ?e with Some _ => _ | None => _ end] => destruct e
           | |- context [if ?b then _ else _] => destruct b
           end; cbn [p1 j1 j2 effector isValid];
    (split; [ reflexivity | split; [ exact H | ] ]);
    intros Hv; solve [ discriminate Hv | split; reflexivity ].
Qed.

(** Coordinates in the frame of the track: a point given by its abscissa
    [u] along the track and its ordinate [v] across it. *)
Lemma alongTrack_of_local (config : MechanismConfig) (u v : R) :
  let t := toRad (groundAngle config ?? 0) in
  let p := anchorOf config in
  alongTrack config (mkPoint (x p + u * cos t - v * sin t)
                             (y p + u * sin t + v * cos t)) = u.
Proof.
  intros t p. unfold alongTrack. fold t p. cbn [x y].
  pose proof (unit_direction t).
  replace ((x p + u * cos t - v * sin t - x p) * cos t
           + (y p + u * sin t + v * cos t - y p) * sin t)
    with (u * (cos t * cos t + sin t * sin t)) by ring.
  rewrite H. ring.
Qed.

Lemma acrossTrack_of_local (config : MechanismConfig) (u v : R) :
  let t := toRad (groundAngle config ?? 0) in
  let p := anchorOf config in
  acrossTrack config (mkPoint (x p + u * cos t - v * sin t)
                              (y p + u * sin t + v * cos t)) = v.
Proof.
  intros t p. unfold acrossTrack. fold t p. cbn [x y].
  pose proof (unit_direction t).
  replace ((x p + u * cos t - v * sin t - x p) * - sin t
           + (y p + u * sin t + v * cos t - y p) * cos t)
    with (v * (cos t * cos t + sin t * sin t)) by ring.
  rewrite H. ring.
Qed.

(** A point is where its two track coordinates say. *)
Lemma local_round_trip (config : MechanismConfig) (q : Point) :
  let t := toRad (groundAngle config ?? 0) in
  let p := anchorOf config in
  mkPoint (x p + alongTrack config q * cos t - acrossTrack config q * sin t)
          (y p + alongTrack config q * sin t + acrossTrack config q * cos t)
  = q.
Proof.
  intros t p. unfold alongTrack, acrossTrack. fold t p.
  pose proof (unit_direction t).
  destruct q as [qx qy]. cbn [x y]. f_equal.
  - replace (x p + ((qx - x p) * cos t + (qy - y p) * sin t) * cos t
             - ((qx - x p) * - sin t + (qy - y p) * cos t) * sin t)
      with (x p + (qx - x p) * (cos t * cos t + sin t * sin t)) by ring.
    rewrite H. ring.
  - replace (y p + ((qx - x p) * cos t + (qy - y p) * sin t) * sin t
             + ((qx - x p) * - sin t + (qy - y p) * cos t) * cos t)
      with (y p + (qy - y p) * (cos t * cos t + sin t * sin t)) by ring.
    rewrite H. ring.
Qed.

(** Distances are the same in the two frames. *)
Lemma dist_in_track_frame (p : Point) (t u v u' v' : R) :
  dist (mkPoint (x p + u * cos t - v * sin t) (y p + u * sin t + v * cos t))
       (mkPoint (x p + u' * cos t - v' * sin t) (y p + u' * sin t + v' * cos t))
  = sqrt ((u' - u) ^ 2 + (v' - v) ^ 2).
Proof.
  unfold dist. cbn [x y]. f_equal.
  pose proof (unit_direction t).
  replace ((x p + u' * cos t - v' * sin t - (x p + u * cos t - v * sin t)) ^ 2
           + (y p + u' * sin t + v' * cos t - (y p + u * sin t + v * cos t)) ^ 2)
    with (((u' - u) ^ 2 + (v' - v) ^ 2) * (cos t * cos t + sin t * sin t))
    by ring.
  rewrite H. ring.
Qed.

(** The two local coordinates the piston and yoke branches compute for the
    crank pin are its track coordinates. *)
Lemma localJ1_track (config : MechanismConfig) (crankAngleRad : R) :
  let t := toRad (groundAngle config ?? 0) in
  let p := anchorOf config in
  let j := crankTip config crankAngleRad in
  (x j - x p) * cos (- t) - (y j - y p) * sin (- t) = alongTrack config j
  /\ (x j - x p) * sin (- t) + (y j - y p) * cos (- t) = acrossTrack config j.
Proof.
  intros t p j. unfold alongTrack, acrossTrack. fold t p.
  rewrite sin_neg, cos_neg. split; ring.
Qed.

(** X2.  The piston, in a valid state: the slider [J2] is on the track, at the
    ordinate [sliderOffset]; it is exactly [couplerLength] away from the
    crank pin, on the side of increasing abscissa; and [P2] is the slider. *)
Theorem piston_slider_on_track (config : MechanismConfig) (crankAngleRad : R) :
  type config = Some piston ->
  let s := calculateLinkage config crankAngleRad in
  isValid s = true ->
  acrossTrack config (j2 s) = sliderOffset config
  /\ dist (j1 s) (j2 s) = couplerLength config
  /\ alongTrack config (j1 s) <= alongTrack config (j2 s)
  /\ p2 s = j2 s.
Proof.
  intros Ht. unfold calculateLinkage. rewrite Ht. cbv zeta.
  destruct (localJ1_track config crankAngleRad) as [-> ->].
  rewrite orNum_zero.
  set (J1 := crankTip config crankAngleRad).
  set (u := alongTrack config J1). set (v := acrossTrack config J1).
  destruct (Js.gtb (Rabs (sliderOffset config - v)) (couplerLength config)) eqn:E;
    cbn [isValid j1 j2 p2]; [ discriminate | intros _ ].
  apply gtb_false_iff in E.
  set (link := sqrt _).
  assert (Hlink : 0 <= link) by apply sqrt_pos.
  rewrite acrossTrack_of_local, alongTrack_of_local.
  fold u. repeat split; [ | lra ].
  rewrite <- (local_round_trip config J1) at 1. fold u v.
  rewrite dist_in_track_frame.
  assert (Hk : 0 <= couplerLength config)
    by (pose proof (Rabs_pos (sliderOffset config - v)); lra).
  assert (Hsq : (sliderOffset config - v) * (sliderOffset config - v)
                <= couplerLength config * couplerLength config).
  { rewrite <- (Rabs_pos_eq (couplerLength config)) by exact Hk.
    pose proof (Rabs_pos (sliderOffset config - v)).
    replace ((sliderOffset config - v) * (sliderOffset config - v))
      with (Rabs (sliderOffset config - v) * Rabs (sliderOffset config - v)).
    - rewrite (Rabs_pos_eq (couplerLength config)) by exact Hk.
      apply Rmult_le_compat; lra.
    - rewrite <- Rabs_mult. apply Rabs_pos_eq.
      pose proof (Rle_0_sqr (sliderOffset config - v)). unfold Rsqr in *. lra. }
  replace ((u + link - u) ^ 2 + (sliderOffset config - v) ^ 2)
    with (link * link + (sliderOffset config - v) * (sliderOffset config - v))
    by ring.
  unfold link. rewrite sqrt_sqrt by lra.
  replace (couplerLength config * couplerLength config
           - (sliderOffset config - v) * (sliderOffset config - v)
           + (sliderOffset config - v) * (sliderOffset config - v))
    with (couplerLength config * couplerLength config) by ring.
  apply sqrt_square. exact Hk.
Qed.

(** Concrete poses used below. *)
Lemma toRad_0 : toRad 0 = 0.
Proof.
  unfold toRad. lra.
Qed.

Lemma presetPiston_valid_at_0 : isValid (calculateLinkage presetPiston 0) = true.
Proof.
  unfold calculateLinkage. cbn [type presetPiston]. cbv zeta.
  destruct (localJ1_track presetPiston 0) as [_ ->].
  unfold acrossTrack, crankTip, anchorOf.
  cbn [groundAngle anchorX anchorY speed1 crankLength sliderOffset couplerLength
       presetPiston Js.nullish x y].
  rewrite toRad_0, Rmult_0_l, cos_0, sin_0, orNum_zero.
  replace (Rabs (40 - ((0 + 60 * 1 - 0) * - 0 + (0 + 60 * 0 - 0) * 1)))
    with 40 by (rewrite Rabs_pos_eq; lra).
  rewrite (proj2 (gtb_false_iff 40 160)) by lra. reflexivity.
Qed.

Lemma piston_slider_on_track_witness :
  let s := calculateLinkage presetPiston 0 in
  acrossTrack presetPiston (j2 s) = sliderOffset presetPiston
  /\ dist (j1 s) (j2 s) = couplerLength presetPiston
  /\ alongTrack presetPiston (j1 s) <= alongTrack presetPiston (j2 s)
  /\ p2 s = j2 s.
Proof.
  apply (piston_slider_on_track presetPiston 0).
  - reflexivity.
  - exact presetPiston_valid_at_0.
Defined.

(** X3.  The Scotch yoke: the slider [J2] is the foot of the perpendicular from
    the crank pin to the track, so its abscissa along the track is the
    sinusoid [crankLength * cos (angle * speed1 - trackAngle)]. *)
Theorem yoke_slider_is_projection (config : MechanismConfig) (crankAngleRad : R) :
  type config = Some yoke ->
  let s := calculateLinkage config crankAngleRad in
  acrossTrack config (j2 s) = sliderOffset config
  /\ alongTrack config (j2 s) = alongTrack config (j1 s)
  /\ alongTrack config (j2 s)
     = crankLength config
       * cos (crankAngleRad * (speed1 config ?? 1)
              - toRad (groundAngle config ?? 0)).
Proof.
  intros Ht. unfold calculateLinkage. rewrite Ht. cbv zeta. cbn [j1 j2].
  destruct (localJ1_track config crankAngleRad) as [-> _].
  rewrite orNum_zero, acrossTrack_of_local, alongTrack_of_local.
  repeat split.
  unfold alongTrack, crankTip. cbn [x y]. rewrite cos_minus. ring.
Qed.

Lemma yoke_slider_is_projection_witness :
  let s := calculateLinkage presetYoke 0 in
  acrossTrack presetYoke (j2 s) = sliderOffset presetYoke
  /\ alongTrack presetYoke (j2 s) = alongTrack presetYoke (j1 s)
  /\ alongTrack presetYoke (j2 s)
     = crankLength presetYoke
       * cos (0 * (speed1 presetYoke ?? 1) - toRad (groundAngle presetYoke ?? 0)).
Proof.
  apply (yoke_slider_is_projection presetYoke 0). reflexivity.
Defined.

(** X4.  The quick-return: the arm has length [|rockerLength|], and it passes
    through the crank pin: [J2 - P2] is [rockerLength / dist P2 J1] times
    [J1 - P2]. *)
Theorem quick_return_arm_through_pin (config : MechanismConfig) (crankAngleRad : R) :
  type config = Some quick_return ->
  let s := calculateLinkage config crankAngleRad in
  dist (p2 s) (j2 s) = Rabs (rockerLength config)
  /\ dist (p2 s) (j1 s) * (x (j2 s) - x (p2 s))
     = rockerLength config * (x (j1 s) - x (p2 s))
  /\ dist (p2 s) (j1 s) * (y (j2 s) - y (p2 s))
     = rockerLength config * (y (j1 s) - y (p2 s)).
Proof.
  intros Ht. unfold calculateLinkage. rewrite Ht. cbv zeta. cbn [p2 j1 j2].
  set (J1 := crankTip config crankAngleRad).
  set (P2 := mkPoint _ _).
  split; [ apply dist_polar | ].
  rewrite dist_hypot.
  destruct (atan2_direction (y J1 - y P2) (x J1 - x P2)) as [Hc Hs].
  set (arm := Js.atan2 _ _) in *. set (r := Js.hypot _ _) in *.
  cbn [x y]. split.
  - replace (r * (x P2 + rockerLength config * cos arm - x P2))
      with (rockerLength config * (r * cos arm)) by ring.
    rewrite Hc. reflexivity.
  - replace (r * (y P2 + rockerLength config * sin arm - y P2))
      with (rockerLength config * (r * sin arm)) by ring.
    rewrite Hs. reflexivity.
Qed.

(** X5.  The effector is rigidly attached: in a valid state it is
    [|couplerPointDist|] away from the joint that carries it, the crank pin
    for a four-bar and a piston, [J2] for a yoke, a quick-return and a
    five-bar; for a crank it is the crank pin. *)
Theorem effector_rigidly_attached (config : MechanismConfig) (crankAngleRad : R) :
  let s := calculateLinkage config crankAngleRad in
  isValid s = true ->
  match type config with
  | Some crank => effector s = j1 s
  | Some fourbar | Some piston =>
      dist (j1 s) (effector s) = Rabs (couplerPointDist config)
  | _ => dist (j2 s) (effector s) = Rabs (couplerPointDist config)
  end.
Proof.
  unfold calculateLinkage. cbv zeta.
  destruct (type config) as [[] | ];
    repeat match goal with
           | |- context [match ?e with Some _ => _ | None => _ end] => destruct e
           | |- context [if ?b then _ else _] => destruct b
           end; cbn [isValid j1 j2 effector]; intros H;
    solve [ discriminate H | reflexivity | apply dist_polar ].
Qed.

Lemma effector_rigidly_attached_witness :
  let s := calculateLinkage presetPiston 0 in
  dist (j1 s) (effector s) = Rabs (couplerPointDist presetPiston).
Proof.
  exact (effector_rigidly_attached presetPiston 0 presetPiston_valid_at_0).
Defined.

Lemma quick_return_arm_through_pin_witness :
  let s := calculateLinkage plainQuickReturn 0 in
  dist (p2 s) (j2 s) = Rabs (rockerLength plainQuickReturn)
  /\ dist (p2 s) (j1 s) * (x (j2 s) - x (p2 s))
     = rockerLength plainQuickReturn * (x (j1 s) - x (p2 s))
  /\ dist (p2 s) (j1 s) * (y (j2 s) - y (p2 s))
     = rockerLength plainQuickReturn * (y (j1 s) - y (p2 s)).
Proof.
  apply (quick_return_arm_through_pin plainQuickReturn 0). reflexivity.
Defined.

(** ** Symmetries of the solver *)

(** X6.  Exchanging the two circles exchanges the two intersection points: the
    point [flip] selects for [(c1, r1), (c0, r0)] is the one [not flip]
    selects for [(c0, r0), (c1, r1)], and the two calls are rejected
    together. *)
Theorem getCircleIntersection_swap
    (c0 : Point) (r0 : R) (c1 : Point) (r1 : R) (flip : bool) :
  getCircleIntersection c1 r1 c0 r0 flip
  = getCircleIntersection c0 r0 c1 r1 (negb flip).
Proof.
  unfold getCircleIntersection. cbv zeta.
  replace ((x c0 - x c1) * (x c0 - x c1) + (y c0 - y c1) * (y c0 - y c1))
    with ((x c1 - x c0) * (x c1 - x c0) + (y c1 - y c0) * (y c1 - y c0)) by ring.
  set (d := sqrt _).
  replace (r1 + r0 + EPSILON) with (r0 + r1 + EPSILON) by ring.
  rewrite (Rabs_minus_sym r1 r0).
  destruct (Js.gtb d (r0 + r1 + EPSILON) || Js.ltb d (Rabs (r0 - r1) - EPSILON)
            || Js.eqb d 0) eqn:E; [ reflexivity | ].
  apply orb_false_elim in E. destruct E as [_ E]. apply eqb_false_iff in E.
  set (a := (r0 * r0 - r1 * r1 + d * d) / (2 * d)).
  set (a' := (r1 * r1 - r0 * r0 + d * d) / (2 * d)).
  assert (Ha : a' = d - a) by (unfold a, a'; field; exact E).
  assert (Hh : r1 * r1 - a' * a' = r0 * r0 - a * a)
    by (rewrite Ha; unfold a; field; exact E).
  rewrite Hh. set (h := sqrt (Rmax 0 _)).
  destruct flip; cbn [negb]; f_equal; f_equal; rewrite Ha; field; exact E.
Qed.

Lemma cos_turns (t : R) (k : Z) : cos (t + 2 * PI * IZR k) = cos t.
Proof.
  destruct (Z_le_gt_dec 0 k) as [Hk | Hk].
  - rewrite <- (Z2Nat.id k Hk), <- INR_IZR_INZ.
    replace (t + 2 * PI * INR (Z.to_nat k)) with (t + 2 * INR (Z.to_nat k) * PI)
      by ring.
    apply cos_period.
  - assert (Hn : (0 <= - k)%Z) by lia.
    rewrite <- (cos_period (t + 2 * PI * IZR k) (Z.to_nat (- k))).
    f_equal. rewrite INR_IZR_INZ, (Z2Nat.id _ Hn), opp_IZR. ring.
Qed.

Lemma sin_turns (t : R) (k : Z) : sin (t + 2 * PI * IZR k) = sin t.
Proof.
  destruct (Z_le_gt_dec 0 k) as [Hk | Hk].
  - rewrite <- (Z2Nat.id k Hk), <- INR_IZR_INZ.
    replace (t + 2 * PI * INR (Z.to_nat k)) with (t + 2 * INR (Z.to_nat k) * PI)
      by ring.
    apply sin_period.
  - assert (Hn : (0 <= - k)%Z) by lia.
    rewrite <- (sin_period (t + 2 * PI * IZR k) (Z.to_nat (- k))).
    f_equal. rewrite INR_IZR_INZ, (Z2Nat.id _ Hn), opp_IZR. ring.
Qed.

Lemma linkage_period
    (config : MechanismConfig) (crankAngleRad T : R) (k1 k2 : Z) :
  (speed1 config ?? 1) * T = 2 * PI * IZR k1 ->
  (typeIs config fivebar = true ->
   (speed2 config ?? (gearRatio config ?? 1)) * T = 2 * PI * IZR k2) ->
  calculateLinkage config (crankAngleRad + T) = calculateLinkage config crankAngleRad.
Proof.
  intros H1 H2.
  assert (Ej : crankTip config (crankAngleRad + T) = crankTip config crankAngleRad).
  { unfold crankTip. cbv zeta.
    replace ((crankAngleRad + T) * (speed1 config ?? 1))
      with (crankAngleRad * (speed1 config ?? 1) + 2 * PI * IZR k1)
      by (rewrite <- H1; ring).
    rewrite cos_turns, sin_turns. reflexivity. }
  unfold calculateLinkage. rewrite Ej.
  destruct (type config) as [[] | ] eqn:Ht; try reflexivity.
  assert (E2 : (crankAngleRad + T) * (speed2 config ?? (gearRatio config ?? 1))
               + (phase config ?? 0)
               = crankAngleRad * (speed2 config ?? (gearRatio config ?? 1))
                 + (phase config ?? 0) + 2 * PI * IZR k2).
  { rewrite <- H2 by (unfold typeIs; rewrite Ht; reflexivity). ring. }
  cbv zeta. rewrite E2, cos_turns, sin_turns. reflexivity.
Qed.

(** X7.
    The pose repeats.  Advancing the drive angle by [T] gives the same state
    when the primary gear makes a whole number of turns over [T], and, for a
    five-bar, the secondary gear does too. *)
Theorem calculateLinkage_periodic
    (config : MechanismConfig) (crankAngleRad T : R) (k1 k2 : Z) :
  (speed1 config ?? 1) * T = 2 * PI * IZR k1 ->
  (typeIs config fivebar = true ->
   (speed2 config ?? (gearRatio config ?? 1)) * T = 2 * PI * IZR k2) ->
  calculateLinkage config (crankAngleRad + T) = calculateLinkage config crankAngleRad.
Proof.
  apply linkage_period.
Qed.

(** The geared preset, whose secondary gear runs at 1.5, repeats after two
    turns. *)
Lemma calculateLinkage_periodic_witness :
  calculateLinkage presetGeared (0 + 4 * PI) = calculateLinkage presetGeared 0.
Proof.
  apply (calculateLinkage_periodic presetGeared 0 (4 * PI) 2 3).
  - cbn [speed1 presetGeared Js.nullish]. lra.
  - intros _. cbn [speed2 presetGeared Js.nullish]. lra.
Defined.

(** ** The intersection finds the point it is given *)

Lemma dist_sqr (a b : Point) :
  dist a b * dist a b = (x b - x a) * (x b - x a) + (y b - y a) * (y b - y a).
Proof.
  unfold dist. rewrite sqrt_sqrt; [ ring | ].
  pose proof (pow2_ge_0 (x b - x a)). pose proof (pow2_ge_0 (y b - y a)). lra.
Qed.

(** Two circles drawn through a point [q] about two distinct centers are
    never rejected; the point returned is as far from the two centers as [q]
    is, and it is [q] when [q] is on the side [flip] selects. *)
Lemma circles_through_a_point (c0 c1 q : Point) (flip : bool) :
  c0 <> c1 ->
  exists r,
    getCircleIntersection c0 (dist c0 q) c1 (dist c1 q) flip = Some r
    /\ dist c0 r = dist c0 q /\ dist c1 r = dist c1 q
    /\ ((if flip then 0 <= sideOf c0 c1 q else sideOf c0 c1 q <= 0) -> r = q).
Proof.
  intros Hne.
  set (r0 := dist c0 q). set (r1 := dist c1 q).
  set (d := centerDistance c0 c1).
  assert (Hd : 0 < d).
  { pose proof (centerDistance_nonneg c0 c1) as H0. fold d in H0.
    destruct (Req_dec_T d 0) as [E | E]; [ | lra ].
    apply centerDistance_zero_iff in E. contradiction. }
  assert (Htri : d <= r0 + r1 /\ Rabs (r0 - r1) <= d).
  { unfold d, r0, r1. rewrite <- dist_centerDistance.
    pose proof (dist_triangle c0 q c1) as T1.
    pose proof (dist_triangle c0 c1 q) as T2.
    pose proof (dist_triangle c1 c0 q) as T3.
    rewrite (dist_sym q c1) in T1. rewrite (dist_sym c1 c0) in T3.
    split; [ lra | apply Rabs_le; lra ]. }
  destruct Htri as [Hfar Hnear].
  destruct (getCircleIntersection c0 r0 c1 r1 flip) as [r | ] eqn:E.
  2: { apply getCircleIntersection_none_rejected in E. fold d in E.
       destruct E as [E | [E | E]]; lra. }
  exists r. split; [ reflexivity | ].
  destruct (intersection_distances _ _ _ _ _ _ E) as [E0 E1].
  destruct (exact_when_meeting d r0 r1 Hd Hnear Hfar) as [X0 X1].
  fold d in E0, E1. cbv zeta in X0, X1.
  split; [ rewrite E0; exact X0 | ]. split; [ rewrite E1; exact X1 | ].
  intros Hside.
  destruct (getCircleIntersection_some _ _ _ _ _ _ E) as [_ ->].
  fold d.
  set (dx := x c1 - x c0). set (dy := y c1 - y c0).
  set (ux := x q - x c0). set (uy := y q - y c0).
  assert (Hd2 : d * d = dx * dx + dy * dy) by apply centerDistance_sqr.
  assert (H0 : r0 * r0 = ux * ux + uy * uy) by apply dist_sqr.
  assert (H1 : r1 * r1 = (ux - dx) * (ux - dx) + (uy - dy) * (uy - dy)).
  { unfold r1. rewrite dist_sqr. unfold ux, uy, dx, dy. ring. }
  set (cross := dx * uy - dy * ux).
  assert (Hcross : sideOf c0 c1 q = cross) by reflexivity.
  rewrite Hcross in Hside.
  assert (Ha : chordFoot d r0 r1 = (ux * dx + uy * dy) / d).
  { unfold chordFoot. rewrite H0, H1, Hd2. field. lra. }
  assert (Hh2 : r0 * r0 - chordFoot d r0 r1 * chordFoot d r0 r1
                = Rsqr (cross / d)).
  { apply (Rmult_eq_reg_r (d * d)); [ | nra ].
    transitivity (cross * cross).
    - rewrite Ha, H0.
      replace (((ux * ux + uy * uy)
                - (ux * dx + uy * dy) / d * ((ux * dx + uy * dy) / d)) * (d * d))
        with ((ux * ux + uy * uy) * (d * d)
              - (ux * dx + uy * dy) * (ux * dx + uy * dy)) by (field; lra).
      rewrite Hd2. unfold cross. ring.
    - unfold Rsqr. field. lra. }
  assert (Hh : halfChord d r0 r1 = Rabs cross / d).
  { unfold halfChord. rewrite Hh2, Rmax_right by apply Rle_0_sqr.
    rewrite sqrt_Rsqr_abs. unfold Rdiv.
    rewrite Rabs_mult, (Rabs_pos_eq (/ d)); [ reflexivity | ].
    left. apply Rinv_0_lt_compat. exact Hd. }
  rewrite Ha, Hh.
  assert (Ex : dx * (ux * dx + uy * dy) - cross * dy = ux * (d * d))
    by (rewrite Hd2; unfold cross; ring).
  assert (Ey : dy * (ux * dx + uy * dy) + cross * dx = uy * (d * d))
    by (rewrite Hd2; unfold cross; ring).
  destruct q as [qx qy]. cbn [x y] in *.
  destruct flip.
  - rewrite (Rabs_pos_eq cross) by exact Hside. f_equal.
    + replace (x c0 + dx * ((ux * dx + uy * dy) / d) / d - cross / d * dy / d)
        with (x c0 + (dx * (ux * dx + uy * dy) - cross * dy) / (d * d))
        by (field; lra).
      rewrite Ex. unfold ux. field. lra.
    + replace (y c0 + dy * ((ux * dx + uy * dy) / d) / d + cross / d * dx / d)
        with (y c0 + (dy * (ux * dx + uy * dy) + cross * dx) / (d * d))
        by (field; lra).
      rewrite Ey. unfold uy. field. lra.
  - rewrite (Rabs_left1 cross) by exact Hside. f_equal.
    + replace (x c0 + dx * ((ux * dx + uy * dy) / d) / d + - cross / d * dy / d)
        with (x c0 + (dx * (ux * dx + uy * dy) - cross * dy) / (d * d))
        by (field; lra).
      rewrite Ex. unfold ux. field. lra.
    + replace (y c0 + dy * ((ux * dx + uy * dy) / d) / d - - cross / d * dx / d)
        with (y c0 + (dy * (ux * dx + uy * dy) + cross * dx) / (d * d))
        by (field; lra).
      rewrite Ey. unfold uy. field. lra.
Qed.

(** X8.  A point on both circles is found.  For two distinct centers and the two
    circles about them through a point [q], never mind how large,
    [getCircleIntersection] returns a point for either value of [flip], and
    one of the two is [q]: the one for [flip = false] when [q] is on the
    right of the line from the first center to the second, the one for
    [flip = true] when it is on the left. *)
Theorem getCircleIntersection_finds_a_common_point (c0 c1 q : Point) :
  c0 <> c1 ->
  exists r r',
    getCircleIntersection c0 (dist c0 q) c1 (dist c1 q) false = Some r
    /\ getCircleIntersection c0 (dist c0 q) c1 (dist c1 q) true = Some r'
    /\ (sideOf c0 c1 q <= 0 -> r = q)
    /\ (0 <= sideOf c0 c1 q -> r' = q).
Proof.
  intros Hne.
  destruct (circles_through_a_point c0 c1 q false Hne) as (r & E & _ & _ & H).
  destruct (circles_through_a_point c0 c1 q true Hne) as (r' & E' & _ & _ & H').
  exists r, r'. auto.
Qed.

Lemma getCircleIntersection_finds_a_common_point_witness :
  let c0 := mkPoint 0 0 in
  let c1 := mkPoint 6 0 in
  let q := mkPoint 3 4 in
  exists r r',
    getCircleIntersection c0 (dist c0 q) c1 (dist c1 q) false = Some r
    /\ getCircleIntersection c0 (dist c0 q) c1 (dist c1 q) true = Some r'
    /\ (sideOf c0 c1 q <= 0 -> r = q)
    /\ (0 <= sideOf c0 c1 q -> r' = q).
Proof.
  apply (getCircleIntersection_finds_a_common_point
           (mkPoint 0 0) (mkPoint 6 0) (mkPoint 3 4)).
  intros H. injection H as H. lra.
Defined.

(** ** Moving the anchor *)

Lemma moveBy_dx (t a b : Point) : x (moveBy t a) - x (moveBy t b) = x a - x b.
Proof.
  unfold moveBy. cbn [x]. ring.
Qed.

Lemma moveBy_dy (t a b : Point) : y (moveBy t a) - y (moveBy t b) = y a - y b.
Proof.
  unfold moveBy. cbn [y]. ring.
Qed.

Lemma moveBy_polar (t q : Point) (r a : R) :
  mkPoint (x (moveBy t q) + r * cos a) (y (moveBy t q) + r * sin a)
  = moveBy t (mkPoint (x q + r * cos a) (y q + r * sin a)).
Proof.
  unfold moveBy. cbn [x y]. f_equal; ring.
Qed.

Lemma moveBy_local (t q : Point) (u v a : R) :
  mkPoint (x (moveBy t q) + u * cos a - v * sin a)
          (y (moveBy t q) + u * sin a + v * cos a)
  = moveBy t (mkPoint (x q + u * cos a - v * sin a)
                      (y q + u * sin a + v * cos a)).
Proof.
  unfold moveBy. cbn [x y]. f_equal; ring.
Qed.

(** Moving both centers moves the intersection. *)
Lemma getCircleIntersection_moved (t c0 c1 : Point) (r0 r1 : R) (flip : bool) :
  getCircleIntersection (moveBy t c0) r0 (moveBy t c1) r1 flip
  = option_map (moveBy t) (getCircleIntersection c0 r0 c1 r1 flip).
Proof.
  unfold getCircleIntersection. rewrite moveBy_dx, moveBy_dy. cbv zeta.
  destruct (Js.gtb _ _ || Js.ltb _ _ || Js.eqb _ 0); [ reflexivity | ].
  destruct flip; cbn [option_map]; f_equal; unfold moveBy; cbn [x y];
    f_equal; ring.
Qed.

Lemma anchorOf_moved (t : Point) (c : MechanismConfig) :
  anchorOf (moveAnchor t c) = moveBy t (anchorOf c).
Proof.
  reflexivity.
Qed.

Lemma crankTip_moved (t : Point) (c : MechanismConfig) (crankAngleRad : R) :
  crankTip (moveAnchor t c) crankAngleRad = moveBy t (crankTip c crankAngleRad).
Proof.
  unfold crankTip. cbv zeta. rewrite anchorOf_moved.
  change (speed1 (moveAnchor t c)) with (speed1 c).
  change (crankLength (moveAnchor t c)) with (crankLength c).
  apply moveBy_polar.
Qed.

(** The solver is indifferent to where the mechanism stands: moving the
    anchor moves every joint by the same vector and changes nothing
    else. *)
Lemma linkage_moves_with_the_anchor (t : Point) (c : MechanismConfig)
    (crankAngleRad : R) :
  calculateLinkage (moveAnchor t c) crankAngleRad
  = moveState t (calculateLinkage c crankAngleRad).
Proof.
  unfold calculateLinkage.
  rewrite crankTip_moved, anchorOf_moved.
  change (type (moveAnchor t c)) with (type c).
  change (groundAngle (moveAnchor t c)) with (groundAngle c).
  change (groundLength (moveAnchor t c)) with (groundLength c).
  change (couplerLength (moveAnchor t c)) with (couplerLength c).
  change (rockerLength (moveAnchor t c)) with (rockerLength c).
  change (sliderOffset (moveAnchor t c)) with (sliderOffset c).
  change (couplerPointDist (moveAnchor t c)) with (couplerPointDist c).
  change (couplerPointAngle (moveAnchor t c)) with (couplerPointAngle c).
  change (speed2 (moveAnchor t c)) with (speed2 c).
  change (gearRatio (moveAnchor t c)) with (gearRatio c).
  change (rodLength (moveAnchor t c)) with (rodLength c).
  change (phase (moveAnchor t c)) with (phase c).
  set (P1 := anchorOf c). set (J1 := crankTip c crankAngleRad).
  destruct (type c) as [[] | ]; cbv zeta; try reflexivity.
  - (* four-bar *)
    rewrite moveBy_polar, getCircleIntersection_moved.
    destruct (getCircleIntersection J1 _ _ _ false) as [J2 | ];
      cbn [option_map]; [ | reflexivity ].
    rewrite moveBy_dx, moveBy_dy, moveBy_polar. reflexivity.
  - (* piston *)
    rewrite !moveBy_dx, !moveBy_dy.
    destruct (Js.gtb _ _); rewrite !moveBy_local; [ reflexivity | ].
    rewrite moveBy_dx, moveBy_dy, moveBy_polar. reflexivity.
  - (* yoke *)
    rewrite !moveBy_dx, !moveBy_dy, !moveBy_local, moveBy_polar. reflexivity.
  - (* quick-return *)
    rewrite moveBy_local, moveBy_dx, moveBy_dy, !moveBy_polar. reflexivity.
  - (* five-bar *)
    rewrite !moveBy_polar, getCircleIntersection_moved.
    destruct (getCircleIntersection J1 _ _ _ false) as [J2 | ];
      cbn [option_map]; [ | reflexivity ].
    rewrite moveBy_dx, moveBy_dy, moveBy_polar. reflexivity.
Qed.

(** X9.  The solver is indifferent to where the mechanism stands.  Adding a
    vector to the anchor adds it to every point of the state, [P1], [P2],
    [J1], [J2], the secondary crank pin and the effector, and leaves the
    validity as it was: for every variant, angle and pose. *)
Theorem calculateLinkage_moves_with_the_anchor (t : Point) (config : MechanismConfig)
    (crankAngleRad : R) :
  calculateLinkage (moveAnchor t config) crankAngleRad
  = moveState t (calculateLinkage config crankAngleRad).
Proof.
  apply linkage_moves_with_the_anchor.
Qed.

(** ** The animation step *)

Lemma trunc_bounds (v : R) : -1 < v - IZR (Js.trunc v) < 1.
Proof.
  unfold Js.trunc.
  destruct (Js.ltb v 0) eqn:E; [ apply ltb_true_iff in E | apply ltb_false_iff in E ].
  - pose proof (Zfloor_bound (- v)) as [H1 H2]. rewrite opp_IZR. lra.
  - pose proof (Zfloor_bound v) as [H1 H2]. lra.
Qed.

Lemma rem_bound (a b : R) : 0 < b -> Rabs (Js.rem a b) < b.
Proof.
  intros Hb. unfold Js.rem.
  pose proof (trunc_bounds (a / b)) as [H1 H2].
  set (n := IZR (Js.trunc (a / b))) in *.
  replace (a - b * n) with (b * (a / b - n)) by (field; lra).
  rewrite Rabs_mult, (Rabs_pos_eq b) by lra.
  assert (Hlt : Rabs (a / b - n) < 1) by (apply Rabs_def1; lra).
  apply (Rlt_le_trans _ (b * 1)); [ | lra ].
  apply Rmult_lt_compat_l; assumption.
Qed.

(** X10.
    The wrap of the drive angle is not seen.  The animation wraps the angle
    at eight turns; for a mechanism whose gear speeds are whole multiples of
    1/8 (every preset of the application) the pose at the wrapped angle is
    the pose at the angle that was not wrapped.  The wrapped angle is within
    eight turns of 0. *)
Theorem the_wrap_of_the_drive_angle_is_not_seen
    (config : MechanismConfig) (speed angle : R) (k1 k2 : Z) :
  8 * (speed1 config ?? 1) = IZR k1 ->
  (typeIs config fivebar = true ->
   8 * (speed2 config ?? (gearRatio config ?? 1)) = IZR k2) ->
  let next := animate speed true false false angle in
  calculateLinkage config next = calculateLinkage config (angle + speed * 0.05)
  /\ Rabs next < 16 * PI.
Proof.
  intros H1 H2 next. subst next. unfold animate. cbn [andb negb].
  pose proof PI_RGT_0 as Hpi. split.
  - unfold Js.rem.
    set (n := Js.trunc ((angle + speed * 0.05) / (PI * 16))).
    replace (angle + speed * 0.05 - PI * 16 * IZR n)
      with (angle + speed * 0.05 + - (PI * 16 * IZR n)) by ring.
    apply (linkage_period config _ _ (- (n * k1)) (- (n * k2))).
    + rewrite opp_IZR, mult_IZR, <- H1. ring.
    + intros Ht. rewrite opp_IZR, mult_IZR, <- (H2 Ht). ring.
  - replace (16 * PI) with (PI * 16) by ring. apply rem_bound. lra.
Qed.

Lemma the_wrap_of_the_drive_angle_is_not_seen_witness :
  let next := animate 1 true false false 50.25 in
  calculateLinkage presetGeared next = calculateLinkage presetGeared (50.25 + 1 * 0.05)
  /\ Rabs next < 16 * PI.
Proof.
  apply (the_wrap_of_the_drive_angle_is_not_seen presetGeared 1 50.25 8 12).
  - cbn [speed1 presetGeared Js.nullish]. lra.
  - intros _. cbn [speed2 presetGeared Js.nullish]. lra.
Defined.

(** ** What the repairer does to the two arms *)

Lemma orElse_pos (rod : option R) :
  (forall u, rod = Some u -> 0 <= u) -> 0 < Js.orElse rod 100.
Proof.
  intros H. destruct rod as [u | ]; simpl; [ | lra ].
  specialize (H u eq_refl). unfold Js.orNum, Js.truthy.
  destruct (Js.eqb u 0) eqn:E; cbn [negb]; [ lra | ].
  apply eqb_false_iff in E. lra.
Qed.

(** The coupler and the effective rod of a repaired five-bar, against the
    ones it was given. *)
Lemma enforce_arms (conf : MechanismConfig) :
  typeIs conf fivebar = true -> nonNegativeLengths conf ->
  let r := enforceFiveBarConstraints conf in
  let arm := couplerLength conf + Js.orElse (rodLength conf) 100 in
  let arm' := couplerLength r + Js.orElse (rodLength r) 100 in
  arm <= arm'
  /\ 1.15 * (groundLength conf + crankLength conf + rockerLength conf) <= arm'
  /\ Rabs (couplerLength r - Js.orElse (rodLength r) 100)
     <= Rabs (couplerLength conf - Js.orElse (rodLength conf) 100)
  /\ 0 <= couplerLength r /\ 0 < Js.orElse (rodLength r) 100.
Proof.
  intros Ht (Hc & Hg & Hk & Hr & Hrod). cbv zeta.
  unfold enforceFiveBarConstraints. rewrite Ht. cbn [negb]. cbv zeta.
  apply orElse_pos in Hrod.
  destruct conf as [i t v c ax ay ga cl gl kl rl so cd ca s1 s2 gr rod ph sg og].
  cbn [crankLength groundLength couplerLength rockerLength rodLength]
    in Hc, Hg, Hk, Hr, Hrod.
  clear Ht. cbn [crankLength groundLength couplerLength rockerLength rodLength].
  set (rho := Js.orElse rod 100) in *.
  rewrite (Rabs_pos_eq gl), (Rabs_pos_eq cl), (Rabs_pos_eq rl),
    (Rabs_pos_eq kl), (Rabs_pos_eq rho) by lra.
  assert (Habs : forall u, Rabs (u / 2) <= Rabs u).
  { intros u. unfold Rabs.
    destruct (Rcase_abs (u / 2)), (Rcase_abs u); lra. }
  destruct (Js.ltb (kl + rho) ((gl + cl + rl) * 1.15)) eqn:E1.
  - apply ltb_true_iff in E1.
    cbn [crankLength groundLength couplerLength rockerLength rodLength
         set_couplerLength set_rodLength Js.orElse].
    fold rho.
    set (half := ((gl + cl + rl) * 1.15 - (kl + rho)) / 2) in *.
    assert (Hhalf : 0 < half) by (unfold half; lra).
    rewrite !(orNum_nonzero (rho + half)) by lra.
    match goal with |- context [Js.gtb ?a ?b] => destruct (Js.gtb a b) end.
    + cbn [crankLength groundLength couplerLength rockerLength rodLength
           set_couplerLength set_rodLength Js.orElse].
      rewrite (orNum_nonzero ((rho + half + (kl + half + (rho + half)) / 2) / 2))
        by lra.
      replace (((kl + half + (kl + half + (rho + half)) / 2) / 2
                - (rho + half + (kl + half + (rho + half)) / 2) / 2))
        with ((kl - rho) / 2) by lra.
      pose proof (Habs (kl - rho)). unfold half in *. repeat split; lra.
    + cbn [crankLength groundLength couplerLength rockerLength rodLength
           set_couplerLength set_rodLength Js.orElse].
      rewrite (orNum_nonzero (rho + half)) by lra.
      replace (kl + half - (rho + half)) with (kl - rho) by lra.
      unfold half in *. repeat split; lra.
  - apply ltb_false_iff in E1. fold rho.
    match goal with |- context [Js.gtb ?a ?b] => destruct (Js.gtb a b) end.
    + cbn [crankLength groundLength couplerLength rockerLength rodLength
           set_couplerLength set_rodLength Js.orElse].
      fold rho.
      rewrite (orNum_nonzero ((rho + (kl + rho) / 2) / 2)) by lra.
      replace ((kl + (kl + rho) / 2) / 2 - (rho + (kl + rho) / 2) / 2)
        with ((kl - rho) / 2) by lra.
      pose proof (Habs (kl - rho)). repeat split; lra.
    + cbn [crankLength groundLength couplerLength rockerLength rodLength].
      fold rho. repeat split; lra.
Qed.

(** X11.  The repairer never shortens the reach of the two arms and never makes
    them more unequal; the ground link, the two cranks and the variant are
    left as they were, and a mechanism that is not a five-bar is returned
    unchanged. *)
Theorem enforceFiveBarConstraints_only_helps (conf : MechanismConfig) :
  nonNegativeLengths conf ->
  let r := enforceFiveBarConstraints conf in
  (typeIs conf fivebar = false -> r = conf)
  /\ couplerLength conf + Js.orElse (rodLength conf) 100
     <= couplerLength r + Js.orElse (rodLength r) 100
  /\ Rabs (couplerLength r - Js.orElse (rodLength r) 100)
     <= Rabs (couplerLength conf - Js.orElse (rodLength conf) 100)
  /\ type r = type conf /\ groundLength r = groundLength conf
  /\ crankLength r = crankLength conf /\ rockerLength r = rockerLength conf.
Proof.
  intros Hlen r.
  destruct (enforce_preserves conf) as (Et & Eg & Ec & Er & _). fold r in Et, Eg, Ec, Er.
  destruct (typeIs conf fivebar) eqn:Ht.
  - destruct (enforce_arms conf Ht Hlen) as (H1 & _ & H3 & _). fold r in H1, H3.
    repeat split; try assumption. discriminate.
  - assert (E : r = conf)
      by (subst r; unfold enforceFiveBarConstraints; rewrite Ht; reflexivity).
    rewrite E. repeat split; try reflexivity; lra.
Qed.

Lemma nonNegativeLengths_presetGeared : nonNegativeLengths presetGeared.
Proof.
  unfold nonNegativeLengths, presetGeared; fields.
  repeat split; try lra. intros rod E; injection E as <-; lra.
Qed.

Lemma enforceFiveBarConstraints_only_helps_witness :
  let conf := presetGeared in
  let r := enforceFiveBarConstraints conf in
  (typeIs conf fivebar = false -> r = conf)
  /\ couplerLength conf + Js.orElse (rodLength conf) 100
     <= couplerLength r + Js.orElse (rodLength r) 100
  /\ Rabs (couplerLength r - Js.orElse (rodLength r) 100)
     <= Rabs (couplerLength conf - Js.orElse (rodLength conf) 100)
  /\ type r = type conf /\ groundLength r = groundLength conf
  /\ crankLength r = crankLength conf /\ rockerLength r = rockerLength conf.
Proof.
  exact (enforceFiveBarConstraints_only_helps presetGeared
           nonNegativeLengths_presetGeared).
Defined.

(** The two crank pins of a five-bar are never further apart than the
    ground link and the two cranks laid end to end. *)
Lemma fivebar_pins_apart (config : MechanismConfig) (crankAngleRad : R) :
  type config = Some fivebar ->
  let s := calculateLinkage config crankAngleRad in
  exists a, aux s = Some a
    /\ dist (j1 s) a
       <= Rabs (crankLength config) + Rabs (groundLength config)
          + Rabs (rockerLength config).
Proof.
  intros Ht. unfold calculateLinkage. rewrite Ht. cbv zeta.
  set (P1 := anchorOf config).
  set (J1 := crankTip config crankAngleRad).
  set (P2 := mkPoint (x P1 + _) (y P1 + _)).
  set (A := mkPoint (x P2 + _) (y P2 + _)).
  assert (H1 : dist J1 P1 = Rabs (crankLength config))
    by (rewrite dist_sym; apply dist_polar).
  assert (H2 : dist P1 P2 = Rabs (groundLength config)) by apply dist_polar.
  assert (H3 : dist P2 A = Rabs (rockerLength config)) by apply dist_polar.
  pose proof (dist_triangle J1 P1 A). pose proof (dist_triangle P1 P2 A).
  exists A.
  destruct (getCircleIntersection J1 (couplerLength config) A
              (Js.orElse (rodLength config) 100) false);
    cbn [aux j1]; (split; [ reflexivity | lra ]).
Qed.

(** X12.  What the repair buys.  Whatever the drive angle, the two crank pins of
    a repaired five-bar are within reach of the two arms; so the solver
    never rejects a pose because the arms are too short, only because one
    arm circle lies inside the other or the two pins coincide. *)
Theorem repaired_fivebar_within_reach (conf : MechanismConfig) (crankAngleRad : R) :
  typeIs conf fivebar = true -> nonNegativeLengths conf ->
  let r := enforceFiveBarConstraints conf in
  let s := calculateLinkage r crankAngleRad in
  exists a, aux s = Some a
    /\ dist (j1 s) a <= couplerLength r + Js.orElse (rodLength r) 100
    /\ (isValid s = false ->
        dist (j1 s) a
        < Rabs (couplerLength r - Js.orElse (rodLength r) 100) - 0.1
        \/ j1 s = a).
Proof.
  intros Ht Hlen r s.
  destruct (enforce_preserves conf) as (Et & Eg & Ec & Er & _).
  fold r in Et, Eg, Ec, Er.
  destruct (enforce_arms conf Ht Hlen) as (_ & Hreach & _). fold r in Hreach.
  destruct Hlen as (Hc & Hg & _ & Hr & _).
  assert (Ht' : type r = Some fivebar).
  { rewrite Et. unfold typeIs in Ht. destruct (type conf) as [[] | ];
      solve [ discriminate Ht | reflexivity ]. }
  destruct (fivebar_pins_apart r crankAngleRad Ht') as (a & Ea & Hd).
  fold s in Ea, Hd.
  rewrite Eg, Ec, Er, !Rabs_pos_eq in Hd by assumption.
  exists a. split; [ exact Ea | ]. split; [ lra | ].
  subst s. revert Ea Hd. unfold calculateLinkage. rewrite Ht'. cbv zeta.
  set (J1 := crankTip r crankAngleRad).
  set (A := mkPoint _ _).
  destruct (getCircleIntersection J1 (couplerLength r) A
              (Js.orElse (rodLength r) 100) false) eqn:E;
    cbn [aux j1 isValid]; intros Ea Hd Hv; [ discriminate Hv | ].
  injection Ea as <-.
  apply getCircleIntersection_none_rejected in E.
  rewrite <- dist_centerDistance in E.
  destruct E as [E | [E | E]].
  - lra.
  - left. exact E.
  - right. rewrite dist_centerDistance in E.
    apply centerDistance_zero_iff in E. exact E.
Qed.

Lemma repaired_fivebar_within_reach_witness :
  let r := enforceFiveBarConstraints presetGeared in
  let s := calculateLinkage r 0 in
  exists a, aux s = Some a
    /\ dist (j1 s) a <= couplerLength r + Js.orElse (rodLength r) 100
    /\ (isValid s = false ->
        dist (j1 s) a
        < Rabs (couplerLength r - Js.orElse (rodLength r) 100) - 0.1
        \/ j1 s = a).
Proof.
  apply (repaired_fivebar_within_reach presetGeared 0).
  - reflexivity.
  - exact nonNegativeLengths_presetGeared.
Defined.

(** ** The sampled curve *)

Lemma sampleLoop_filter (config : MechanismConfig) (resolution : nat)
    (samples : list nat) (pts : list Point) (n : nat) :
  let states :=
    map (fun i => calculateLinkage config (INR i / INR resolution * 2 * PI))
        samples in
  sampleLoop config resolution samples pts n
  = (pts ++ map effector (filter isValid states),
     (n + length (filter isValid states))%nat).
Proof.
  revert pts n. induction samples as [ | i rest IH]; intros pts n; simpl.
  - rewrite app_nil_r, Nat.add_0_r. reflexivity.
  - destruct (isValid _); simpl.
    + rewrite IH, <- app_assoc. simpl. f_equal. lia.
    + apply IH.
Qed.

(** X13.  The curve is the loop read as a filter: its points are the effectors
    of the valid sampled states, in the order of the samples, and
    [percentValid] is their share of the samples; a mechanism that is valid
    at every sample gets every sample. *)
Theorem generateCurvePoints_is_valid_samples
    (config : MechanismConfig) (resolution : nat) :
  let curve := generateCurvePoints config resolution in
  let states := sampledStates config resolution in
  points curve = map effector (filter isValid states)
  /\ percentValid curve = INR (length (points curve)) / INR (length states)
  /\ (length (points curve) <= length states)%nat
  /\ (forallb isValid states = true -> length (points curve) = length states).
Proof.
  unfold generateCurvePoints, sampledStates. cbv zeta.
  rewrite sampleLoop_filter. cbn [points percentValid app Nat.add].
  set (states := map (fun i => calculateLinkage config _) _).
  assert (Hlen : length states = (resolution * curveLoops config)%nat)
    by (unfold states; rewrite length_map, length_seq; reflexivity).
  rewrite length_map, Hlen. repeat split.
  - rewrite <- Hlen. apply filter_length_le.
  - intros Hall. rewrite <- Hlen. f_equal.
    clear Hlen. induction states as [ | s rest IH]; simpl in *.
    + reflexivity.
    + apply andb_prop in Hall. destruct Hall as [-> Hall].
      rewrite IH by exact Hall. reflexivity.
Qed.

(** ** The bounding box *)

(** The four accumulators of [getBounds] after the loop: each is the old
    value or a coordinate met on the way, and together they enclose the old
    interval and every point met. *)
Lemma boundsLoop_spec (pts : list Point) (minX maxX minY maxY : R) :
  minX <= maxX -> minY <= maxY ->
  exists a b c d,
    boundsLoop pts minX maxX minY maxY = (a, b, c, d)
    /\ a <= minX /\ maxX <= b /\ c <= minY /\ maxY <= d
    /\ (forall p, In p pts -> a <= x p <= b /\ c <= y p <= d)
    /\ (a = minX \/ exists p, In p pts /\ x p = a)
    /\ (b = maxX \/ exists p, In p pts /\ x p = b)
    /\ (c = minY \/ exists p, In p pts /\ y p = c)
    /\ (d = maxY \/ exists p, In p pts /\ y p = d).
Proof.
  revert minX maxX minY maxY.
  induction pts as [ | q rest IH]; intros minX maxX minY maxY HX HY.
  - exists minX, maxX, minY, maxY. simpl.
    repeat split; try lra; try contradiction; left; reflexivity.
  - cbn [boundsLoop]. cbv zeta.
    set (a0 := if Js.ltb (x q) minX then x q else minX).
    set (b0 := if Js.gtb (x q) maxX then x q else maxX).
    set (c0 := if Js.ltb (y q) minY then y q else minY).
    set (d0 := if Js.gtb (y q) maxY then y q else maxY).
    assert (Ha : a0 <= minX /\ a0 <= x q /\ (a0 = minX \/ a0 = x q)).
    { unfold a0. destruct (Js.ltb (x q) minX) eqn:E;
        [ apply ltb_true_iff in E | apply ltb_false_iff in E ];
        repeat split; try lra; auto. }
    assert (Hb : maxX <= b0 /\ x q <= b0 /\ (b0 = maxX \/ b0 = x q)).
    { unfold b0. destruct (Js.gtb (x q) maxX) eqn:E;
        [ apply gtb_true_iff in E | apply gtb_false_iff in E ];
        repeat split; try lra; auto. }
    assert (Hc : c0 <= minY /\ c0 <= y q /\ (c0 = minY \/ c0 = y q)).
    { unfold c0. destruct (Js.ltb (y q) minY) eqn:E;
        [ apply ltb_true_iff in E | apply ltb_false_iff in E ];
        repeat split; try lra; auto. }
    assert (Hd : maxY <= d0 /\ y q <= d0 /\ (d0 = maxY \/ d0 = y q)).
    { unfold d0. destruct (Js.gtb (y q) maxY) eqn:E;
        [ apply gtb_true_iff in E | apply gtb_false_iff in E ];
        repeat split; try lra; auto. }
    clearbody a0 b0 c0 d0.
    destruct Ha as (Ha1 & Ha2 & Ha3), Hb as (Hb1 & Hb2 & Hb3),
             Hc as (Hc1 & Hc2 & Hc3), Hd as (Hd1 & Hd2 & Hd3).
    destruct (IH a0 b0 c0 d0) as (a & b & c & d & E & I1 & I2 & I3 & I4
                                  & Hin & Wa & Wb & Wc & Wd); try lra.
    exists a, b, c, d. split; [ exact E | ].
    repeat split; try lra.
    + destruct H as [<- | H]; [ lra | apply (Hin p H) ].
    + destruct H as [<- | H]; [ lra | apply (Hin p H) ].
    + destruct H as [<- | H]; [ lra | apply (Hin p H) ].
    + destruct H as [<- | H]; [ lra | apply (Hin p H) ].
    + destruct Wa as [-> | (p & Hp & Ep)];
        [ destruct Ha3 as [-> | ->];
          [ left; reflexivity | right; exists q; split; [ left | ]; reflexivity ]
        | right; exists p; split; [ right; exact Hp | exact Ep ] ].
    + destruct Wb as [-> | (p & Hp & Ep)];
        [ destruct Hb3 as [-> | ->];
          [ left; reflexivity | right; exists q; split; [ left | ]; reflexivity ]
        | right; exists p; split; [ right; exact Hp | exact Ep ] ].
    + destruct Wc as [-> | (p & Hp & Ep)];
        [ destruct Hc3 as [-> | ->];
          [ left; reflexivity | right; exists q; split; [ left | ]; reflexivity ]
        | right; exists p; split; [ right; exact Hp | exact Ep ] ].
    + destruct Wd as [-> | (p & Hp & Ep)];
        [ destruct Hd3 as [-> | ->];
          [ left; reflexivity | right; exists q; split; [ left | ]; reflexivity ]
        | right; exists p; split; [ right; exact Hp | exact Ep ] ].
Qed.

(** X14.  The box of a path that is not empty encloses every point of the path
    and is the smallest that does: each point is within half the width and
    half the height of the center, and the width and the height are
    differences of coordinates of points of the path. *)
Theorem getBounds_is_the_bounding_box (path : list Point) :
  path <> [] ->
  exists b, getBounds path = Some b
    /\ (forall p, In p path ->
        Rabs (x p - cx b) <= w b / 2 /\ Rabs (y p - cy b) <= h b / 2)
    /\ (exists p q, In p path /\ In q path /\ w b = x q - x p)
    /\ (exists p q, In p path /\ In q path /\ h b = y q - y p).
Proof.
  destruct path as [ | p0 rest]; [ congruence | intros _ ].
  cbn [getBounds].
  destruct (boundsLoop_spec rest (x p0) (x p0) (y p0) (y p0))
    as (a & b & c & d & E & I1 & I2 & I3 & I4 & Hin & Wa & Wb & Wc & Wd);
    try lra.
  rewrite E. eexists. split; [ reflexivity | ].
  cbn [w h cx cy].
  assert (Hall : forall p, In p (p0 :: rest) -> a <= x p <= b /\ c <= y p <= d).
  { intros p [<- | Hp]; [ lra | exact (Hin p Hp) ]. }
  assert (Pick : forall (f : Point -> R) v,
             v = f p0 \/ (exists p, In p rest /\ f p = v) ->
             exists p, In p (p0 :: rest) /\ f p = v).
  { intros f v [-> | (p & Hp & Ep)];
      [ exists p0; split; [ left | ]; reflexivity
      | exists p; split; [ right; exact Hp | exact Ep ] ]. }
  split; [ | split ].
  - intros p Hp. destruct (Hall p Hp) as [Hx Hy].
    split; apply Rabs_le; lra.
  - destruct (Pick x a Wa) as (p & Hp & Ep), (Pick x b Wb) as (q & Hq & Eq).
    exists p, q. rewrite Ep, Eq. auto.
  - destruct (Pick y c Wc) as (p & Hp & Ep), (Pick y d Wd) as (q & Hq & Eq).
    exists p, q. rewrite Ep, Eq. auto.
Qed.

Lemma getBounds_is_the_bounding_box_witness :
  exists b, getBounds cornerPath = Some b
    /\ (forall p, In p cornerPath ->
        Rabs (x p - cx b) <= w b / 2 /\ Rabs (y p - cy b) <= h b / 2)
    /\ (exists p q, In p cornerPath /\ In q cornerPath /\ w b = x q - x p)
    /\ (exists p q, In p cornerPath /\ In q cornerPath /\ h b = y q - y p).
Proof.
  apply (getBounds_is_the_bounding_box cornerPath). discriminate.
Defined.

(** ** When the score is zero *)

Lemma Fin_inj (a b : R) : Fin a = Fin b -> a = b.
Proof.
  intros H. injection H as H. exact H.
Qed.

Lemma sqDist_zero_iff (p q : Point) :
  (x p - x q) ^ 2 + (y p - y q) ^ 2 = 0 <-> p = q.
Proof.
  split.
  - intros H.
    pose proof (pow2_ge_0 (x p - x q)) as Hx.
    pose proof (pow2_ge_0 (y p - y q)) as Hy.
    assert (Ex : (x p - x q) ^ 2 = 0) by lra.
    assert (Ey : (y p - y q) ^ 2 = 0) by lra.
    replace ((x p - x q) ^ 2) with (Rsqr (x p - x q)) in Ex
      by (unfold Rsqr; ring).
    replace ((y p - y q) ^ 2) with (Rsqr (y p - y q)) in Ey
      by (unfold Rsqr; ring).
    apply Rsqr_0_uniq in Ex. apply Rsqr_0_uniq in Ey.
    destruct p as [px py], q as [qx qy]. cbn [x y] in *. f_equal; lra.
  - intros ->. ring.
Qed.

(** The least squared distance is 0 exactly when the point is one of the
    others. *)
Lemma nearestLoop_zero_iff (p : Point) (others : list Point) (m : R) :
  0 <= m ->
  exists v, nearestLoop p others (Fin m) = Fin v /\ 0 <= v
    /\ (v = 0 <-> m = 0 \/ In p others).
Proof.
  revert m. induction others as [ | q rest IH]; intros m Hm; cbn [nearestLoop].
  - exists m. repeat split; try tauto. intros [H | []]; exact H.
  - cbv zeta. set (d := (x p - x q) ^ 2 + (y p - y q) ^ 2).
    assert (Hd : 0 <= d) by apply sqDist_nonneg.
    assert (Hz : d = 0 <-> p = q) by apply sqDist_zero_iff.
    cbn [Num.ltb].
    destruct (Js.ltb d m) eqn:E;
      [ apply ltb_true_iff in E | apply ltb_false_iff in E ].
    + destruct (IH d Hd) as (v & Ev & Hv & Hiff).
      exists v. repeat split; [ exact Ev | exact Hv | | ].
      * intros H. apply Hiff in H. destruct H as [H | H].
        -- right. left. symmetry. apply Hz. exact H.
        -- right. right. exact H.
      * intros [H | [H | H]]; apply Hiff.
        -- lra.
        -- left. apply Hz. symmetry. exact H.
        -- right. exact H.
    + destruct (IH m Hm) as (v & Ev & Hv & Hiff).
      exists v. repeat split; [ exact Ev | exact Hv | | ].
      * intros H. apply Hiff in H. destruct H as [H | H]; auto.
        right. right. exact H.
      * intros [H | [H | H]]; apply Hiff; auto.
        left. symmetry in H. apply Hz in H. lra.
Qed.

Lemma nearestLoop_from_infinity_zero_iff (p : Point) (others : list Point) :
  others <> [] ->
  exists v, nearestLoop p others PosInf = Fin v /\ 0 <= v
    /\ (v = 0 <-> In p others).
Proof.
  destruct others as [ | q rest]; [ congruence | intros _ ].
  cbn [nearestLoop Num.ltb]. cbv zeta.
  set (d := (x p - x q) ^ 2 + (y p - y q) ^ 2).
  assert (Hd : 0 <= d) by apply sqDist_nonneg.
  assert (Hz : d = 0 <-> p = q) by apply sqDist_zero_iff.
  destruct (nearestLoop_zero_iff p rest d Hd) as (v & Ev & Hv & Hiff).
  exists v. repeat split; [ exact Ev | exact Hv | | ].
  - intros H. apply Hiff in H. destruct H as [H | H].
    + left. symmetry. apply Hz. exact H.
    + right. exact H.
  - intros [H | H]; apply Hiff.
    + left. apply Hz. symmetry. exact H.
    + right. exact H.
Qed.

(** The summed error grows by nothing exactly when every point of [from] is
    one of the others. *)
Lemma errorLoop_zero_iff (from others : list Point) (u : R) :
  others <> [] ->
  exists v, errorLoop from others (Fin u) = Fin v /\ u <= v
    /\ (v = u <-> forall p, In p from -> In p others).
Proof.
  intros Ho. revert u. induction from as [ | p rest IH]; intros u; cbn [errorLoop].
  - exists u. repeat split; try lra. intros _ p [].
  - destruct (nearestLoop_from_infinity_zero_iff p others Ho) as (m & -> & Hm & Hz).
    cbn [Num.add].
    destruct (IH (u + m)) as (v & Ev & Hv & Hiff).
    exists v. repeat split; [ exact Ev | lra | | ].
    + intros H. assert (m = 0) by lra. subst m.
      assert (Hrest : forall q, In q rest -> In q others) by (apply Hiff; lra).
      intros q [<- | Hq]; [ apply Hz; reflexivity | exact (Hrest q Hq) ].
    + intros H.
      assert (m = 0) by (apply Hz; apply H; left; reflexivity). subst m.
      assert (v = u + 0) by (apply Hiff; intros q Hq; apply H; right; exact Hq).
      lra.
Qed.

(** A full valid fraction means that every sample was pushed. *)
Lemma full_curve_length (config : MechanismConfig) (resolution : nat) :
  (0 < resolution)%nat ->
  percentValid (generateCurvePoints config resolution) = 1 ->
  length (points (generateCurvePoints config resolution))
  = (resolution * curveLoops config)%nat.
Proof.
  intros Hr. unfold generateCurvePoints. cbv zeta.
  rewrite sampleLoop_filter. cbn [points percentValid app Nat.add].
  rewrite length_map.
  pose proof (curveLoops_positive config) as Hloops.
  assert (Hpos : 0 < INR (resolution * curveLoops config))
    by (apply lt_0_INR; nia).
  intros H. apply INR_eq.
  apply (Rmult_eq_reg_r (/ INR (resolution * curveLoops config)));
    [ | apply Rinv_neq_0_compat; lra ].
  rewrite Rinv_r by lra. exact H.
Qed.

(** X15.  For a mechanism that is not a five-bar, on a target that is not empty,
    the score is 0 exactly for a perfect fit: the mechanism is valid at
    every sample and its curve visits the same points as the target. *)
Theorem evaluateFitness_zero_iff (config : MechanismConfig)
    (targetPath : list Point) :
  typeIs config fivebar = false -> targetPath <> [] ->
  let generated := points (generateCurvePoints config 60) in
  evaluateFitness config targetPath = Fin 0
  <-> validFraction config = 1
      /\ (forall p, In p generated <-> In p targetPath).
Proof.
  intros Ht Hpath generated.
  pose proof (validFraction_range config) as Hrange.
  unfold validFraction in *. unfold evaluateFitness. rewrite Ht in *. cbv zeta.
  fold generated.
  set (curve := generateCurvePoints config 60) in *.
  assert (Hlen : percentValid curve = 1 -> length generated = 60%nat).
  { intros H. unfold generated, curve.
    rewrite full_curve_length by (try lia; exact H).
    unfold curveLoops. rewrite Ht. reflexivity. }
  destruct (Js.ltb (percentValid curve) 1) eqn:E1;
    [ apply ltb_true_iff in E1 | apply ltb_false_iff in E1 ].
  { split.
    - intros H. apply Fin_inj in H.
      assert (0 <= (1.0 - percentValid curve) * 1e9)
        by (apply Rmult_le_pos; lra).
      lra.
    - intros [H _]. lra. }
  assert (Hfull : percentValid curve = 1) by lra.
  specialize (Hlen Hfull). rewrite Hlen. cbn [Nat.ltb Nat.leb].
  assert (Hgen : generated <> [])
    by (intros E; rewrite E in Hlen; discriminate Hlen).
  destruct (errorLoop_zero_iff generated targetPath 0 Hpath)
    as (f & -> & Hf & Hfz).
  destruct (errorLoop_zero_iff targetPath generated 0 Hgen)
    as (b & -> & Hb & Hbz).
  assert (Hn : (0 < length targetPath)%nat)
    by (destruct targetPath; [ congruence | simpl; lia ]).
  destruct (length targetPath) as [ | n] eqn:En; [ lia | ].
  cbn [Num.divLength Num.add].
  assert (H60 : 0 < INR 60) by (apply lt_0_INR; lia).
  assert (HSn : 0 < INR (S n)) by (apply lt_0_INR; lia).
  assert (Hf' : 0 <= f / INR 60)
    by (apply Rmult_le_pos; [ lra | left; apply Rinv_0_lt_compat; lra ]).
  assert (Hb' : 0 <= b / INR (S n))
    by (apply Rmult_le_pos; [ lra | left; apply Rinv_0_lt_compat; lra ]).
  split.
  - intros H. apply Fin_inj in H.
    assert (Ef : f / INR 60 = 0) by lra.
    assert (Eb : b / INR (S n) = 0) by lra.
    assert (f = 0).
    { apply (Rmult_eq_reg_r (/ INR 60));
        [ rewrite Rmult_0_l; exact Ef | apply Rinv_neq_0_compat; lra ]. }
    assert (b = 0).
    { apply (Rmult_eq_reg_r (/ INR (S n)));
        [ rewrite Rmult_0_l; exact Eb | apply Rinv_neq_0_compat; lra ]. }
    split; [ exact Hfull | ].
    intros p. split; [ apply Hfz | apply Hbz ]; assumption.
  - intros [_ Hsame].
    assert (f = 0) by (apply Hfz; intros p; apply Hsame).
    assert (b = 0) by (apply Hbz; intros p; apply Hsame).
    subst f b. f_equal. unfold Rdiv. ring.
Qed.

Lemma evaluateFitness_zero_iff_witness :
  let generated := points (generateCurvePoints plainCrank 60) in
  evaluateFitness plainCrank cornerPath = Fin 0
  <-> validFraction plainCrank = 1
      /\ (forall p, In p generated <-> In p cornerPath).
Proof.
  apply (evaluateFitness_zero_iff plainCrank cornerPath).
  - reflexivity.
  - discriminate.
Defined.

(** ** What a computation yields on unit draws *)

Lemma yields_ret {A : Type} (a : A) (Q : A -> Prop) : Q a -> yields (ret a) Q.
Proof.
  intros H w Hw. split; [ exact H | exact Hw ].
Qed.

Lemma yields_bind {A B : Type} (m : M A) (k : A -> M B) (P : A -> Prop)
    (Q : B -> Prop) :
  yields m P -> (forall a, P a -> yields (k a) Q) -> yields (bind m k) Q.
Proof.
  intros Hm Hk w Hw. unfold bind.
  destruct (Hm w Hw) as [Ha Hw1]. destruct (m w) as [a w1].
  exact (Hk a Ha w1 Hw1).
Qed.

Lemma yields_random : yields random (fun u => 0 <= u < 1).
Proof.
  intros w Hw. split; [ apply Hw | intros n; apply Hw ].
Qed.

Lemma yields_keeps {A : Type} (m : M A) : keepsUnit m -> yields m (fun _ => True).
Proof.
  intros H w Hw. split; [ exact I | exact (H w Hw) ].
Qed.

(** A size drawn as [scale * factor * (0.5 + Math.random())]. *)
Lemma yields_size (scale factor : R) :
  0 <= scale * factor ->
  yields (u <- random ;; ret (scale * factor * (0.5 + u))) (fun v => 0 <= v).
Proof.
  intros H. apply (yields_bind _ _ _ _ yields_random). intros u Hu.
  apply yields_ret. apply Rmult_le_pos; lra.
Qed.

Ltac yields_step :=
  lazymatch goal with
  | |- yields (bind random ?k) ?Q =>
      apply (yields_bind random k _ Q yields_random); intros ? ?
  | |- yields (bind (pickType ?t) ?k) ?Q =>
      apply (yields_bind (pickType t) k _ Q (yields_keeps _ (keeps_pickType t)));
      intros ? _
  | |- yields (bind (bind random (fun u => ret (?s * ?f * (0.5 + u)))) ?k) ?Q =>
      apply (yields_bind _ k _ Q (yields_size s f ltac:(lra))); intros ? ?
  | |- yields (let v := ?d in @?body v) ?Q =>
      change (let v := d in yields (body v) Q); intro; cbv beta
  | |- yields ((fun _ => _) _) _ => cbv beta
  end.

Lemma scale_nonneg (targetPath : option (list Point)) (cx0 cy0 scale : R) :
  match targetPath with
  | Some path =>
      match getBounds path with
      | Some bounds => (cx bounds, cy bounds, Rmax (w bounds) (h bounds))
      | None => (0, 0, 100)
      end
  | None => (0, 0, 100)
  end = (cx0, cy0, scale) ->
  0 <= scale.
Proof.
  destruct targetPath as [path | ]; [ | intros E; injection E as _ _ <-; lra ].
  destruct path as [ | p0 rest]; cbn [getBounds];
    [ intros E; injection E as _ _ <-; lra | ].
  destruct (boundsLoop_spec rest (x p0) (x p0) (y p0) (y p0))
    as (a & b & c & d & E & I1 & I2 & _); try lra.
  rewrite E. cbn [w h cx cy]. intros E'. injection E' as _ _ <-.
  pose proof (Rmax_l (b - a) (d - c)). lra.
Qed.

(** ** What the generator promises *)

(** The repairer writes the coupler and the rod, nothing else. *)
Lemma enforce_frame (conf : MechanismConfig) :
  let r := enforceFiveBarConstraints conf in
  speed1 r = speed1 conf /\ speed2 r = speed2 conf
  /\ sliderOffset r = sliderOffset conf /\ anchorX r = anchorX conf
  /\ anchorY r = anchorY conf /\ groundAngle r = groundAngle conf
  /\ id r = id conf /\ color r = color conf /\ visible r = visible conf.
Proof.
  unfold enforceFiveBarConstraints.
  destruct (negb (typeIs conf fivebar)); [ cbv zeta; tauto | ].
  cbv zeta.
  repeat match goal with
         | |- context [if ?b then _ else _] => destruct b
         end; fields; tauto.
Qed.

Lemma generateSmartConfig_sound (targetPath : option (list Point))
    (forcedType excludedType : option MechanismType) :
  yields (generateSmartConfig targetPath forcedType excludedType) soundCandidate.
Proof.
  unfold generateSmartConfig.
  destruct (match targetPath with
            | Some path =>
                match getBounds path with
                | Some bounds =>
                    (cx bounds, cy bounds, Rmax (w bounds) (h bounds))
                | None => (0, 0, 100)
                end
            | None => (0, 0, 100)
            end) as [[cx0 cy0] scale] eqn:Estart.
  apply scale_nonneg in Estart.
  lazy head zeta beta iota.
  repeat yields_step.
  match goal with |- yields (match ?t with _ => _ end) _ => destruct t as [[] | ] end;
    repeat yields_step; apply yields_ret; unfold soundCandidate.
  6: { (* the five-bar *)
    match goal with
    | |- context [enforceFiveBarConstraints ?c] => set (conf := c)
    end.
    assert (Ht : typeIs conf fivebar = true) by reflexivity.
    assert (Hlen : nonNegativeLengths conf).
    { unfold nonNegativeLengths, conf; fields.
      assert (Harm : forall a b u, 0 <= u -> 0 <= Js.hypot a b * (1.0 + u * 0.4)).
      { intros p q u Hu. apply Rmult_le_pos; [ apply hypot_nonneg | lra ]. }
      repeat split; try assumption; try (apply Harm; lra).
      intros rod E. injection E as <-. apply Harm; lra. }
    destruct (enforce_preserves conf) as (Et & Eg & Ec & Er & Ed).
    destruct (enforce_frame conf) as (E1 & E2 & _).
    destruct (enforce_arms conf Ht Hlen) as (_ & Hreach & _ & Hk & _).
    set (r := enforceFiveBarConstraints conf) in *.
    rewrite Et, Eg, Ec, Er, Ed, E1, E2.
    unfold effectiveArmsReach. rewrite Eg, Ec, Er.
    destruct Hlen as (Hc & Hg & _ & Hr & _).
    assert (Hd : 0 <= couplerPointDist conf)
      by (unfold conf; fields; apply Rmult_le_pos; lra).
    repeat match goal with
           | |- _ /\ _ => split
           | |- Some _ = Some _ -> _ => first [ discriminate | intros _ ]
           | |- type conf = Some _ -> _ => first [ discriminate | intros _ ]
           end; try assumption; try lra; try reflexivity.
    unfold conf; fields. cbn [Js.nullish]. eexists. split; [ reflexivity | ].
    destruct (Js.gtb _ 0.5); unfold Rabs;
      match goal with |- context [Rcase_abs ?v] => destruct (Rcase_abs v) end;
      lra. }
  all: fields;
    repeat match goal with
           | |- _ /\ _ => split
           | |- Some _ = Some _ -> _ => first [ discriminate | intros _ ]
           end; try discriminate; try assumption; try lra.
  all: match goal with
       | |- context [Rabs ?v] => pose proof (Rabs_pos v); try lra
       | |- context [Rmax ?a ?b] =>
           pose proof (Rmax_l a b); pose proof (Rmax_r a b); lra
       end.
Qed.

(** X16.  With unit draws, every candidate of the generator is sound: no size is
    negative; a piston has [couplerLength >= |sliderOffset| + crankLength];
    a quick-return has [groundLength >= crankLength + 10]; a five-bar has
    been repaired, its primary gear runs at speed 1 and its secondary gear
    within 0.1 of speed 1 or -1. *)
Theorem generateSmartConfig_candidates_are_sound
    (targetPath : option (list Point))
    (forcedType excludedType : option MechanismType) (world : World) :
  unitDraws world ->
  soundCandidate
    (fst (generateSmartConfig targetPath forcedType excludedType world)).
Proof.
  intros Hw.
  exact (proj1 (generateSmartConfig_sound targetPath forcedType excludedType
                  world Hw)).
Qed.

Lemma generateSmartConfig_candidates_are_sound_witness :
  soundCandidate (fst (generateSmartConfig None None None stillWorld)).
Proof.
  apply (generateSmartConfig_candidates_are_sound None None None stillWorld).
  exact stillWorld_unitDraws.
Defined.

(** A piston whose coupler covers the offset of the track and the crank is
    valid at every drive angle. *)
Lemma long_coupler_never_locks (config : MechanismConfig) (crankAngleRad : R) :
  type config = Some piston ->
  Rabs (sliderOffset config) + Rabs (crankLength config) <= couplerLength config ->
  isValid (calculateLinkage config crankAngleRad) = true.
Proof.
  intros Ht Hk. unfold calculateLinkage. rewrite Ht. cbv zeta.
  destruct (localJ1_track config crankAngleRad) as [_ ->].
  rewrite orNum_zero.
  set (J1 := crankTip config crankAngleRad).
  assert (Hv : Rabs (acrossTrack config J1) <= Rabs (crankLength config)).
  { unfold acrossTrack, J1, crankTip. cbn [x y].
    set (t := toRad _). set (a := crankAngleRad * _).
    replace ((x (anchorOf config) + crankLength config * cos a
              - x (anchorOf config)) * - sin t
             + (y (anchorOf config) + crankLength config * sin a
                - y (anchorOf config)) * cos t)
      with (crankLength config * sin (a - t)) by (rewrite sin_minus; ring).
    rewrite Rabs_mult. pose proof (SIN_bound (a - t)) as [Hs1 Hs2].
    pose proof (Rabs_pos (crankLength config)).
    assert (Rabs (sin (a - t)) <= 1) by (apply Rabs_le; lra).
    replace (Rabs (crankLength config)) with (Rabs (crankLength config) * 1) at 2
      by ring.
    apply Rmult_le_compat_l; assumption. }
  pose proof (Rabs_triang (sliderOffset config) (- acrossTrack config J1)) as Htri.
  rewrite Rabs_Ropp in Htri.
  rewrite (proj2 (gtb_false_iff _ _)); [ reflexivity | ].
  unfold Rminus. lra.
Qed.


Lemma dist_to_track_point (p : Point) (t u v : R) :
  dist p (mkPoint (x p + u * cos t - v * sin t) (y p + u * sin t + v * cos t))
  = sqrt (u ^ 2 + v ^ 2).
Proof.
  unfold dist. cbn [x y]. f_equal.
  pose proof (unit_direction t) as H.
  replace ((x p + u * cos t - v * sin t - x p) ^ 2
           + (y p + u * sin t + v * cos t - y p) ^ 2)
    with ((u ^ 2 + v ^ 2) * (cos t * cos t + sin t * sin t)) by ring.
  rewrite H. ring.
Qed.

(** A quick-return whose ground link exceeds the crank by some margin keeps
    its pivot that far from the crank pin. *)
Lemma quick_return_pivot_clear (config : MechanismConfig) (crankAngleRad margin : R) :
  type config = Some quick_return ->
  0 <= crankLength config -> crankLength config + margin <= groundLength config ->
  let s := calculateLinkage config crankAngleRad in
  margin <= dist (p2 s) (j1 s).
Proof.
  intros Ht Hc Hg. unfold calculateLinkage. rewrite Ht. cbv zeta. cbn [p2 j1].
  set (P1 := anchorOf config). set (J1 := crankTip config crankAngleRad).
  set (t := toRad _). set (P2 := mkPoint _ _).
  assert (H1 : dist P1 J1 = crankLength config)
    by (unfold J1, crankTip; cbv zeta; fold P1; rewrite dist_polar;
        apply Rabs_pos_eq; exact Hc).
  assert (H2 : groundLength config <= dist P1 P2).
  { unfold P2. rewrite dist_to_track_point.
    destruct (Rle_dec 0 (groundLength config)) as [Hpos | Hneg].
    - rewrite <- (sqrt_pow2 (groundLength config)) at 1 by exact Hpos.
      apply sqrt_le_1_alt.
      pose proof (pow2_ge_0 (sliderOffset config)). lra.
    - pose proof (sqrt_pos (groundLength config ^ 2 + sliderOffset config ^ 2)).
      lra. }
  pose proof (dist_triangle P1 J1 P2) as Htri.
  rewrite (dist_sym P2 J1). lra.
Qed.

(** X17.  With unit draws, the candidates of the generator are workable at every
    drive angle: a piston never locks; the pivot of a quick-return stays at
    least 10 away from the crank pin, so the direction of its arm is always
    defined; the two crank pins of a five-bar stay within reach of its two
    arms. *)
Theorem generated_candidates_are_workable
    (targetPath : option (list Point))
    (forcedType excludedType : option MechanismType) (world : World)
    (crankAngleRad : R) :
  unitDraws world ->
  let c := fst (generateSmartConfig targetPath forcedType excludedType world) in
  let s := calculateLinkage c crankAngleRad in
  (type c = Some piston -> isValid s = true)
  /\ (type c = Some quick_return -> 10 <= dist (p2 s) (j1 s))
  /\ (type c = Some fivebar ->
      exists a, aux s = Some a
        /\ dist (j1 s) a <= couplerLength c + Js.orElse (rodLength c) 100).
Proof.
  intros Hw c s.
  destruct (proj1 (generateSmartConfig_sound targetPath forcedType excludedType
                     world Hw)) as (Hc & Hg & _ & Hr & _ & Hp & Hq & Hf).
  fold c in Hc, Hg, Hr, Hp, Hq, Hf.
  split; [ | split ].
  - intros Ht. apply long_coupler_never_locks; [ exact Ht | ].
    rewrite (Rabs_pos_eq (crankLength c)) by exact Hc. exact (Hp Ht).
  - intros Ht. apply quick_return_pivot_clear; auto.
  - intros Ht. destruct (Hf Ht) as (Hreach & _).
    destruct (fivebar_pins_apart c crankAngleRad Ht) as (a & Ea & Hd).
    fold s in Ea, Hd. rewrite !Rabs_pos_eq in Hd by assumption.
    exists a. split; [ exact Ea | ].
    unfold effectiveArmsReach in Hreach. lra.
Qed.

Lemma generated_candidates_are_workable_witness :
  let c := fst (generateSmartConfig None (Some piston) None stillWorld) in
  let s := calculateLinkage c 0 in
  (type c = Some piston -> isValid s = true)
  /\ (type c = Some quick_return -> 10 <= dist (p2 s) (j1 s))
  /\ (type c = Some fivebar ->
      exists a, aux s = Some a
        /\ dist (j1 s) a <= couplerLength c + Js.orElse (rodLength c) 100).
Proof.
  apply (generated_candidates_are_workable None (Some piston) None stillWorld 0).
  exact stillWorld_unitDraws.
Defined.

(** ** Position and orientation

    [mutateConfig] moves [anchorX], [anchorY] and [groundAngle] by adding
    to them.  A mechanism that has the three fields keeps them, as numbers,
    through every mutation; so does every mechanism of a search that starts
    from one, since the generator and the placement of a seed set all
    three. *)

Lemma always_ret {A : Type} (a : A) (Q : A -> Prop) : Q a -> always (ret a) Q.
Proof. intros H w. exact H. Qed.

Lemma always_bind {A B : Type} (m : M A) (k : A -> M B) (P : A -> Prop)
    (Q : B -> Prop) :
  always m P -> (forall a, P a -> always (k a) Q) -> always (bind m k) Q.
Proof.
  intros Hm Hk w. unfold bind. specialize (Hm w).
  destruct (m w) as [a w1]. apply Hk. exact Hm.
Qed.

Lemma always_then {A B : Type} (m : M A) (k : A -> M B) (Q : B -> Prop) :
  (forall a, always (k a) Q) -> always (bind m k) Q.
Proof.
  intros Hk. apply (always_bind m k (fun _ => True)); [ intros w; exact I | auto ].
Qed.

Lemma always_withChance (p : R)
    (update : MechanismConfig -> M MechanismConfig) (conf : MechanismConfig)
    (Q : MechanismConfig -> Prop) :
  Q conf -> always (update conf) Q -> always (withChance p update conf) Q.
Proof.
  intros Hc Hu. unfold withChance. apply always_then. intros u.
  destruct (Js.ltb u p); [ exact Hu | apply always_ret, Hc ].
Qed.

Lemma placed_enforce (c : MechanismConfig) :
  placed (enforceFiveBarConstraints c) = placed c.
Proof.
  destruct (enforce_frame c) as (_ & _ & _ & Ex & Ey & Eg & _).
  unfold placed. rewrite Ex, Ey, Eg. reflexivity.
Qed.

Lemma placed_clampLengths (c : MechanismConfig) :
  placed (clampLengths c) = placed c.
Proof.
  unfold clampLengths. cbv zeta.
  match goal with
  | |- placed (if ?b then enforceFiveBarConstraints ?d else ?d) = _ =>
      assert (H : placed d = placed c);
      [ | destruct b; [ rewrite placed_enforce | ]; exact H ]
  end.
  unfold placed. destruct (Js.present (rodLength _)); fields; reflexivity.
Qed.

Lemma placed_placeAt (ax ay ga : R) (c : MechanismConfig) :
  placed (placeAt ax ay ga c) = true.
Proof. unfold placed, placeAt. fields. reflexivity. Qed.

Ltac always_any :=
  repeat lazymatch goal with
  | |- always (bind _ _) _ => apply always_then; intros ?
  | |- always (let v := ?d in @?body v) ?Q =>
      change (let v := d in always (body v) Q); intro; cbv beta
  | |- always (match ?o with _ => _ end) _ => destruct o
  | |- always ((fun _ => _) _) _ => cbv beta
  end.

(** The generator gives every candidate a position and an orientation. *)
Lemma generateSmartConfig_placed (targetPath : option (list Point))
    (forcedType excludedType : option MechanismType) :
  always (generateSmartConfig targetPath forcedType excludedType)
    (fun c => placed c = true).
Proof.
  unfold generateSmartConfig.
  set (start := match targetPath with
                | Some path =>
                    match getBounds path with
                    | Some bounds =>
                        (cx bounds, cy bounds, Rmax (w bounds) (h bounds))
                    | None => (0, 0, 100)
                    end
                | None => (0, 0, 100)
                end).
  destruct start as [[cx0 cy0] scale]. lazy head zeta beta iota.
  always_any; apply always_ret;
    repeat match goal with v := _ |- _ => subst v end;
    rewrite ?placed_enforce; reflexivity.
Qed.

(** So does the placement of a seed. *)
Lemma placeSeed_placed (seed : MechanismConfig) (bounds : Bounds) (pathSize : R) :
  always (placeSeed seed bounds pathSize) (fun c => placed c = true).
Proof.
  cbv delta [placeSeed]. cbv beta.
  always_any. apply always_ret. unfold placed.
  repeat (match goal with v := _ |- _ => subst v end;
          repeat match goal with
                 | |- context [if ?b then _ else _] =>
                     match type of b with bool => destruct b end
                 end;
          fields);
    reflexivity.
Qed.

Ltac placed_leaf :=
  apply always_ret;
  repeat match goal with v := _ |- _ => subst v end;
  repeat match goal with
         | |- context [if ?b then _ else _] => destruct b
         end;
  unfold placed in *; fields;
  repeat match goal with
         | H : context [match ?o with Some _ => _ | None => _ end] |- _ =>
             destruct o; try discriminate H
         end;
  repeat match goal with
         | H : _ <> None -> ?a <> None |- _ =>
             specialize (H ltac:(discriminate)); destruct a; [ | congruence ]
         end;
  reflexivity.

Ltac placed_step :=
  lazymatch goal with
  | |- always (ret (clampLengths ?c)) _ =>
      apply always_ret; rewrite placed_clampLengths; assumption
  | |- always (ret _) _ => placed_leaf
  | |- always (withChance ?p ?f ?c) ?Q =>
      apply (always_withChance p f c Q); [ assumption | cbv beta ]
  | |- always (bind (bind random (fun u => ret (option_map _ ?o))) ?k) ?Q =>
      apply (always_bind _ k (fun v => o <> None -> v <> None));
      [ apply always_then; intros ?; apply always_ret;
        destruct o; cbn [option_map]; congruence
      | intros ? ? ]
  | |- always (bind random ?k) ?Q => apply always_then; intros ?
  | |- always (bind (pickType _) ?k) ?Q => apply always_then; intros ?
  | |- always (bind (bind random _) ?k) ?Q => apply always_then; intros ?
  | |- always (bind ?m ?k) ?Q =>
      apply (always_bind m k Q Q); [ | intros ? ?; cbv beta in * ]
  | |- always (if ?b then _ else _) _ => destruct b
  | |- always (let v := ?d in @?body v) ?Q =>
      change (let v := d in always (body v) Q); intro; cbv beta
  | |- always ((fun _ => _) _) _ => cbv beta
  end.

(** A mutation leaves a mechanism that has a position and an orientation
    with one: the three fields are read, moved and written back. *)
Lemma mutateConfig_placed (config : MechanismConfig) (temperature : R)
    (fixedType : bool) (excludedType : option MechanismType) :
  placed config = true ->
  always (mutateConfig config temperature fixedType excludedType)
    (fun c => placed c = true).
Proof.
  intros Hc. unfold mutateConfig. lazy head zeta beta.
  repeat placed_step.
Qed.

(** ** What a mutation keeps *)

(** The configuration the clamps of [mutateConfig] hand to the repairer has
    no negative length. *)
Lemma clampLengths_clamped (conf : MechanismConfig) :
  exists c, nonNegativeLengths c
    /\ clampLengths conf
       = if typeIs c fivebar then enforceFiveBarConstraints c else c.
Proof.
  unfold clampLengths. cbv zeta. eexists. split; [ | reflexivity ].
  destruct conf as [i t v c ax ay ga cl gl kl rl so cd ca s1 s2 gr rod ph sg og].
  cbn [crankLength groundLength couplerLength rockerLength rodLength
       set_crankLength set_groundLength set_couplerLength set_rockerLength].
  assert (Hmax : forall u, 0 <= Rmax 5 u)
    by (intros u; pose proof (Rmax_l 5 u); lra).
  destruct rod as [u | ]; cbn [Js.present].
  - destruct (Js.truthy u) eqn:Eu; unfold nonNegativeLengths;
      cbn [crankLength groundLength couplerLength rockerLength rodLength
           set_rodLength option_map];
      repeat split; try apply Hmax.
    + intros r Er. injection Er as <-. apply Hmax.
    + intros r Er. injection Er as <-.
      unfold Js.truthy in Eu. apply negb_false_iff, eqb_true_iff in Eu. lra.
  - unfold nonNegativeLengths;
      cbn [crankLength groundLength couplerLength rockerLength rodLength];
      repeat split; try apply Hmax.
    intros r Er; discriminate.
Qed.

Lemma clampLengths_reach (conf : MechanismConfig) :
  typeIs (clampLengths conf) fivebar = true ->
  effectiveArmsReach (clampLengths conf)
  /\ 0 <= crankLength (clampLengths conf)
  /\ 0 <= groundLength (clampLengths conf)
  /\ 0 <= rockerLength (clampLengths conf).
Proof.
  destruct (clampLengths_clamped conf) as (clamped & Hlen & ->).
  destruct (typeIs clamped fivebar) eqn:Ht.
  - intros _.
    destruct (enforce_preserves clamped) as (_ & Eg & Ec & Er & _).
    destruct (enforce_arms clamped Ht Hlen) as (_ & Hreach & _).
    destruct Hlen as (Hc & Hg & _ & Hr & _).
    unfold effectiveArmsReach. rewrite Eg, Ec, Er. repeat split; try assumption.
    lra.
  - intros H. rewrite Ht in H. discriminate H.
Qed.

(** X18.  A mutated five-bar has been repaired.  For a mechanism that has a
    position and an orientation, and whatever the draws: the mutant has
    them too, its arms satisfy the margin, and its two crank pins are
    within their reach at every drive angle. *)
Theorem mutated_fivebar_within_reach
    (config : MechanismConfig) (temperature : R) (fixedType : bool)
    (excludedType : option MechanismType) (world : World) (crankAngleRad : R) :
  placed config = true ->
  let r := fst (mutateConfig config temperature fixedType excludedType world) in
  typeIs r fivebar = true ->
  placed r = true
  /\ effectiveArmsReach r
  /\ let s := calculateLinkage r crankAngleRad in
     exists a, aux s = Some a
       /\ dist (j1 s) a <= couplerLength r + Js.orElse (rodLength r) 100.
Proof.
  intros Hplaced. cbv zeta. intros Hfive.
  split.
  { exact (mutateConfig_placed config temperature fixedType excludedType
             Hplaced world). }
  revert Hfive.
  set (Q := fun r : MechanismConfig =>
              typeIs r fivebar = true ->
              effectiveArmsReach r
              /\ exists a, aux (calculateLinkage r crankAngleRad) = Some a
                   /\ dist (j1 (calculateLinkage r crankAngleRad)) a
                      <= couplerLength r + Js.orElse (rodLength r) 100).
  change (Q (fst (mutateConfig config temperature fixedType excludedType world))).
  unfold mutateConfig. lazy head zeta beta.
  repeat (apply (result_bind Q); intros ? ?).
  cbn [ret fst]. unfold Q.
  match goal with
  | |- context [clampLengths ?c] =>
      pose proof (clampLengths_reach c) as Hcl; set (r := clampLengths c) in *
  end.
  intros Ht. destruct (Hcl Ht) as (Hreach & Hc & Hg & Hr).
  split; [ exact Hreach | ].
  assert (Ht' : type r = Some fivebar).
  { unfold typeIs in Ht. destruct (type r) as [[] | ];
      solve [ discriminate Ht | reflexivity ]. }
  destruct (fivebar_pins_apart _ crankAngleRad Ht') as (p & Ep & Hd).
  rewrite !Rabs_pos_eq in Hd by assumption.
  exists p. split; [ exact Ep | ].
  unfold effectiveArmsReach in Hreach. lra.
Qed.

Lemma sameIdentity_refl (c : MechanismConfig) : sameIdentity c c.
Proof.
  unfold sameIdentity. tauto.
Qed.

Lemma sameIdentity_trans (a b c : MechanismConfig) :
  sameIdentity a b -> sameIdentity b c -> sameIdentity a c.
Proof.
  unfold sameIdentity. intros (H1 & H2 & H3 & H4) (K1 & K2 & K3 & K4).
  rewrite K1, K2, K3, K4. tauto.
Qed.

Lemma yields_weaken {A : Type} (m : M A) (P Q : A -> Prop) :
  yields m P -> (forall a, P a -> Q a) -> yields m Q.
Proof.
  intros Hm HPQ w Hw. destruct (Hm w Hw) as [H1 H2]. split; auto.
Qed.

Lemma yields_same_bind (m : M MechanismConfig)
    (k : MechanismConfig -> M MechanismConfig) (c : MechanismConfig) :
  yields m (sameIdentity c) -> (forall a, yields (k a) (sameIdentity a)) ->
  yields (bind m k) (sameIdentity c).
Proof.
  intros Hm Hk. apply (yields_bind m k (sameIdentity c)); [ exact Hm | ].
  intros a Ha. apply (yields_weaken _ _ _ (Hk a)).
  intros r Hr. exact (sameIdentity_trans _ _ _ Ha Hr).
Qed.

Lemma yields_withChance_same (p : R)
    (update : MechanismConfig -> M MechanismConfig) (conf : MechanismConfig) :
  (forall c, yields (update c) (sameIdentity c)) ->
  yields (withChance p update conf) (sameIdentity conf).
Proof.
  intros H. unfold withChance.
  apply (yields_bind _ _ _ _ yields_random). intros u _.
  destruct (Js.ltb u p); [ apply H | apply yields_ret, sameIdentity_refl ].
Qed.

Lemma clampLengths_same (conf : MechanismConfig) :
  sameIdentity conf (clampLengths conf).
Proof.
  unfold clampLengths. cbv zeta.
  match goal with
  | |- sameIdentity _ (if ?b then enforceFiveBarConstraints ?c else ?c) =>
      assert (H : sameIdentity conf c);
      [ | destruct b; [ | exact H ];
          apply (sameIdentity_trans _ _ _ H);
          destruct (enforce_preserves c) as (Et & _);
          destruct (enforce_frame c) as (_ & _ & _ & _ & _ & _ & Ei & Ec & Ev);
          unfold sameIdentity; tauto ]
  end.
  unfold sameIdentity.
  destruct (Js.present _); fields; tauto.
Qed.

Ltac same_leaf :=
  apply yields_ret;
  repeat match goal with
         | |- context [if ?b then _ else _] => destruct b
         end;
  unfold sameIdentity; fields; repeat split; reflexivity.

Ltac same_step :=
  lazymatch goal with
  | |- yields (ret (clampLengths ?c)) (sameIdentity ?c) =>
      apply yields_ret, clampLengths_same
  | |- yields (ret _) (sameIdentity _) => same_leaf
  | |- yields (withChance ?p ?f ?c) (sameIdentity ?c) =>
      apply (yields_withChance_same p f c); intros ?
  | |- yields (bind (withChance ?p ?f ?c) ?k) (sameIdentity ?c) =>
      apply (yields_same_bind (withChance p f c) k c); [ | intros ? ]
  | |- yields (bind (if ?b then ?m1 else ?m2) ?k) (sameIdentity ?c) =>
      apply (yields_same_bind (if b then m1 else m2) k c); [ | intros ? ]
  | |- yields (bind random ?k) ?Q =>
      apply (yields_bind random k _ Q yields_random); intros ? _
  | |- yields (bind (bind random ?f) ?k) ?Q =>
      apply (yields_bind (bind random f) k (fun _ => True) Q);
      [ apply yields_keeps; keeps | intros ? _ ]
  | |- yields (if ?b then _ else _) _ => destruct b
  | |- yields (let v := ?d in @?body v) ?Q =>
      change (let v := d in yields (body v) Q); intro; cbv beta
  | |- yields ((fun _ => _) _) _ => cbv beta
  end.

(** With unit draws, the pick is one of the types it picks from. *)
Lemma pickType_yields (types : list MechanismType) :
  types <> [] ->
  yields (pickType types) (fun ty => exists t, ty = Some t /\ In t types).
Proof.
  intros Hne. unfold pickType.
  apply (yields_bind _ _ _ _ yields_random). intros u Hu.
  apply yields_ret.
  destruct (index_unit_draw types u Hne Hu) as (t & Et).
  exists t. split; [ exact Et | exact (index_In _ _ _ Et) ].
Qed.

Lemma mutateConfig_keeps (config : MechanismConfig) (temperature : R)
    (fixedType : bool) (excludedType : option MechanismType) :
  yields (mutateConfig config temperature fixedType excludedType)
    (fun r =>
       variantAfterMutation config excludedType r
       /\ (fixedType = true \/ temperature <= 0.3 -> type r = type config)
       /\ id r = id config /\ color r = color config
       /\ visible r = visible config).
Proof.
  unfold mutateConfig. lazy head zeta beta.
  match goal with
  | |- yields (bind ?m ?k) ?Q =>
      apply (yields_bind m k
               (fun c =>
                  variantAfterMutation config excludedType c
                  /\ (fixedType = true \/ temperature <= 0.3 ->
                      type c = type config)
                  /\ id c = id config /\ color c = color config
                  /\ visible c = visible config))
  end.
  - assert (Hsame : yields (ret config)
              (fun c =>
                 variantAfterMutation config excludedType c
                 /\ (fixedType = true \/ temperature <= 0.3 ->
                     type c = type config)
                 /\ id c = id config /\ color c = color config
                 /\ visible c = visible config)).
    { apply yields_ret. unfold variantAfterMutation. tauto. }
    destruct (negb fixedType && Js.gtb temperature 0.3) eqn:Egate;
      [ | exact Hsame ].
    apply andb_prop in Egate. destruct Egate as [Ef Et].
    apply negb_true_iff in Ef. apply gtb_true_iff in Et.
    apply (yields_bind _ _ _ _ yields_random). intros u _.
    destruct (Js.ltb u 0.15); [ | exact Hsame ].
    set (types := filter (differsFrom (type config))
                    match excludedType with
                    | Some _ => filter (differsFrom excludedType) MECHANISM_TYPES
                    | None => MECHANISM_TYPES
                    end).
    destruct (0 <? length types)%nat eqn:Elen; [ | exact Hsame ].
    assert (Hne : types <> []).
    { intros E. rewrite E in Elen. discriminate Elen. }
    apply (yields_bind _ _ _ _ (pickType_yields types Hne)).
    intros ty (t & -> & Ht).
    assert (Hvar : In t MECHANISM_TYPES /\ excludedType <> Some t
                   /\ type config <> Some t).
    { unfold types in Ht. apply filter_In in Ht. destruct Ht as [Ht Hd].
      apply differsFrom_true_iff in Hd.
      destruct excludedType as [e | ].
      - apply filter_In in Ht. destruct Ht as [Ht He].
        apply differsFrom_true_iff in He. tauto.
      - repeat split; [ exact Ht | discriminate | exact Hd ]. }
    assert (Hnew : forall c, type c = Some t -> id c = id config ->
                             color c = color config ->
                             visible c = visible config ->
              variantAfterMutation config excludedType c
              /\ (fixedType = true \/ temperature <= 0.3 -> type c = type config)
              /\ id c = id config /\ color c = color config
              /\ visible c = visible config).
    { intros c Hc Hi Hcol Hvis. repeat split; try assumption.
      - right. exists t. tauto.
      - intros [H | H]; [ congruence | lra ]. }
    destruct (typeIs (set_type (Some t) config) fivebar).
    + apply (yields_bind _ _ _ _ yields_random). intros ud _.
      apply yields_ret. apply Hnew; reflexivity.
    + apply yields_ret. apply Hnew; reflexivity.
  - intros c (Hv & Hfix & Hi & Hc & Hvis).
    match goal with
    | |- yields ?m _ => assert (Hrest : yields m (sameIdentity c))
    end.
    { repeat same_step. }
    apply (yields_weaken _ _ _ Hrest).
    intros r (Rt & Ri & Rc & Rv).
    unfold variantAfterMutation in *. rewrite Rt, Ri, Rc, Rv. tauto.
Qed.

(** X19.  With unit draws, a mutation returns the same mechanism in another
    shape: identifier, color and visibility are the input's; the variant is
    the input's unless the structure mutation fired, which takes a fixed
    type being off and a temperature above 0.3, and which then picks among
    [MECHANISM_TYPES] a variant that is neither the excluded nor the current
    one. *)
Theorem mutateConfig_keeps_the_mechanism
    (config : MechanismConfig) (temperature : R) (fixedType : bool)
    (excludedType : option MechanismType) (world : World) :
  unitDraws world ->
  let r := fst (mutateConfig config temperature fixedType excludedType world) in
  variantAfterMutation config excludedType r
  /\ (fixedType = true \/ temperature <= 0.3 -> type r = type config)
  /\ id r = id config /\ color r = color config /\ visible r = visible config.
Proof.
  intros Hw.
  exact (proj1 (mutateConfig_keeps config temperature fixedType excludedType
                  world Hw)).
Qed.

Lemma mutateConfig_keeps_the_mechanism_witness :
  let r := fst (mutateConfig presetGeared 1 false (Some fourbar) stillWorld) in
  variantAfterMutation presetGeared (Some fourbar) r
  /\ (false = true \/ 1 <= 0.3 -> type r = type presetGeared)
  /\ id r = id presetGeared /\ color r = color presetGeared
  /\ visible r = visible presetGeared.
Proof.
  apply (mutateConfig_keeps_the_mechanism presetGeared 1 false (Some fourbar)
           stillWorld).
  exact stillWorld_unitDraws.
Defined.

Lemma mutated_fivebar_within_reach_witness :
  let r :=
    fst (mutateConfig (placeAt 100 50 30 presetGeared) 1 true None cyclingWorld) in
  placed r = true
  /\ effectiveArmsReach r
  /\ let s := calculateLinkage r 0 in
     exists a, aux s = Some a
       /\ dist (j1 s) a <= couplerLength r + Js.orElse (rodLength r) 100.
Proof.
  apply (mutated_fivebar_within_reach (placeAt 100 50 30 presetGeared) 1 true
           None cyclingWorld 0).
  - reflexivity.
  - unfold typeIs.
    destruct (mutateConfig_keeps (placeAt 100 50 30 presetGeared) 1 true None
                cyclingWorld cyclingWorld_unitDraws) as [(_ & Ht & _) _].
    rewrite Ht by (left; reflexivity). reflexivity.
Defined.

(** ** The sort of the population *)

Lemma insertByScore_In (s t : Scored) (sorted : list Scored) :
  In t (insertByScore s sorted) <-> t = s \/ In t sorted.
Proof.
  induction sorted as [ | u rest IH]; simpl.
  - intuition congruence.
  - destruct (Num.ltb _ _); simpl; [ intuition congruence | ].
    rewrite IH. intuition congruence.
Qed.

Lemma sortByScore_In (t : Scored) (l : list Scored) :
  In t (sortByScore l) <-> In t l.
Proof.
  unfold sortByScore.
  assert (H : forall acc,
             In t (fold_left (fun sorted s => insertByScore s sorted) l acc)
             <-> In t acc \/ In t l).
  { induction l as [ | s rest IH]; intros acc; simpl; [ tauto | ].
    rewrite IH, insertByScore_In. intuition congruence. }
  rewrite H. simpl. tauto.
Qed.

Lemma sortedScores_cons (a b : Scored) (l : list Scored) :
  sortedScores (a :: b :: l)
  <-> Num.le (score a) (score b) /\ sortedScores (b :: l).
Proof.
  reflexivity.
Qed.

Lemma insertByScore_sorted (s : Scored) (sorted : list Scored) :
  (exists v, score s = Fin v) -> finiteScores sorted -> sortedScores sorted ->
  sortedScores (insertByScore s sorted).
Proof.
  intros (v & Ev). induction sorted as [ | t rest IH]; intros Hfin Hs.
  - exact I.
  - cbn [insertByScore].
    destruct (Hfin t (or_introl eq_refl)) as (u & Eu).
    rewrite Ev, Eu. cbn [Num.sub Num.ltb].
    destruct (Js.ltb (v - u) 0) eqn:E;
      [ apply ltb_true_iff in E | apply ltb_false_iff in E ].
    + apply sortedScores_cons. rewrite Ev, Eu. cbn [Num.le].
      split; [ lra | exact Hs ].
    + assert (Hrest : sortedScores (insertByScore s rest)).
      { apply IH.
        - intros r Hr. apply Hfin. right. exact Hr.
        - destruct rest; [ exact I | exact (proj2 (proj1 (sortedScores_cons _ _ _) Hs)) ]. }
      destruct rest as [ | r rest'].
      * cbn [insertByScore]. apply sortedScores_cons.
        rewrite Ev, Eu. cbn [Num.le]. split; [ lra | exact I ].
      * apply sortedScores_cons in Hs. destruct Hs as [Htr Hs].
        cbn [insertByScore] in *.
        destruct (Num.ltb (Num.sub (score s) (score r)) (Fin 0)).
        -- apply sortedScores_cons. rewrite Ev, Eu. cbn [Num.le].
           split; [ lra | exact Hrest ].
        -- apply sortedScores_cons. split; [ exact Htr | exact Hrest ].
Qed.

Lemma sortByScore_sorted (l : list Scored) :
  finiteScores l -> sortedScores (sortByScore l).
Proof.
  unfold sortByScore. intros Hfin.
  assert (H : forall acc, finiteScores acc -> sortedScores acc ->
             sortedScores (fold_left (fun sorted s => insertByScore s sorted) l acc)).
  { induction l as [ | s rest IH]; intros acc Hacc Hs; simpl; [ exact Hs | ].
    apply IH.
    - intros r Hr. apply Hfin. right. exact Hr.
    - intros r Hr. apply insertByScore_In in Hr. destruct Hr as [-> | Hr].
      + apply Hfin. left. reflexivity.
      + apply Hacc. exact Hr.
    - apply insertByScore_sorted; [ apply Hfin; left; reflexivity | exact Hacc | exact Hs ]. }
  apply H; [ intros r [] | exact I ].
Qed.

(** The head of a sorted list of finite scores has the least score. *)
Lemma sorted_head_least (a : Scored) (rest : list Scored) :
  finiteScores (a :: rest) -> sortedScores (a :: rest) ->
  forall s, In s (a :: rest) -> Num.le (score a) (score s).
Proof.
  revert a. induction rest as [ | b rest IH]; intros a Hfin Hs s Hin.
  - destruct Hin as [<- | []].
    destruct (Hfin a (or_introl eq_refl)) as (v & ->). simpl. lra.
  - destruct Hin as [<- | Hin].
    + destruct (Hfin a (or_introl eq_refl)) as (v & ->). simpl. lra.
    + apply sortedScores_cons in Hs. destruct Hs as [Hab Hs].
      assert (Hb : Num.le (score b) (score s)).
      { apply IH; [ intros r Hr; apply Hfin; right; exact Hr | exact Hs | exact Hin ]. }
      destruct (Hfin a (or_introl eq_refl)) as (va & Ea).
      destruct (Hfin b (or_intror (or_introl eq_refl))) as (vb & Eb).
      destruct (Hfin s (or_intror Hin)) as (vs & Es).
      rewrite Ea, Eb, Es in *. simpl in *. lra.
Qed.

Lemma scoreAll_finite (path : list Point) (l : list MechanismConfig) :
  path <> [] -> finiteScores (scoreAll path l).
Proof.
  intros Hpath s Hs. unfold scoreAll in Hs. apply in_map_iff in Hs.
  destruct Hs as (m & <- & _). cbn [score].
  destruct (evaluateFitness_finite m path Hpath) as (v & -> & _).
  exists v. reflexivity.
Qed.

(** The best of a scored and sorted population: one of its members, scored
    as [evaluateFitness] scores it, and no member scores less. *)
Lemma sorted_population_head (path : list Point) (pop : list MechanismConfig)
    (best : Scored) (rest : list Scored) :
  path <> [] ->
  sortByScore (scoreAll path pop) = best :: rest ->
  In (mech best) pop
  /\ score best = evaluateFitness (mech best) path
  /\ (forall m, In m pop ->
      Num.le (evaluateFitness (mech best) path) (evaluateFitness m path)).
Proof.
  intros Hpath E.
  assert (Hin : forall s, In s (best :: rest) <-> In s (scoreAll path pop))
    by (intros s; rewrite <- E; apply sortByScore_In).
  assert (Hfin : finiteScores (best :: rest)).
  { intros s Hs. apply (scoreAll_finite path pop Hpath). apply Hin. exact Hs. }
  assert (Hsorted : sortedScores (best :: rest)).
  { rewrite <- E. apply sortByScore_sorted, scoreAll_finite, Hpath. }
  assert (Hbest : In best (scoreAll path pop)) by (apply Hin; left; reflexivity).
  unfold scoreAll in Hbest. apply in_map_iff in Hbest.
  destruct Hbest as (m0 & <- & Hm0). cbn [mech score].
  repeat split; [ exact Hm0 | ].
  intros m Hm.
  apply (sorted_head_least _ _ Hfin Hsorted
           (mkScored m (evaluateFitness m path))).
  apply Hin. unfold scoreAll. apply in_map_iff. exists m. auto.
Qed.

(** The refill only appends. *)
Lemma refill_appends (env : Search) (survivors : list Scored) (gen missing : nat)
    (nextGen filled : list MechanismConfig) (w w' : World) :
  refill env survivors gen missing nextGen w = (Some filled, w') ->
  exists more, filled = nextGen ++ more.
Proof.
  revert nextGen w. induction missing as [ | missing IH]; intros nextGen w.
  - cbn [refill ret]. intros E. injection E as <- _. exists []. now rewrite app_nil_r.
  - cbn [refill]. intros E.
    apply bind_inv in E as (u & w1 & _ & E).
    destruct (Js.ltb u 0.10).
    + apply bind_inv in E as (c & w2 & _ & E).
      destruct (IH _ _ E) as (more & ->).
      exists (c :: more). rewrite <- app_assoc. reflexivity.
    + apply bind_inv in E as (up & w2 & _ & E).
      destruct (Js.index survivors _) as [parent | ]; [ | discriminate E ].
      apply bind_inv in E as (pr & w3 & _ & E).
      apply bind_inv in E as (c & w4 & _ & E).
      destruct (IH _ _ E) as (more & ->).
      exists (c :: more). rewrite <- app_assoc. reflexivity.
Qed.

(** ** The seeding *)


(** The seeding, cut after the candidates. *)
Lemma seedPopulation_from_candidates (path : list Point)
    (options : OptimizationOptions) (seed : MechanismConfig) (w : World) :
  seedPopulation path options seed w
  = (let '(candidates, w2) := seedCandidates path options seed w in
     let scoredCandidates := scoreAll path candidates in
     let validCandidates :=
       filter (fun s => Num.ltb (score s) (Fin 1e8)) scoredCandidates in
     let poolSource :=
       if (0 <? length validCandidates)%nat
       then validCandidates else scoredCandidates in
     let population := map mech (firstn POPULATION_SIZE (sortByScore poolSource)) in
     pushMany (POPULATION_SIZE - length population)
       (generateSmartConfig (Some path) (forcedType options)
          (if excludeCurrent options then type seed else None))
       population w2).
Proof.
  unfold seedPopulation, seedCandidates. lazy head zeta beta.
  set (first := match seedMechanism options with Some _ => _ | None => _ end).
  unfold bind.
  destruct (first w) as [c1 w1].
  destruct (pushMany PRE_COMPUTE_SIZE _ c1 w1) as [c2 w2]. reflexivity.
Qed.

Lemma In_firstn_In {A : Type} (n : nat) (l : list A) (a : A) :
  In a (firstn n l) -> In a l.
Proof.
  revert l. induction n as [ | n IH]; intros [ | b l]; simpl; try tauto.
  intros [H | H]; [ left; exact H | right; apply IH, H ].
Qed.

Lemma pushMany_all (P : MechanismConfig -> Prop) (n : nat)
    (make : M MechanismConfig) (arr : list MechanismConfig) :
  always make P -> Forall P arr -> always (pushMany n make arr) (Forall P).
Proof.
  intros Hmake. revert arr.
  induction n as [ | n IH]; intros arr Harr w; cbn [pushMany].
  - exact Harr.
  - unfold bind. specialize (Hmake w). destruct (make w) as [c w1].
    apply IH. apply Forall_app. split; [ exact Harr | ].
    constructor; [ exact Hmake | constructor ].
Qed.

(** Every candidate of the seeding is placed when the selected mechanism
    is. *)
Lemma seedCandidates_placed (path : list Point) (options : OptimizationOptions)
    (seed : MechanismConfig) :
  placed seed = true -> always (seedCandidates path options seed) allPlaced.
Proof.
  intros Hseed. unfold seedCandidates. lazy head zeta beta.
  set (first := match seedMechanism options with Some _ => _ | None => _ end).
  assert (Hfirst : always first allPlaced).
  { subst first. destruct (seedMechanism options) as [s | ].
    - apply pushMany_all; [ apply placeSeed_placed | constructor ].
    - destruct (negb (excludeCurrent options) && _).
      + apply pushMany_all; [ apply mutateConfig_placed, Hseed | ].
        constructor; [ exact Hseed | constructor ].
      + apply always_ret. constructor. }
  apply (always_bind _ _ _ _ Hfirst). intros c1 Hc1.
  apply pushMany_all; [ apply generateSmartConfig_placed | exact Hc1 ].
Qed.

Lemma seedPopulation_placed (path : list Point) (options : OptimizationOptions)
    (seed : MechanismConfig) :
  placed seed = true -> always (seedPopulation path options seed) allPlaced.
Proof.
  intros Hseed w. rewrite seedPopulation_from_candidates.
  pose proof (seedCandidates_placed path options seed Hseed w) as Hc.
  destruct (seedCandidates path options seed w) as [cands w2].
  cbn [fst] in Hc. cbv zeta.
  apply pushMany_all; [ apply generateSmartConfig_placed | ].
  unfold allPlaced in *. rewrite Forall_forall in *.
  intros m Hm. apply in_map_iff in Hm. destruct Hm as (s & <- & Hs).
  apply In_firstn_In in Hs. apply (proj1 (sortByScore_In _ _)) in Hs.
  assert (Hsc : In s (scoreAll path cands)).
  { destruct (0 <? length _)%nat; [ apply filter_In in Hs; tauto | exact Hs ]. }
  unfold scoreAll in Hsc. apply in_map_iff in Hsc.
  destruct Hsc as (m0 & <- & Hm0). apply Hc, Hm0.
Qed.



(** ** What a generation hands to the next *)

(** One run of the loop body, read backwards from its result. *)
Lemma generationBody_inv (env : Search) (st st' : LoopState) (w w' : World) :
  generationBody env st w = (Next st', w') ->
  exists best rest more,
    sortByScore (scoreAll (userPath env) (population st)) = best :: rest
    /\ population st' = map mech (firstn 15 (best :: rest)) ++ more
    /\ (15 <= length (best :: rest))%nat
    /\ (globalBestScore st', globalBest st')
       = (if Num.ltb (score best) (globalBestScore st)
          then (score best, mech best)
          else (globalBestScore st, globalBest st))
    /\ shown st'
       = set_color (color (seedMech env)) (set_id (id (seedMech env)) (mech best))
    /\ generation st' = S (generation st).
Proof.
  unfold generationBody.
  destruct (sortByScore (scoreAll (userPath env) (population st)))
    as [ | best rest]; [ discriminate | ].
  destruct (length (best :: rest) <? 15)%nat eqn:Elen;
    [ destruct (Num.ltb _ _); discriminate | ].
  apply Nat.ltb_ge in Elen.
  cbv zeta. intros H.
  destruct (Num.ltb (score best) (globalBestScore st)) eqn:E;
    apply bind_inv in H as (filled & w1 & Hfill & H);
    destruct filled as [filled | ]; try discriminate;
    injection H as <- _;
    destruct (refill_appends _ _ _ _ _ _ _ _ Hfill) as (more & ->);
    exists best, rest, more; rewrite E;
    cbn [population globalBestScore globalBest shown generation];
    repeat split; exact Elen.
Qed.

Lemma pass_inv (env : Search) (st st' : LoopState) (w w' : World) :
  pass env st w = (Next st', w') ->
  exists w0, generationBody env st w0 = (Next st', w').
Proof.
  unfold pass. intros H. apply bind_inv in H as (leave & w0 & _ & H).
  destruct leave; [ discriminate H | ]. exists w0. exact H.
Qed.

Lemma sorted_head_scored (path : list Point) (pop : list MechanismConfig)
    (best : Scored) (rest : list Scored) :
  sortByScore (scoreAll path pop) = best :: rest ->
  In (mech best) pop /\ score best = evaluateFitness (mech best) path.
Proof.
  intros E.
  assert (Hbest : In best (scoreAll path pop))
    by (apply sortByScore_In; rewrite E; left; reflexivity).
  unfold scoreAll in Hbest. apply in_map_iff in Hbest.
  destruct Hbest as (m0 & <- & Hm0). cbn [mech score]. auto.
Qed.

(** X21.  Elitism.  A generation that is followed by another hands its best
    member over unchanged, at the head of the next population: a member
    that no other member outscores.  That member is the one shown, under
    the identifier and the color of the mechanism being optimized, and the
    tracked best score is at most its score. *)
Theorem generation_keeps_its_best
    (env : Search) (st st' : LoopState) (w w' : World) :
  userPath env <> [] -> globalBestScore st <> NaN ->
  pass env st w = (Next st', w') ->
  exists best,
    In best (population st)
    /\ (forall m, In m (population st) ->
        Num.le (evaluateFitness best (userPath env))
               (evaluateFitness m (userPath env)))
    /\ hd_error (population st') = Some best
    /\ Num.le (globalBestScore st') (evaluateFitness best (userPath env))
    /\ shown st'
       = set_color (color (seedMech env)) (set_id (id (seedMech env)) best).
Proof.
  intros Hpath Hnum H.
  apply pass_inv in H as (w0 & H).
  apply generationBody_inv in H
    as (best & rest & more & Esort & Epop & _ & Ebest & Eshown & _).
  destruct (sorted_population_head _ _ _ _ Hpath Esort) as (Hin & Escore & Hleast).
  exists (mech best). repeat split.
  - exact Hin.
  - exact Hleast.
  - rewrite Epop. reflexivity.
  - rewrite <- Escore.
    destruct (evaluateFitness_finite (mech best) (userPath env) Hpath)
      as (v & Ev & _).
    rewrite <- Escore in Ev.
    destruct (Num.ltb (score best) (globalBestScore st)) eqn:E;
      injection Ebest as -> _.
    + rewrite Ev. simpl. lra.
    + rewrite Ev in *. destruct (globalBestScore st) as [g | | | ];
        cbn [Num.ltb Num.le] in *; try congruence; try exact I.
      apply ltb_false_iff in E. exact E.
  - exact Eshown.
Qed.

(** The refill adds fresh candidates and mutants of survivors: placed
    mechanisms when the survivors are. *)
Lemma refill_placed (env : Search) (survivors : list Scored) (gen missing : nat)
    (nextGen filled : list MechanismConfig) (w w' : World) :
  (forall s, In s survivors -> placed (mech s) = true) ->
  allPlaced nextGen ->
  refill env survivors gen missing nextGen w = (Some filled, w') ->
  allPlaced filled.
Proof.
  intros Hs. revert nextGen w.
  induction missing as [ | missing IH]; intros nextGen w Hn.
  - cbn [refill ret]. intros E. injection E as <- _. exact Hn.
  - cbn [refill]. intros E.
    assert (Hpush : forall c, placed c = true -> allPlaced (nextGen ++ [c])).
    { intros c Hc. apply Forall_app. split; [ exact Hn | ].
      constructor; [ exact Hc | constructor ]. }
    apply bind_inv in E as (u & w1 & _ & E).
    destruct (Js.ltb u 0.10).
    + apply bind_inv in E as (c & w2 & Ec & E).
      apply (IH _ _ (Hpush c ltac:(
        pose proof (generateSmartConfig_placed (Some (userPath env)) (forced env)
                      (excludedType env) w1) as H; rewrite Ec in H; exact H)) E).
    + apply bind_inv in E as (up & w2 & _ & E).
      destruct (Js.index survivors _) as [parent | ] eqn:Ei; [ | discriminate E ].
      apply index_In in Ei.
      apply bind_inv in E as (pr & w3 & _ & E).
      apply bind_inv in E as (c & w4 & Ec & E).
      refine (IH _ _ (Hpush c _) E).
      match type of Ec with
      | mutateConfig ?p ?t ?f ?e w3 = _ =>
          pose proof (mutateConfig_placed p t f e (Hs parent Ei) w3) as H
      end.
      rewrite Ec in H. exact H.
Qed.

(** A generation of placed mechanisms hands over placed mechanisms, and
    the tracked best stays one. *)
Lemma pass_placed (env : Search) (st st' : LoopState) (w w' : World) :
  placedState st -> pass env st w = (Next st', w') -> placedState st'.
Proof.
  intros [Hpop Hbest] H. apply pass_inv in H as (w0 & H).
  unfold generationBody in H.
  destruct (sortByScore (scoreAll (userPath env) (population st)))
    as [ | best rest] eqn:Esort; [ discriminate H | ].
  assert (Hin : forall s, In s (best :: rest) -> placed (mech s) = true).
  { intros s Hs. rewrite <- Esort in Hs. apply (proj1 (sortByScore_In _ _)) in Hs.
    unfold scoreAll in Hs. apply in_map_iff in Hs.
    destruct Hs as (m & <- & Hm). cbn [mech].
    unfold allPlaced in Hpop. rewrite Forall_forall in Hpop. apply Hpop, Hm. }
  destruct (length (best :: rest) <? 15)%nat;
    [ destruct (Num.ltb _ _); discriminate H | ].
  cbv zeta in H.
  assert (Hnext : allPlaced (map mech (firstn 15 (best :: rest)))).
  { unfold allPlaced. rewrite Forall_forall. intros m Hm.
    apply in_map_iff in Hm. destruct Hm as (s & <- & Hs).
    apply Hin. apply In_firstn_In in Hs. exact Hs. }
  assert (Hsurv : forall s, In s (firstn (POPULATION_SIZE / 2) (best :: rest)) ->
                            placed (mech s) = true).
  { intros s Hs. apply Hin. apply In_firstn_In in Hs. exact Hs. }
  destruct (Num.ltb (score best) (globalBestScore st));
    apply bind_inv in H as (filled & w1 & Hfill & H);
    destruct filled as [filled | ]; try discriminate H;
    injection H as <- _; split; cbn [population globalBest];
    try exact (refill_placed _ _ _ _ _ _ _ _ Hsurv Hnext Hfill);
    [ apply Hin; left; reflexivity | exact Hbest ].
Qed.

Lemma generations_placed (env : Search) (k : nat) (st st' : LoopState)
    (w w' : World) :
  placedState st -> generations env k st w = (Some st', w') -> placedState st'.
Proof.
  revert st w. induction k as [ | k IH]; intros st w Hst H.
  - injection H as <- _. exact Hst.
  - cbn [generations] in H. apply bind_inv in H as (r & w1 & Hpass & H).
    destruct r as [ | st1 | ]; try discriminate H.
    exact (IH st1 w1 (pass_placed _ _ _ _ _ Hst Hpass) H).
Qed.

Lemma startEvolution_placed (path : list Point)
    (options : OptimizationOptions) (seed : MechanismConfig) (optDuration : R)
    (population : list MechanismConfig) (w w0 : World) (env : Search)
    (st : LoopState) :
  allPlaced population ->
  startEvolution path options seed optDuration population w
  = (Some (env, st), w0) ->
  placedState st.
Proof.
  unfold startEvolution. intros Hpop.
  destruct population as [ | best rest]; [ discriminate | ].
  intros H. apply bind_inv in H as (start & w1 & _ & H).
  injection H as _ <- _. split; cbn [App.population globalBest];
    [ exact Hpop | ].
  unfold allPlaced in Hpop. rewrite Forall_forall in Hpop.
  apply Hpop. left. reflexivity.
Qed.

(** The tracked score stays the score of the tracked mechanism. *)
Lemma pass_bestIsScored (env : Search) (st st' : LoopState) (w w' : World) :
  bestIsScored env st -> pass env st w = (Next st', w') -> bestIsScored env st'.
Proof.
  unfold bestIsScored. intros Hst H.
  apply pass_inv in H as (w0 & H).
  apply generationBody_inv in H
    as (best & rest & more & Esort & _ & _ & Ebest & _).
  destruct (sorted_head_scored _ _ _ _ Esort) as (_ & Escore).
  destruct (Num.ltb (score best) (globalBestScore st));
    injection Ebest as -> ->; assumption.
Qed.

Lemma generations_bestIsScored (env : Search) (k : nat) (st st' : LoopState)
    (w w' : World) :
  bestIsScored env st -> generations env k st w = (Some st', w') ->
  bestIsScored env st'.
Proof.
  revert st w. induction k as [ | k IH]; intros st w Hst H.
  - injection H as <- _. exact Hst.
  - cbn [generations] in H. apply bind_inv in H as (r & w1 & Hpass & H).
    destruct r as [ | st1 | ]; try discriminate H.
    exact (IH st1 w1 (pass_bestIsScored _ _ _ _ _ Hst Hpass) H).
Qed.

Lemma startEvolution_bestIsScored (path : list Point)
    (options : OptimizationOptions) (seed : MechanismConfig) (optDuration : R)
    (population : list MechanismConfig) (w w0 : World) (env : Search)
    (st : LoopState) :
  startEvolution path options seed optDuration population w
  = (Some (env, st), w0) ->
  bestIsScored env st /\ userPath env = path /\ seedMech env = seed
  /\ hd_error population = Some (globalBest st).
Proof.
  unfold startEvolution. destruct population as [ | best rest]; [ discriminate | ].
  intros H. apply bind_inv in H as (start & w1 & _ & H).
  injection H as <- <- _. unfold bestIsScored. cbn. auto.
Qed.

(** X22.  No drift between the two tracked variables: from the first line of
    the loop on, and after any number of generations, [globalBestScore] is
    the score [evaluateFitness] gives to [globalBest] on the drawn path. *)
Theorem global_best_is_scored
    (path : list Point) (options : OptimizationOptions) (seed : MechanismConfig)
    (optDuration : R) (population : list MechanismConfig) (world world0 : World)
    (env : Search) (st : LoopState) (k : nat) (st' : LoopState) (world' : World) :
  startEvolution path options seed optDuration population world
  = (Some (env, st), world0) ->
  generations env k st world0 = (Some st', world') ->
  globalBestScore st' = evaluateFitness (globalBest st') path.
Proof.
  intros Hstart Hgen.
  destruct (startEvolution_bestIsScored _ _ _ _ _ _ _ _ _ Hstart)
    as (Hst & Hpath & _).
  pose proof (generations_bestIsScored _ _ _ _ _ _ Hst Hgen) as H.
  unfold bestIsScored in H. rewrite Hpath in H. exact H.
Qed.

Lemma global_best_is_scored_witness :
  let options := mkOptions None false None in
  let seed := placeAt 100 50 30 presetCrankRocker in
  exists seeded w1 env st world0 st' world',
    seedPopulation cornerPath options seed cyclingWorld = (seeded, w1)
    /\ startEvolution cornerPath options seed 0 seeded w1
       = (Some (env, st), world0)
    /\ generations env 3 st world0 = (Some st', world')
    /\ generation st' = 3%nat
    /\ globalBestScore st' = evaluateFitness (globalBest st') cornerPath.
Proof.
  intros options seed.
  destruct (seedPopulation_spec cornerPath options seed cyclingWorld
              cyclingWorld_unitDraws) as (seeded & w1 & Eseed & Hlen & Hw1).
  assert (Hne : seeded <> []) by (intros E; rewrite E in Hlen; discriminate Hlen).
  destruct (startEvolution_runs cornerPath options seed 0 seeded w1 Hne Hw1)
    as (env & st & world0 & Estart & Hlimit & Hpop & Hgen & Hw0).
  assert (Hmode : isTimeBound env = false).
  { unfold isTimeBound. rewrite Hlimit. apply gtb_false_iff. lra. }
  rewrite <- Hpop in Hlen.
  destruct (generations_run env 3 st world0 Hmode
              ltac:(rewrite Hgen; unfold DEFAULT_GENERATIONS; lia) Hlen Hw0)
    as (st' & world' & Ek & Hgenk & _).
  exists seeded, w1, env, st, world0, st', world'.
  split; [ exact Eseed | ]. split; [ exact Estart | ]. split; [ exact Ek | ].
  split; [ rewrite Hgenk, Hgen; reflexivity | ].
  exact (global_best_is_scored cornerPath options seed 0 seeded w1 world0 env st
           3 st' world' Estart Ek).
Defined.

Lemma generation_keeps_its_best_witness :
  let env := mkSearch cornerPath None None presetCrankRocker 0 0 in
  let st := mkLoopState (repeat presetCrankRocker 100) presetCrankRocker (Fin 0)
              0 presetCrankRocker in
  exists st' w' best,
    pass env st stillWorld = (Next st', w')
    /\ In best (population st)
    /\ (forall m, In m (population st) ->
        Num.le (evaluateFitness best (userPath env))
               (evaluateFitness m (userPath env)))
    /\ hd_error (population st') = Some best
    /\ Num.le (globalBestScore st') (evaluateFitness best (userPath env))
    /\ shown st'
       = set_color (color (seedMech env)) (set_id (id (seedMech env)) best).
Proof.
  intros env st.
  assert (Hmode : isTimeBound env = false)
    by (unfold isTimeBound, env; cbn [timeLimit]; apply gtb_false_iff; lra).
  assert (Hgen : (generation st < DEFAULT_GENERATIONS)%nat)
    by (unfold DEFAULT_GENERATIONS; cbn; lia).
  destruct (pass_runs env st stillWorld Hmode Hgen eq_refl stillWorld_unitDraws)
    as (st' & w' & E & _).
  assert (Hpath : userPath env <> []) by discriminate.
  assert (Hnum : globalBestScore st <> NaN) by discriminate.
  destruct (generation_keeps_its_best env st st' stillWorld w' Hpath Hnum E)
    as (best & H).
  exists st', w', best. split; [ exact E | exact H ].
Defined.

(** ** What the run returns *)

Lemma evolve_inv (Inv : LoopState -> Prop) (env : Search) :
  (forall st st' w w', Inv st -> pass env st w = (Next st', w') -> Inv st') ->
  forall fuel st w final w',
    Inv st -> evolve env fuel st w = (Done final, w') -> Inv final.
Proof.
  intros Hstep. induction fuel as [ | fuel IH]; intros st w final w' Hst H.
  - discriminate H.
  - cbn [evolve] in H. apply bind_inv in H as (r & w1 & Hpass & H).
    destruct r as [ | st1 | ].
    + injection H as <- _. exact Hst.
    + exact (IH st1 w1 final w' (Hstep _ _ _ _ Hst Hpass) H).
    + discriminate H.
Qed.

(** A run that ends, read backwards from its result. *)
Lemma runOptimization_done_inv (mechanisms : list MechanismConfig)
    (selected : Ident) (seed : MechanismConfig) (path : list Point)
    (optDuration : R) (options : OptimizationOptions) (fuel : nat)
    (w w' : World) (final : LoopState) :
  find (fun m => sameIdent (id m) selected) mechanisms = Some seed ->
  runOptimization mechanisms (Some selected) path optDuration options fuel w
  = (Ended (Done final), w') ->
  path <> []
  /\ globalBestScore final = evaluateFitness (globalBest final) path
  /\ shown final = set_color (color seed) (set_id (id seed) (globalBest final))
  /\ (placed seed = true -> placedState final).
Proof.
  intros Hfind. unfold runOptimization.
  destruct (length path <? 3)%nat eqn:Elen; [ discriminate | ].
  assert (Hpath : path <> []).
  { intros E. rewrite E in Elen. discriminate Elen. }
  assert (Hrun : forall sel,
             find (fun m => sameIdent (id m) sel) mechanisms = Some seed ->
             (seeded <- seedPopulation path options seed ;;
              started <- startEvolution path options seed optDuration seeded ;;
              match started with
              | None => ret (Ended Threw)
              | Some (env, st) =>
                  result <- evolve env fuel st ;;
                  ret (Ended
                         (match result with
                          | Done final =>
                              Done (mkLoopState (population final)
                                      (globalBest final) (globalBestScore final)
                                      (generation final)
                                      (set_color (color seed)
                                         (set_id (id seed) (globalBest final))))
                          | other => other
                          end))
              end) w = (Ended (Done final), w') ->
             globalBestScore final = evaluateFitness (globalBest final) path
             /\ shown final
                = set_color (color seed) (set_id (id seed) (globalBest final))
             /\ (placed seed = true -> placedState final)).
  { intros sel _ H.
    apply bind_inv in H as (seeded & w1 & Hseeded & H).
    apply bind_inv in H as (started & w2 & Hstart & H).
    destruct started as [[env st] | ]; [ | discriminate H ].
    apply bind_inv in H as (result & w3 & Hev & H).
    destruct result as [f0 | | ]; try discriminate H.
    injection H as <- _. cbn [globalBestScore globalBest shown].
    destruct (startEvolution_bestIsScored _ _ _ _ _ _ _ _ _ Hstart)
      as (Hst & Epath & _).
    pose proof (evolve_inv (bestIsScored env) env (pass_bestIsScored env)
                  fuel st w2 f0 w3 Hst Hev) as Hf.
    unfold bestIsScored in Hf. rewrite Epath in Hf.
    split; [ exact Hf | ]. split; [ reflexivity | ].
    intros Hplaced.
    pose proof (seedPopulation_placed path options seed Hplaced w) as Hpop.
    rewrite Hseeded in Hpop. cbn [fst] in Hpop.
    pose proof (startEvolution_placed _ _ _ _ _ _ _ _ _ Hpop Hstart) as Hst0.
    exact (evolve_inv placedState env (pass_placed env) fuel st w2 f0 w3
             Hst0 Hev). }
  intros H. split; [ exact Hpath | ].
  destruct selected as [[ | c s] | u]; [ discriminate H | | ];
    rewrite Hfind in H; exact (Hrun _ Hfind H).
Qed.

(** X23.  The run in generation-count mode ([optDuration = 0]) on unit draws,
    for a selected mechanism that has a position and an orientation: it
    ends after exactly 100 generations without throwing, and what it
    returns is consistent: the score it reports is the score of the
    mechanism it reports, a finite number that is not negative; the
    mechanism it shows is that mechanism under the identifier and the color
    of the one that was selected; and that mechanism and every member of
    the last population have a position and an orientation. *)
Theorem runOptimization_returns_its_best (mechanisms : list MechanismConfig)
    (selected : Ident) (seed : MechanismConfig) (path : list Point)
    (options : OptimizationOptions) (w : World) :
  (3 <= length path)%nat ->
  selected <> Named "" ->
  find (fun m => sameIdent (id m) selected) mechanisms = Some seed ->
  placed seed = true ->
  unitDraws w ->
  exists final w',
    runOptimization mechanisms (Some selected) path 0 options 101 w
    = (Ended (Done final), w')
    /\ generation final = DEFAULT_GENERATIONS
    /\ globalBestScore final = evaluateFitness (globalBest final) path
    /\ (exists v, globalBestScore final = Fin v /\ 0 <= v)
    /\ shown final = set_color (color seed) (set_id (id seed) (globalBest final))
    /\ placed (globalBest final) = true
    /\ allPlaced (population final).
Proof.
  intros Hlen Hsel Hfind Hplaced Hw.
  destruct (runOptimization_completes mechanisms selected seed path options w
              Hlen Hsel Hfind Hw) as (final & w' & E & Hgen).
  destruct (runOptimization_done_inv _ _ _ _ _ _ _ _ _ _ Hfind E)
    as (Hpath & Hscore & Hshown & Hinv).
  destruct (Hinv Hplaced) as [Hpop Hbest].
  exists final, w'. repeat split; try assumption.
  rewrite Hscore. exact (evaluateFitness_finite _ _ Hpath).
Qed.

Lemma runOptimization_returns_its_best_witness :
  let seed := placeAt 100 50 30 presetCrankRocker in
  exists final w',
    runOptimization [presetPiston; seed] (Some (Named "p1"))
      cornerPath 0 (mkOptions None false None) 101 cyclingWorld
    = (Ended (Done final), w')
    /\ generation final = DEFAULT_GENERATIONS
    /\ globalBestScore final = evaluateFitness (globalBest final) cornerPath
    /\ (exists v, globalBestScore final = Fin v /\ 0 <= v)
    /\ shown final = set_color (color seed) (set_id (id seed) (globalBest final))
    /\ placed (globalBest final) = true
    /\ allPlaced (population final).
Proof.
  intros seed.
  apply (runOptimization_returns_its_best [presetPiston; seed] (Named "p1")
           seed cornerPath (mkOptions None false None) cyclingWorld).
  - simpl; lia.
  - discriminate.
  - reflexivity.
  - reflexivity.
  - exact cyclingWorld_unitDraws.
Defined.

(** ** The canvas: zoom, drag, draw *)

(** X24.  The wheel zooms about the pointer: the zoom stays within [[0.1, 10]],
    and the point of the plane under the pointer is the same before and
    after. *)
Theorem wheel_zooms_about_the_pointer
    (s : Canvas.State) (svgP : Point) (deltaY : R) :
  Canvas.zoom s <> 0 ->
  let s' := Canvas.handleWheel s svgP deltaY in
  0.1 <= Canvas.zoom s' <= 10
  /\ Canvas.getWorldPoint s' svgP = Canvas.getWorldPoint s svgP
  /\ Canvas.mechanisms s' = Canvas.mechanisms s
  /\ Canvas.userPath s' = Canvas.userPath s.
Proof.
  intros Hz. unfold Canvas.handleWheel. cbv zeta.
  set (newZoom := Rmin 10 (Rmax 0.1 _)).
  assert (Hrange : 0.1 <= newZoom <= 10).
  { unfold newZoom. split.
    - apply Rmin_glb; [ lra | apply Rmax_l ].
    - apply Rmin_l. }
  unfold Canvas.getWorldPoint, Canvas.setViewOffset, Canvas.setZoom.
  cbn [Canvas.zoom Canvas.viewOffset Canvas.mechanisms Canvas.userPath x y].
  repeat split; try lra.
  unfold Canvas.INITIAL_OFFSET_X, Canvas.INITIAL_OFFSET_Y.
  f_equal; field; lra.
Qed.

Lemma wheel_zooms_about_the_pointer_witness :
  let s := Canvas.mkState [] 0 true false [] (mkPoint 0 0) 1 false false None in
  let s' := Canvas.handleWheel s (mkPoint 500 200) (-100) in
  0.1 <= Canvas.zoom s' <= 10
  /\ Canvas.getWorldPoint s' (mkPoint 500 200)
     = Canvas.getWorldPoint s (mkPoint 500 200)
  /\ Canvas.mechanisms s' = Canvas.mechanisms s
  /\ Canvas.userPath s' = Canvas.userPath s.
Proof.
  apply (wheel_zooms_about_the_pointer
           (Canvas.mkState [] 0 true false [] (mkPoint 0 0) 1 false false None)
           (mkPoint 500 200) (-100)).
  cbn [Canvas.zoom]. lra.
Defined.

Lemma sameIdent_true_iff (a b : Ident) : sameIdent a b = true <-> a = b.
Proof.
  destruct a as [s | u], b as [t | v]; simpl.
  - rewrite String.eqb_eq. split; congruence.
  - split; discriminate.
  - split; discriminate.
  - rewrite eqb_true_iff. split; congruence.
Qed.

(** After an update that keeps identifiers, the mechanism found under an
    identifier is the update of the one found before. *)
Lemma find_after_update (ident : Ident) (m : MechanismConfig)
    (updates : MechanismConfig -> MechanismConfig) (s : Canvas.State) :
  (forall c, id (updates c) = id c) ->
  find (fun mech => sameIdent (id mech) ident) (Canvas.mechanisms s) = Some m ->
  find (fun mech => sameIdent (id mech) ident)
       (Canvas.mechanisms (Canvas.updateMechanism (id m) updates s))
  = Some (updates m).
Proof.
  intros Hid. unfold Canvas.updateMechanism, Canvas.setMechanisms.
  cbn [Canvas.mechanisms].
  induction (Canvas.mechanisms s) as [ | c rest IH]; intros H; simpl in *.
  - discriminate H.
  - destruct (sameIdent (id c) ident) eqn:Ec.
    + injection H as <-.
      rewrite (proj2 (sameIdent_true_iff (id c) (id c)) eq_refl).
      rewrite Hid, Ec. reflexivity.
    + assert (Hm : sameIdent (id m) ident = true).
      { apply find_some in H. exact (proj2 H). }
      apply sameIdent_true_iff in Hm.
      destruct (sameIdent (id c) (id m)) eqn:Ecm.
      * apply sameIdent_true_iff in Ecm. rewrite Ecm, Hm in Ec.
        rewrite (proj2 (sameIdent_true_iff ident ident) eq_refl) in Ec.
        discriminate Ec.
      * rewrite Ec. apply IH. exact H.
Qed.

(** What a move does to the mechanisms and to the angle while a handle is
    being dragged. *)
Lemma handleMouseMove_drags (s : Canvas.State) (e : Canvas.Pointer)
    (ident : Ident) (h : Canvas.Handle) (m : MechanismConfig) :
  Canvas.isPanning s = false -> Canvas.isPlaying s = false ->
  Canvas.dragTarget s = Some (Canvas.mkDragTarget ident h) ->
  find (fun mech => sameIdent (id mech) ident) (Canvas.mechanisms s) = Some m ->
  let dragged := Canvas.drag m h (Canvas.getWorldPoint s (Canvas.svgP e)) s in
  Canvas.mechanisms (Canvas.handleMouseMove s e) = Canvas.mechanisms dragged
  /\ Canvas.angle (Canvas.handleMouseMove s e) = Canvas.angle dragged.
Proof.
  intros Hpan Hplay Htarget Hfind. unfold Canvas.handleMouseMove.
  rewrite Hpan, Htarget, Hplay. cbn [negb Canvas.mechId Canvas.handle]. cbv zeta.
  rewrite Hfind.
  destruct (Canvas.isDrawMode s && Canvas.isDrawing s); split; reflexivity.
Qed.

Lemma canvas_dist (a b : Point) : Canvas.dist a b = dist a b.
Proof.
  unfold Canvas.dist, Js.hypot, dist. f_equal. ring.
Qed.

Lemma toRad_toDeg (a : R) : toRad (Canvas.toDeg a) = a.
Proof.
  unfold toRad, Canvas.toDeg. field. apply PI_neq0.
Qed.

Lemma state_p1_j1 (config : MechanismConfig) (crankAngleRad : R) :
  p1 (calculateLinkage config crankAngleRad) = anchorOf config
  /\ j1 (calculateLinkage config crankAngleRad) = crankTip config crankAngleRad.
Proof.
  unfold calculateLinkage. cbv zeta.
  destruct (type config) as [[] | ];
    repeat match goal with
           | |- context [match ?e with Some _ => _ | None => _ end] => destruct e
           | |- context [if ?b then _ else _] => destruct b
           end; cbn [p1 j1]; split; reflexivity.
Qed.

(** X25.
    Dragging the crank pin of a mechanism whose primary speed is 1 puts the
    crank pin under the pointer: the new crank length and the new drive
    angle are the polar coordinates of the pointer about the anchor, which
    stays where it was. *)
Theorem dragging_the_crank_pin_follows_the_pointer
    (s : Canvas.State) (e : Canvas.Pointer) (ident : Ident) (m : MechanismConfig) :
  Canvas.isPanning s = false -> Canvas.isPlaying s = false ->
  Canvas.dragTarget s = Some (Canvas.mkDragTarget ident Canvas.J1) ->
  find (fun mech => sameIdent (id mech) ident) (Canvas.mechanisms s) = Some m ->
  speed1 m ?? 1 = 1 ->
  let p := Canvas.getWorldPoint s (Canvas.svgP e) in
  let s' := Canvas.handleMouseMove s e in
  exists m',
    find (fun mech => sameIdent (id mech) ident) (Canvas.mechanisms s') = Some m'
    /\ j1 (calculateLinkage m' (Canvas.angle s')) = p
    /\ p1 (calculateLinkage m' (Canvas.angle s'))
       = p1 (calculateLinkage m (Canvas.angle s)).
Proof.
  intros Hpan Hplay Htarget Hfind Hs1 p s'.
  destruct (handleMouseMove_drags s e ident Canvas.J1 m Hpan Hplay Htarget Hfind)
    as [Em Ea].
  fold p s' in Em, Ea. rewrite Em, Ea.
  unfold Canvas.drag. cbv zeta.
  destruct (state_p1_j1 m (Canvas.angle s)) as [-> _].
  set (P1 := anchorOf m).
  exists (set_crankLength (Canvas.dist P1 p) m). split.
  - apply (find_after_update ident m (set_crankLength (Canvas.dist P1 p)) s);
      [ reflexivity | exact Hfind ].
  - cbn [Canvas.angle Canvas.setAngle].
    match goal with
    | |- context [calculateLinkage ?c ?a] =>
        destruct (state_p1_j1 c a) as [-> ->]
    end.
    split; [ | reflexivity ].
    unfold crankTip. cbv zeta.
    change (anchorOf (set_crankLength (Canvas.dist P1 p) m)) with P1.
    change (speed1 (set_crankLength (Canvas.dist P1 p) m)) with (speed1 m).
    change (crankLength (set_crankLength (Canvas.dist P1 p) m))
      with (Canvas.dist P1 p).
    rewrite Hs1, Rmult_1_r, canvas_dist. apply polar_round_trip.
Qed.

(** X26.  Dragging the anchor moves the mechanism rigidly: the anchor goes under
    the pointer and every other point of the state moves by the same
    vector. *)
Theorem dragging_the_anchor_moves_the_mechanism
    (s : Canvas.State) (e : Canvas.Pointer) (ident : Ident) (m : MechanismConfig) :
  Canvas.isPanning s = false -> Canvas.isPlaying s = false ->
  Canvas.dragTarget s = Some (Canvas.mkDragTarget ident Canvas.P1) ->
  find (fun mech => sameIdent (id mech) ident) (Canvas.mechanisms s) = Some m ->
  let before := calculateLinkage m (Canvas.angle s) in
  let p := Canvas.getWorldPoint s (Canvas.svgP e) in
  let s' := Canvas.handleMouseMove s e in
  exists m',
    find (fun mech => sameIdent (id mech) ident) (Canvas.mechanisms s') = Some m'
    /\ let after := calculateLinkage m' (Canvas.angle s') in
       p1 after = p
       /\ after
          = moveState (mkPoint (x p - x (p1 before)) (y p - y (p1 before)))
              before.
Proof.
  intros Hpan Hplay Htarget Hfind before p s'.
  destruct (handleMouseMove_drags s e ident Canvas.P1 m Hpan Hplay Htarget Hfind)
    as [Em Ea].
  fold p s' in Em, Ea. rewrite Em, Ea.
  unfold Canvas.drag. cbv zeta.
  set (upd := fun c => set_anchorY (Some (y p)) (set_anchorX (Some (x p)) c)).
  exists (upd m). split.
  - apply (find_after_update ident m upd s); [ reflexivity | exact Hfind ].
  - cbn [Canvas.angle Canvas.updateMechanism Canvas.setMechanisms]. cbv zeta.
    assert (Ep1 : p1 before = anchorOf m) by apply state_p1_j1.
    set (t := mkPoint (x p - x (p1 before)) (y p - y (p1 before))).
    assert (Eupd : upd m = moveAnchor t m).
    { unfold upd, moveAnchor, t. rewrite Ep1. unfold anchorOf. cbn [x y].
      replace (anchorX m ?? 0 + (x p - anchorX m ?? 0)) with (x p) by ring.
      replace (anchorY m ?? 0 + (y p - anchorY m ?? 0)) with (y p) by ring.
      reflexivity. }
    rewrite Eupd, linkage_moves_with_the_anchor. fold before.
    split; [ | reflexivity ].
    unfold moveState, moveBy, t. cbn [p1 x y].
    destruct p as [px py]. cbn [x y]. f_equal; ring.
Qed.

Lemma dragging_the_anchor_moves_the_mechanism_witness :
  let m := presetCrankRocker in
  let s := grabbedCanvas m Canvas.P1 in
  let e := pointerAt 350 320 in
  let before := calculateLinkage m (Canvas.angle s) in
  let p := Canvas.getWorldPoint s (Canvas.svgP e) in
  let s' := Canvas.handleMouseMove s e in
  exists m',
    find (fun mech => sameIdent (id mech) (Named "p1")) (Canvas.mechanisms s')
    = Some m'
    /\ let after := calculateLinkage m' (Canvas.angle s') in
       p1 after = p
       /\ after
          = moveState (mkPoint (x p - x (p1 before)) (y p - y (p1 before)))
              before.
Proof.
  apply (dragging_the_anchor_moves_the_mechanism
           (grabbedCanvas presetCrankRocker Canvas.P1) (pointerAt 350 320)
           (Named "p1") presetCrankRocker); reflexivity.
Defined.

Lemma dragging_the_crank_pin_follows_the_pointer_witness :
  let s := grabbedCanvas presetCrankRocker Canvas.J1 in
  let e := pointerAt 430 260 in
  let p := Canvas.getWorldPoint s (Canvas.svgP e) in
  let s' := Canvas.handleMouseMove s e in
  exists m',
    find (fun mech => sameIdent (id mech) (Named "p1")) (Canvas.mechanisms s')
    = Some m'
    /\ j1 (calculateLinkage m' (Canvas.angle s')) = p
    /\ p1 (calculateLinkage m' (Canvas.angle s'))
       = p1 (calculateLinkage presetCrankRocker (Canvas.angle s)).
Proof.
  apply (dragging_the_crank_pin_follows_the_pointer
           (grabbedCanvas presetCrankRocker Canvas.J1) (pointerAt 430 260)
           (Named "p1") presetCrankRocker); reflexivity.
Defined.

(** The ground pivot of a four-bar and of a five-bar, whatever the pose. *)
Lemma state_p2_ground (config : MechanismConfig) (crankAngleRad : R) :
  typeIs config fourbar || typeIs config fivebar = true ->
  p2 (calculateLinkage config crankAngleRad)
  = let t := toRad (groundAngle config ?? 0) in
    mkPoint (x (anchorOf config) + groundLength config * cos t)
            (y (anchorOf config) + groundLength config * sin t).
Proof.
  unfold typeIs, calculateLinkage. cbv zeta.
  destruct (type config) as [[] | ]; try discriminate; intros _;
    match goal with
    | |- context [match ?e with Some _ => _ | None => _ end] => destruct e
    end; reflexivity.
Qed.

(** X27.
    Dragging the ground pivot of a four-bar or of a five-bar puts the pivot
    under the pointer: the new ground length and ground angle are the polar
    coordinates of the pointer about the anchor. *)
Theorem dragging_the_ground_pivot_follows_the_pointer
    (s : Canvas.State) (e : Canvas.Pointer) (ident : Ident) (m : MechanismConfig) :
  Canvas.isPanning s = false -> Canvas.isPlaying s = false ->
  Canvas.dragTarget s = Some (Canvas.mkDragTarget ident Canvas.P2) ->
  find (fun mech => sameIdent (id mech) ident) (Canvas.mechanisms s) = Some m ->
  typeIs m fourbar || typeIs m fivebar = true ->
  let p := Canvas.getWorldPoint s (Canvas.svgP e) in
  let s' := Canvas.handleMouseMove s e in
  exists m',
    find (fun mech => sameIdent (id mech) ident) (Canvas.mechanisms s') = Some m'
    /\ p2 (calculateLinkage m' (Canvas.angle s')) = p
    /\ p1 (calculateLinkage m' (Canvas.angle s'))
       = p1 (calculateLinkage m (Canvas.angle s))
    /\ Canvas.angle s' = Canvas.angle s.
Proof.
  intros Hpan Hplay Htarget Hfind Hty p s'.
  destruct (handleMouseMove_drags s e ident Canvas.P2 m Hpan Hplay Htarget Hfind)
    as [Em Ea].
  fold p s' in Em, Ea. rewrite Em, Ea.
  unfold Canvas.drag. cbv zeta. rewrite Hty.
  destruct (state_p1_j1 m (Canvas.angle s)) as [-> _].
  set (P1 := anchorOf m).
  set (a := Js.atan2 (y p - y P1) (x p - x P1)).
  set (upd := fun c => set_groundAngle (Some (Canvas.toDeg a))
                         (set_groundLength (Js.hypot (x p - x P1) (y p - y P1)) c)).
  exists (upd m). split; [ | split; [ | split ] ].
  - apply (find_after_update ident m upd s); [ reflexivity | exact Hfind ].
  - rewrite state_p2_ground by exact Hty. cbv zeta.
    change (anchorOf (upd m)) with P1.
    change (groundAngle (upd m)) with (Some (Canvas.toDeg a)).
    change (groundLength (upd m)) with (Js.hypot (x p - x P1) (y p - y P1)).
    cbn [Js.nullish]. rewrite toRad_toDeg, <- dist_hypot.
    apply polar_round_trip.
  - destruct (state_p1_j1 (upd m) (Canvas.angle s)) as [E _].
    cbn [Canvas.angle Canvas.updateMechanism Canvas.setMechanisms]. rewrite E.
    reflexivity.
  - reflexivity.
Qed.

Lemma dragging_the_ground_pivot_follows_the_pointer_witness :
  let s := grabbedCanvas presetCrankRocker Canvas.P2 in
  let e := pointerAt 600 250 in
  let p := Canvas.getWorldPoint s (Canvas.svgP e) in
  let s' := Canvas.handleMouseMove s e in
  exists m',
    find (fun mech => sameIdent (id mech) (Named "p1")) (Canvas.mechanisms s')
    = Some m'
    /\ p2 (calculateLinkage m' (Canvas.angle s')) = p
    /\ p1 (calculateLinkage m' (Canvas.angle s'))
       = p1 (calculateLinkage presetCrankRocker (Canvas.angle s))
    /\ Canvas.angle s' = Canvas.angle s.
Proof.
  apply (dragging_the_ground_pivot_follows_the_pointer
           (grabbedCanvas presetCrankRocker Canvas.P2) (pointerAt 600 250)
           (Named "p1") presetCrankRocker); reflexivity.
Defined.

(** Writing the two coupler-point fields moves the effector and nothing
    else: the joints and the validity are those of the state before, and the
    effector is laid off from the crank pin at the new distance, the new
    angle being counted from the bar [J1 J2]. *)
Lemma coupler_point_effector (m : MechanismConfig) (crankAngleRad D A : R) :
  type m = Some fourbar \/ type m = Some piston ->
  let s := calculateLinkage m crankAngleRad in
  let s' :=
    calculateLinkage (set_couplerPointAngle A (set_couplerPointDist D m))
      crankAngleRad in
  isValid s = true ->
  isValid s' = true /\ p1 s' = p1 s /\ p2 s' = p2 s /\ j1 s' = j1 s
  /\ j2 s' = j2 s
  /\ effector s'
     = let bar := Js.atan2 (y (j2 s) - y (j1 s)) (x (j2 s) - x (j1 s)) in
       mkPoint (x (j1 s) + D * cos (bar + toRad A))
               (y (j1 s) + D * sin (bar + toRad A)).
Proof.
  intros Ht. unfold calculateLinkage, crankTip, anchorOf. fields.
  destruct Ht as [Ht | Ht]; rewrite Ht; cbv zeta;
    match goal with
    | |- context [match ?e with Some _ => _ | None => _ end] => destruct e
    | |- context [if ?b then _ else _] => destruct b
    end; cbn [isValid p1 p2 j1 j2 effector]; intros H;
    solve [ discriminate H | repeat split; reflexivity ].
Qed.

(** X28.  Dragging the effector of a four-bar or of a piston, in a valid pose,
    puts the effector under the pointer and leaves the joints where they
    were. *)
Theorem dragging_the_effector_follows_the_pointer
    (s : Canvas.State) (e : Canvas.Pointer) (ident : Ident) (m : MechanismConfig) :
  Canvas.isPanning s = false -> Canvas.isPlaying s = false ->
  Canvas.dragTarget s = Some (Canvas.mkDragTarget ident Canvas.Effector) ->
  find (fun mech => sameIdent (id mech) ident) (Canvas.mechanisms s) = Some m ->
  type m = Some fourbar \/ type m = Some piston ->
  isValid (calculateLinkage m (Canvas.angle s)) = true ->
  let p := Canvas.getWorldPoint s (Canvas.svgP e) in
  let s' := Canvas.handleMouseMove s e in
  exists m',
    find (fun mech => sameIdent (id mech) ident) (Canvas.mechanisms s') = Some m'
    /\ let before := calculateLinkage m (Canvas.angle s) in
       let after := calculateLinkage m' (Canvas.angle s') in
       effector after = p /\ isValid after = true
       /\ j1 after = j1 before /\ j2 after = j2 before.
Proof.
  intros Hpan Hplay Htarget Hfind Hty Hvalid p s'.
  destruct (handleMouseMove_drags s e ident Canvas.Effector m Hpan Hplay Htarget
              Hfind) as [Em Ea].
  fold p s' in Em, Ea. rewrite Em, Ea.
  unfold Canvas.drag. cbv zeta.
  assert (Hcrank : typeIs m crank = false /\ typeIs m fivebar = false)
    by (unfold typeIs; destruct Hty as [-> | ->]; split; reflexivity).
  destruct Hcrank as [-> ->]. cbn [negb].
  set (before := calculateLinkage m (Canvas.angle s)) in *.
  set (bar := Js.atan2 (y (j2 before) - y (j1 before))
                       (x (j2 before) - x (j1 before))).
  set (mouse := Js.atan2 (y p - y (j1 before)) (x p - x (j1 before))).
  set (upd := fun c => set_couplerPointAngle (Canvas.toDeg (mouse - bar))
                         (set_couplerPointDist (Canvas.dist (j1 before) p) c)).
  exists (upd m). split.
  - apply (find_after_update ident m upd s); [ reflexivity | exact Hfind ].
  - cbn [Canvas.angle Canvas.updateMechanism Canvas.setMechanisms]. cbv zeta.
    destruct (coupler_point_effector m (Canvas.angle s)
                (Canvas.dist (j1 before) p) (Canvas.toDeg (mouse - bar))
                Hty Hvalid) as (Hv & _ & _ & E1 & E2 & Eeff).
    fold before in E1, E2, Eeff. unfold upd.
    repeat split; try assumption.
    rewrite Eeff. cbv zeta. fold bar.
    rewrite toRad_toDeg, canvas_dist.
    replace (bar + (mouse - bar)) with mouse by ring.
    apply polar_round_trip.
Qed.

Lemma dragging_the_effector_follows_the_pointer_witness :
  let s := grabbedCanvas presetPiston Canvas.Effector in
  let e := pointerAt 480 340 in
  let p := Canvas.getWorldPoint s (Canvas.svgP e) in
  let s' := Canvas.handleMouseMove s e in
  exists m',
    find (fun mech => sameIdent (id mech) (Named "p2")) (Canvas.mechanisms s')
    = Some m'
    /\ let before := calculateLinkage presetPiston (Canvas.angle s) in
       let after := calculateLinkage m' (Canvas.angle s') in
       effector after = p /\ isValid after = true
       /\ j1 after = j1 before /\ j2 after = j2 before.
Proof.
  apply (dragging_the_effector_follows_the_pointer
           (grabbedCanvas presetPiston Canvas.Effector) (pointerAt 480 340)
           (Named "p2") presetPiston); try reflexivity.
  - right. reflexivity.
  - exact presetPiston_valid_at_0.
Defined.

(** X29.  Dragging the coupler joint of a four-bar whose crank pin is off the
    ground pivot never breaks the linkage.  The coupler and the rocker take
    the lengths to the pointer, the pose is valid, crank pin and ground pivot
    stay, and the joint lands on the pointer when the pointer is on the
    right of the line from the crank pin to the ground pivot, where the
    solver puts it; it lands, in any case, as far from both as the pointer
    is. *)
Theorem dragging_the_coupler_joint_keeps_the_four_bar_closed
    (s : Canvas.State) (e : Canvas.Pointer) (ident : Ident) (m : MechanismConfig) :
  Canvas.isPanning s = false -> Canvas.isPlaying s = false ->
  Canvas.dragTarget s = Some (Canvas.mkDragTarget ident Canvas.J2) ->
  find (fun mech => sameIdent (id mech) ident) (Canvas.mechanisms s) = Some m ->
  type m = Some fourbar ->
  let before := calculateLinkage m (Canvas.angle s) in
  j1 before <> p2 before ->
  let p := Canvas.getWorldPoint s (Canvas.svgP e) in
  let s' := Canvas.handleMouseMove s e in
  exists m',
    find (fun mech => sameIdent (id mech) ident) (Canvas.mechanisms s') = Some m'
    /\ let after := calculateLinkage m' (Canvas.angle s') in
       isValid after = true
       /\ j1 after = j1 before /\ p2 after = p2 before
       /\ dist (j1 after) (j2 after) = dist (j1 before) p
       /\ dist (p2 after) (j2 after) = dist (p2 before) p
       /\ (sideOf (j1 before) (p2 before) p <= 0 -> j2 after = p).
Proof.
  intros Hpan Hplay Htarget Hfind Hty before Hne p s'.
  destruct (handleMouseMove_drags s e ident Canvas.J2 m Hpan Hplay Htarget Hfind)
    as [Em Ea].
  fold p s' in Em, Ea. rewrite Em, Ea.
  assert (Hfour : typeIs m fourbar = true) by (unfold typeIs; rewrite Hty; reflexivity).
  unfold Canvas.drag. cbv zeta. rewrite Hfour. fold before.
  set (upd := fun c => set_couplerLength (Canvas.dist (j1 before) p)
                         (set_rockerLength (Canvas.dist (p2 before) p) c)).
  exists (upd m). split.
  - apply (find_after_update ident m upd s); [ reflexivity | exact Hfind ].
  - cbn [Canvas.angle Canvas.updateMechanism Canvas.setMechanisms].
    assert (E1 : j1 before = crankTip m (Canvas.angle s))
      by apply state_p1_j1.
    assert (E2 : p2 before
                 = mkPoint (x (anchorOf m)
                            + groundLength m * cos (toRad (groundAngle m ?? 0)))
                           (y (anchorOf m)
                            + groundLength m * sin (toRad (groundAngle m ?? 0)))).
    { unfold before. rewrite state_p2_ground by (rewrite Hfour; reflexivity).
      reflexivity. }
    destruct (circles_through_a_point (j1 before) (p2 before) p false Hne)
      as (r & Er & D0 & D1 & Hside).
    rewrite <- !canvas_dist in Er.
    unfold calculateLinkage.
    change (type (upd m)) with (type m). rewrite Hty. cbv zeta.
    change (crankTip (upd m) (Canvas.angle s)) with (crankTip m (Canvas.angle s)).
    change (anchorOf (upd m)) with (anchorOf m).
    change (groundAngle (upd m)) with (groundAngle m).
    change (groundLength (upd m)) with (groundLength m).
    change (couplerLength (upd m)) with (Canvas.dist (j1 before) p).
    change (rockerLength (upd m)) with (Canvas.dist (p2 before) p).
    rewrite <- E1, <- E2, Er. cbn [isValid j1 j2 p2].
    repeat split; assumption.
Qed.

Lemma dragging_the_coupler_joint_keeps_the_four_bar_closed_witness :
  let m := presetCrankRocker in
  let s := grabbedCanvas m Canvas.J2 in
  let e := pointerAt 500 200 in
  let before := calculateLinkage m (Canvas.angle s) in
  let p := Canvas.getWorldPoint s (Canvas.svgP e) in
  let s' := Canvas.handleMouseMove s e in
  exists m',
    find (fun mech => sameIdent (id mech) (Named "p1")) (Canvas.mechanisms s')
    = Some m'
    /\ let after := calculateLinkage m' (Canvas.angle s') in
       isValid after = true
       /\ j1 after = j1 before /\ p2 after = p2 before
       /\ dist (j1 after) (j2 after) = dist (j1 before) p
       /\ dist (p2 after) (j2 after) = dist (p2 before) p
       /\ (sideOf (j1 before) (p2 before) p <= 0 -> j2 after = p).
Proof.
  apply (dragging_the_coupler_joint_keeps_the_four_bar_closed
           (grabbedCanvas presetCrankRocker Canvas.J2) (pointerAt 500 200)
           (Named "p1") presetCrankRocker); try reflexivity.
  destruct crankRocker_at_0 as (_ & E1 & E2).
  cbn [Canvas.angle grabbedCanvas]. rewrite E1, E2.
  intros H. injection H as H. lra.
Defined.

(** ** The drawn path *)

Lemma lastPoint_single (a : Point) : Canvas.lastPoint [a] = Some a.
Proof.
  reflexivity.
Qed.

Lemma lastPoint_cons (a b : Point) (l : list Point) :
  Canvas.lastPoint (a :: b :: l) = Canvas.lastPoint (b :: l).
Proof.
  unfold Canvas.lastPoint, Js.index.
  replace (Z.of_nat (length (a :: b :: l)) - 1)%Z
    with (Z.of_nat (S (length l))) by (cbn [length]; lia).
  replace (Z.of_nat (length (b :: l)) - 1)%Z
    with (Z.of_nat (length l)) by (cbn [length]; lia).
  destruct (Z.of_nat (S (length l)) <? 0)%Z eqn:E1;
    [ apply Z.ltb_lt in E1; lia | ].
  destruct (Z.of_nat (length l) <? 0)%Z eqn:E2;
    [ apply Z.ltb_lt in E2; lia | ].
  rewrite !Nat2Z.id. reflexivity.
Qed.

Lemma lastPoint_nonempty (a : Point) (l : list Point) :
  exists last, Canvas.lastPoint (a :: l) = Some last.
Proof.
  revert a. induction l as [ | b l IH]; intros a.
  - exists a. reflexivity.
  - rewrite lastPoint_cons. apply IH.
Qed.

Lemma spaced_cons (a b : Point) (l : list Point) :
  spaced (a :: b :: l) <-> 5 < dist a b /\ spaced (b :: l).
Proof.
  reflexivity.
Qed.

Lemma spaced_append (path : list Point) (q : Point) :
  spaced path ->
  (forall last, Canvas.lastPoint path = Some last -> 5 < dist last q) ->
  spaced (path ++ [q]).
Proof.
  induction path as [ | a rest IH]; intros Hs Hlast.
  - exact I.
  - destruct rest as [ | b rest].
    + cbn [app]. apply spaced_cons. split; [ | exact I ].
      apply Hlast. reflexivity.
    + apply spaced_cons in Hs. destruct Hs as [Hab Hs].
      change ((a :: b :: rest) ++ [q]) with (a :: b :: (rest ++ [q])).
      apply spaced_cons. split; [ exact Hab | ].
      apply IH; [ exact Hs | ].
      intros last E. apply Hlast. rewrite lastPoint_cons. exact E.
Qed.

(** What [draw] returns: the path, or the path and one more point, more
    than 5 away from its last point; with the shift key, level with it or
    straight above or below it. *)
Lemma draw_spec (p : Point) (shift : bool) (path : list Point) :
  Canvas.draw p shift path = path
  \/ exists q,
       Canvas.draw p shift path = path ++ [q]
       /\ (forall last, Canvas.lastPoint path = Some last ->
           5 < dist last q
           /\ (shift = true -> x q = x last \/ y q = y last)
           /\ (shift = false -> q = p)).
Proof.
  unfold Canvas.draw. cbv zeta.
  destruct path as [ | a rest].
  - right. rewrite andb_false_r. cbn [Canvas.lastPoint Js.index length].
    exists p. split; [ reflexivity | ]. intros last E. discriminate E.
  - destruct (lastPoint_nonempty a rest) as (last & El). rewrite El.
    change (0 <? length (a :: rest))%nat with true. rewrite andb_true_r.
    set (q := if shift then _ else p).
    destruct (Js.gtb (Js.hypot (x q - x last) (y q - y last)) 5) eqn:E;
      [ | left; reflexivity ].
    right. exists q. split; [ reflexivity | ].
    intros last' El'. injection El' as <-.
    apply gtb_true_iff in E. rewrite <- dist_hypot in E.
    split; [ lra | ]. split.
    + intros ->. unfold q.
      destruct (Js.gtb _ _); cbn [x y]; [ right | left ]; reflexivity.
    + intros ->. reflexivity.
Qed.

Lemma drag_keeps_the_path (m : MechanismConfig) (h : Canvas.Handle) (p : Point)
    (s : Canvas.State) :
  Canvas.userPath (Canvas.drag m h p s) = Canvas.userPath s.
Proof.
  unfold Canvas.drag. cbv zeta.
  destruct h;
    repeat match goal with
           | |- context [if ?b then _ else _] => destruct b
           end; reflexivity.
Qed.

(** X30.  Drawing keeps the path sparse.  A move of the pointer leaves the drawn
    path as it is or appends one point to it; consecutive points stay more
    than 5 apart; and with the shift key held the appended point is level
    with the last one, or straight above or below it. *)
Theorem drawing_keeps_the_path_spaced (s : Canvas.State) (e : Canvas.Pointer) :
  spaced (Canvas.userPath s) ->
  let s' := Canvas.handleMouseMove s e in
  spaced (Canvas.userPath s')
  /\ (Canvas.userPath s' = Canvas.userPath s
      \/ exists q,
           Canvas.userPath s' = Canvas.userPath s ++ [q]
           /\ (forall last, Canvas.lastPoint (Canvas.userPath s) = Some last ->
               5 < dist last q
               /\ (Canvas.shiftKey e = true -> x q = x last \/ y q = y last))).
Proof.
  intros Hs s'.
  assert (Hdraw : forall p,
             spaced (Canvas.draw p (Canvas.shiftKey e) (Canvas.userPath s))
             /\ (Canvas.draw p (Canvas.shiftKey e) (Canvas.userPath s)
                 = Canvas.userPath s
                 \/ exists q,
                      Canvas.draw p (Canvas.shiftKey e) (Canvas.userPath s)
                      = Canvas.userPath s ++ [q]
                      /\ (forall last,
                            Canvas.lastPoint (Canvas.userPath s) = Some last ->
                            5 < dist last q
                            /\ (Canvas.shiftKey e = true ->
                                x q = x last \/ y q = y last)))).
  { intros p.
    destruct (draw_spec p (Canvas.shiftKey e) (Canvas.userPath s))
      as [-> | (q & -> & Hq)].
    - split; [ exact Hs | left; reflexivity ].
    - split.
      + apply spaced_append; [ exact Hs | ].
        intros last El. exact (proj1 (Hq last El)).
      + right. exists q. split; [ reflexivity | ].
        intros last El. destruct (Hq last El) as (H1 & H2 & _). auto. }
  assert (Hsame : spaced (Canvas.userPath s)
                  /\ (Canvas.userPath s = Canvas.userPath s
                      \/ exists q,
                           Canvas.userPath s = Canvas.userPath s ++ [q]
                           /\ (forall last,
                                 Canvas.lastPoint (Canvas.userPath s) = Some last ->
                                 5 < dist last q
                                 /\ (Canvas.shiftKey e = true ->
                                     x q = x last \/ y q = y last))))
    by (split; [ exact Hs | left; reflexivity ]).
  subst s'. unfold Canvas.handleMouseMove.
  destruct (Canvas.isPanning s); [ exact Hsame | ]. cbv zeta.
  destruct (Canvas.dragTarget s) as [target | ].
  - destruct (negb (Canvas.isPlaying s)).
    + destruct (find _ (Canvas.mechanisms s)) as [m | ]; [ | exact Hsame ].
      destruct (Canvas.isDrawMode s && Canvas.isDrawing s).
      * apply Hdraw.
      * rewrite drag_keeps_the_path. exact Hsame.
    + destruct (Canvas.isDrawMode s && Canvas.isDrawing s);
        [ apply Hdraw | exact Hsame ].
  - destruct (Canvas.isDrawMode s && Canvas.isDrawing s);
      [ apply Hdraw | exact Hsame ].
Qed.

Lemma drawing_keeps_the_path_spaced_witness :
  let s := Canvas.mkState [] 0 false true [mkPoint 0 0] (mkPoint 0 0) 1 false true
             None in
  let e := Canvas.mkPointer (mkPoint 420 290) 0 0 true in
  let s' := Canvas.handleMouseMove s e in
  spaced (Canvas.userPath s')
  /\ (Canvas.userPath s' = Canvas.userPath s
      \/ exists q,
           Canvas.userPath s' = Canvas.userPath s ++ [q]
           /\ (forall last, Canvas.lastPoint (Canvas.userPath s) = Some last ->
               5 < dist last q
               /\ (Canvas.shiftKey e = true -> x q = x last \/ y q = y last))).
Proof.
  apply (drawing_keeps_the_path_spaced
           (Canvas.mkState [] 0 false true [mkPoint 0 0] (mkPoint 0 0) 1 false
              true None)
           (Canvas.mkPointer (mkPoint 420 290) 0 0 true)).
  exact I.
Defined.
